(** * FontFaceSetImpl: web-font resolution and aggregate loading status

    A shallow embedding of [layout/style/FontFaceSetImpl.cpp].  Objects that
    the C++ code reaches through pointers (font faces, user-font entries) live
    in finite maps keyed by their address, so that aliasing is kept; every
    member function becomes a function on the explicit state of the set.

    Part I holds the model, Part II the properties proved about it. *)

From Stdlib Require Import ZArith Ascii String.
From stdpp Require Import gmap strings list.

Local Open Scope Z_scope.

(* ===================================================================== *)
(** * Part I: the model                                                   *)
(* ===================================================================== *)

(** ** Outcomes of code with assertions

    [MOZ_ASSERT_UNREACHABLE] is fatal; a function that contains one returns an
    [outcome].  [OutOfFuel] only exists for the loops of the model that are
    driven by a counter: the properties below show it is never produced. *)

Inductive outcome (A : Type) : Type :=
| Returned (a : A)
| AssertUnreachable
| OutOfFuel.

Arguments Returned {A} a.
Arguments AssertUnreachable {A}.
Arguments OutOfFuel {A}.

#[global] Instance outcome_ret : MRet outcome := fun _ a => Returned a.
#[global] Instance outcome_bind : MBind outcome := fun _ _ k m =>
  match m with
  | Returned a => k a
  | AssertUnreachable => AssertUnreachable
  | OutOfFuel => OutOfFuel
  end.

(** ** Font property types ([mozilla/FontPropertyTypes.h])

    The header is not part of the analysed sources.  The code only moves these
    values around and calls the conversions, so they are an interface. *)

Class FontPropertyTypes : Type := {
  float : Type;
  float_minus_one : float;            (* the literal -1.0 *)
  float_one : float;                  (* the literal 1.0 *)
  FontWeight : Type;
  FontWeight_NORMAL : FontWeight;
  FontWeight_FromFloat : float -> FontWeight;
  FontStretch : Type;
  FontStretch_NORMAL : FontStretch;
  FontSlantStyle : Type;
  FontSlantStyle_NORMAL : FontSlantStyle;
  FontSlantStyle_ITALIC : FontSlantStyle;
  FontSlantStyle_FromFloat : float -> FontSlantStyle;
}.

(** [FontPropertyRange<T>]: the one-argument constructor builds the point
    range, the two-argument one stores both bounds. *)
Record FontPropertyRange (T : Type) : Type := MkRange { Min : T; Max : T }.
Arguments MkRange {T} _ _.
Arguments Min {T} _.
Arguments Max {T} _.

Definition Range1 {T} (aValue : T) : FontPropertyRange T := MkRange aValue aValue.
Definition Range2 {T} (aMin aMax : T) : FontPropertyRange T := MkRange aMin aMax.

(** Modelled from the spec: [gfxFontEntry::RangeFlags] is declared in
    gfxFontEntry.h.  It is "a range-flags bitset marking which axes were left
    auto": one bit per axis. *)
Definition RangeFlags := Z.
Definition eNoFlags : RangeFlags := 0.
Definition eAutoWeight : RangeFlags := Z.shiftl 1 0.
Definition eAutoStretch : RangeFlags := Z.shiftl 1 1.
Definition eAutoSlantStyle : RangeFlags := Z.shiftl 1 2.

Definition has_flag (flags bit : RangeFlags) : bool := Z.land flags bit =? bit.

(** Whether a descriptor was left out ("auto"). *)
Definition is_auto {A} (aVal : option A) : bool :=
  match aVal with
  | None => true
  | Some _ => false
  end.

Section Resolver.
Context {FP : FontPropertyTypes}.

Definition WeightRange := FontPropertyRange FontWeight.
Definition StretchRange := FontPropertyRange FontStretch.
Definition SlantStyleRange := FontPropertyRange FontSlantStyle.

(** [StyleComputedFontStyleDescriptor]: a tagged union with three tags. *)
Inductive StyleComputedFontStyleDescriptor : Type :=
| Normal
| Italic
| Oblique (_0 _1 : float).

Definition GetWeightRangeForDescriptor
    (aVal : option (float * float)) (aRangeFlags : RangeFlags)
    : WeightRange * RangeFlags :=
  match aVal with
  | None => (Range1 FontWeight_NORMAL, Z.lor aRangeFlags eAutoWeight)
  | Some v => (Range2 (FontWeight_FromFloat v.1) (FontWeight_FromFloat v.2),
               aRangeFlags)
  end.

(** The [switch] of [GetStyleRangeForDescriptor]: [Some] when one of its
    [case]s returns, [None] when control leaves the switch. *)
Definition style_switch (val : StyleComputedFontStyleDescriptor)
    : option SlantStyleRange :=
  match val with
  | Normal => Some (Range1 FontSlantStyle_NORMAL)
  | Italic => Some (Range1 FontSlantStyle_ITALIC)
  | Oblique a b =>
      Some (Range2 (FontSlantStyle_FromFloat a) (FontSlantStyle_FromFloat b))
  end.

Definition GetStyleRangeForDescriptor
    (aVal : option StyleComputedFontStyleDescriptor) (aRangeFlags : RangeFlags)
    : outcome (SlantStyleRange * RangeFlags) :=
  match aVal with
  | None =>
      Returned (Range1 FontSlantStyle_NORMAL, Z.lor aRangeFlags eAutoSlantStyle)
  | Some val =>
      match style_switch val with
      | Some r => Returned (r, aRangeFlags)
      | None => AssertUnreachable      (* MOZ_ASSERT_UNREACHABLE("How?") *)
      end
  end.

Definition GetStretchRangeForDescriptor
    (aVal : option (FontStretch * FontStretch)) (aRangeFlags : RangeFlags)
    : StretchRange * RangeFlags :=
  match aVal with
  | None => (Range1 FontStretch_NORMAL, Z.lor aRangeFlags eAutoStretch)
  | Some v => (Range2 v.1 v.2, aRangeFlags)
  end.

End Resolver.

(** ** Source list builder

    The loop over the source-list components inside
    [FindOrCreateUserFontEntryFromFontFace]. *)

(** [StyleFontFaceSourceFormatKeyword]; the constructors are used qualified,
    as in the C++ code. *)
Module StyleFontFaceSourceFormatKeyword.
Inductive t : Type :=
| None | Collection | EmbeddedOpentype | Opentype | Svg | Truetype
| Woff | Woff2 | Unknown.
End StyleFontFaceSourceFormatKeyword.

Definition StyleFontFaceSourceTechFlags := Z.
Definition StyleFontFaceSourceTechFlags_Empty : StyleFontFaceSourceTechFlags := 0.

(** [StyleCssUrl]: [GetURI()] may be null; [ExtraData()] gives the referrer
    info and the principal of the sheet. *)
Record StyleCssUrl : Type := {
  GetURI : option string;
  ExtraData_ReferrerInfo : string;
  ExtraData_Principal : string;
}.

Inductive StyleFontFaceSourceListComponent : Type :=
| Url (url : StyleCssUrl)
| Local (atom : string)
| FormatHintKeyword (_0 : StyleFontFaceSourceFormatKeyword.t)
| FormatHintString (utf8_bytes : string)
| TechFlags (flags : StyleFontFaceSourceTechFlags).

Inductive StyleOrigin : Type := UserAgent | User | Author.

Inductive SourceType : Type :=
| eSourceType_Local | eSourceType_URL | eSourceType_Buffer.

(** [gfxFontFaceSrc]. *)
Record gfxFontFaceSrc : Type := {
  mSourceType : SourceType;
  mUseOriginPrincipal : bool;
  mTechFlags : StyleFontFaceSourceTechFlags;
  mFormatHint : StyleFontFaceSourceFormatKeyword.t;
  mLocalName : string;
  mURI : option string;
  mReferrerInfo : option string;
  mOriginPrincipal : option (string * string);
  mBuffer : option nat;
}.

(** What [nsTArray::AppendElement()] appends: a value-initialised element. *)
Definition gfxFontFaceSrc_default : gfxFontFaceSrc := {|
  mSourceType := eSourceType_Local;
  mUseOriginPrincipal := false;
  mTechFlags := 0;
  mFormatHint := StyleFontFaceSourceFormatKeyword.None;
  mLocalName := "";
  mURI := None;
  mReferrerInfo := None;
  mOriginPrincipal := None;
  mBuffer := None;
|}.

(** Modelled from the spec: [LowerCaseEqualsASCII] is a method of the string
    classes, defined outside the analysed file.  The comparison is
    "case-insensitive, e.g. "WOFF"": the value, with its ASCII capitals
    lowered, equals the literal. *)
Definition ASCIIToLower (c : ascii) : ascii :=
  let n := N_of_ascii c in
  if ((65 <=? n) && (n <=? 90))%N then ascii_of_N (n + 32) else c.

Fixpoint ToLowerCaseASCII (s : string) : string :=
  match s with
  | EmptyString => EmptyString
  | String c s' => String (ASCIIToLower c) (ToLowerCaseASCII s')
  end.

Definition LowerCaseEqualsASCII (valueString literal : string) : bool :=
  String.eqb (ToLowerCaseASCII valueString) literal.

(** The [if]/[else if] chain that resolves a [FormatHintString];
    [variations_enabled] is the pref [layout.css.font-variations.enabled]. *)
Definition format_hint_of_string (variations_enabled : bool) (valueString : string)
    : StyleFontFaceSourceFormatKeyword.t :=
  if LowerCaseEqualsASCII valueString "woff" then
    StyleFontFaceSourceFormatKeyword.Woff
  else if LowerCaseEqualsASCII valueString "woff2" then
    StyleFontFaceSourceFormatKeyword.Woff2
  else if LowerCaseEqualsASCII valueString "opentype" then
    StyleFontFaceSourceFormatKeyword.Opentype
  else if LowerCaseEqualsASCII valueString "truetype" then
    StyleFontFaceSourceFormatKeyword.Truetype
  else if LowerCaseEqualsASCII valueString "truetype-aat" then
    StyleFontFaceSourceFormatKeyword.Truetype
  else if LowerCaseEqualsASCII valueString "embedded-opentype" then
    StyleFontFaceSourceFormatKeyword.EmbeddedOpentype
  else if LowerCaseEqualsASCII valueString "svg" then
    StyleFontFaceSourceFormatKeyword.Svg
  else if variations_enabled then
    if LowerCaseEqualsASCII valueString "woff-variations" then
      StyleFontFaceSourceFormatKeyword.Woff
    else if LowerCaseEqualsASCII valueString "woff2-variations" then
      StyleFontFaceSourceFormatKeyword.Woff2
    else if LowerCaseEqualsASCII valueString "opentype-variations" then
      StyleFontFaceSourceFormatKeyword.Opentype
    else if LowerCaseEqualsASCII valueString "truetype-variations" then
      StyleFontFaceSourceFormatKeyword.Truetype
    else StyleFontFaceSourceFormatKeyword.Unknown
  else StyleFontFaceSourceFormatKeyword.Unknown.

Definition set_format_hint (k : StyleFontFaceSourceFormatKeyword.t)
    (face : gfxFontFaceSrc) : gfxFontFaceSrc := {|
  mSourceType := mSourceType face;
  mUseOriginPrincipal := mUseOriginPrincipal face;
  mTechFlags := mTechFlags face;
  mFormatHint := k;
  mLocalName := mLocalName face;
  mURI := mURI face;
  mReferrerInfo := mReferrerInfo face;
  mOriginPrincipal := mOriginPrincipal face;
  mBuffer := mBuffer face;
|}.

Definition set_tech_flags (t : StyleFontFaceSourceTechFlags)
    (face : gfxFontFaceSrc) : gfxFontFaceSrc := {|
  mSourceType := mSourceType face;
  mUseOriginPrincipal := mUseOriginPrincipal face;
  mTechFlags := t;
  mFormatHint := mFormatHint face;
  mLocalName := mLocalName face;
  mURI := mURI face;
  mReferrerInfo := mReferrerInfo face;
  mOriginPrincipal := mOriginPrincipal face;
  mBuffer := mBuffer face;
|}.

(** The element as the [Local] case leaves it. *)
Definition local_face (atom : string) : gfxFontFaceSrc := {|
  mSourceType := eSourceType_Local;
  mUseOriginPrincipal := false;
  mTechFlags := mTechFlags gfxFontFaceSrc_default;
  mFormatHint := StyleFontFaceSourceFormatKeyword.None;
  mLocalName := atom;
  mURI := None;
  mReferrerInfo := None;
  mOriginPrincipal := None;
  mBuffer := None;
|}.

(** The element as the [Url] case leaves it before it looks at the next
    components. *)
Definition url_face (aOrigin : StyleOrigin) (url : StyleCssUrl) : gfxFontFaceSrc :=
  let origin_principal :=
    match aOrigin with
    | User | UserAgent => true
    | Author => false
    end in {|
  mSourceType := eSourceType_URL;
  mUseOriginPrincipal := origin_principal;
  mTechFlags := StyleFontFaceSourceTechFlags_Empty;
  mFormatHint := StyleFontFaceSourceFormatKeyword.None;
  mLocalName := "";
  mURI := GetURI url;
  mReferrerInfo := Some (ExtraData_ReferrerInfo url);
  mOriginPrincipal :=
    if origin_principal
    then Some (ExtraData_Principal url, ExtraData_Principal url) else None;
  mBuffer := None;
|}.

(** "Check for a format hint": the first [if (i + 1 < len)] block of the
    [Url] case.  Returns the element and the new value of [i]. *)
Definition check_format_hint (variations_enabled : bool)
    (sourceListComponents : list StyleFontFaceSourceListComponent)
    (i : nat) (face : gfxFontFaceSrc) : gfxFontFaceSrc * nat :=
  match sourceListComponents !! (i + 1)%nat with
  | Some (FormatHintKeyword k) => (set_format_hint k face, (i + 1)%nat)
  | Some (FormatHintString valueString) =>
      (set_format_hint (format_hint_of_string variations_enabled valueString) face,
       (i + 1)%nat)
  | Some (TechFlags _) | Some (Local _) | Some (Url _) => (face, i)
  | None => (face, i)                               (* i + 1 >= len *)
  end.

(** "Check for a set of font-technologies flags": the second block. *)
Definition check_tech_flags
    (sourceListComponents : list StyleFontFaceSourceListComponent)
    (i : nat) (face : gfxFontFaceSrc) : gfxFontFaceSrc * nat :=
  match sourceListComponents !! (i + 1)%nat with
  | Some (TechFlags t) => (set_tech_flags t face, (i + 1)%nat)
  | _ => (face, i)
  end.

(** The [for (size_t i = 0; i < len; ++i)] loop, from index [i] on.  Every
    iteration advances [i], so [len - i] iterations are always enough. *)
Fixpoint source_loop (fuel : nat) (variations_enabled : bool) (aOrigin : StyleOrigin)
    (sourceListComponents : list StyleFontFaceSourceListComponent)
    (i : nat) (srcArray : list gfxFontFaceSrc) : outcome (list gfxFontFaceSrc) :=
  match sourceListComponents !! i with
  | None => Returned srcArray                        (* i >= len *)
  | Some component =>
      match fuel with
      | O => OutOfFuel
      | S fuel' =>
          let continue_at i' srcArray' :=
            source_loop fuel' variations_enabled aOrigin sourceListComponents
                        (S i') srcArray' in
          match component with
          | Local atom => continue_at i (srcArray ++ [local_face atom])
          | Url url =>
              let face := url_face aOrigin url in
              let '(face, i) :=
                check_format_hint variations_enabled sourceListComponents i face in
              let '(face, i) := check_tech_flags sourceListComponents i face in
              match mURI face with
              | None => continue_at i srcArray       (* RemoveLastElement *)
              | Some _ => continue_at i (srcArray ++ [face])
              end
          | FormatHintKeyword _ | FormatHintString _ | TechFlags _ =>
              AssertUnreachable
          end
      end
  end.

Definition BuildSrcArray (variations_enabled : bool) (aOrigin : StyleOrigin)
    (sourceListComponents : list StyleFontFaceSourceListComponent)
    : outcome (list gfxFontFaceSrc) :=
  source_loop (length sourceListComponents) variations_enabled aOrigin
              sourceListComponents 0 [].

(** ** Objects: font faces, user-font entries, the face set *)

Module FontFaceLoadStatus.
Inductive t : Type := Unloaded | Loading | Loaded | Error.
#[global] Instance eq_dec : EqDecision t.
Proof. solve_decision. Defined.
End FontFaceLoadStatus.

Module FontFaceSetLoadStatus.
Inductive t : Type := Loading | Loaded.
#[global] Instance eq_dec : EqDecision t.
Proof. solve_decision. Defined.
End FontFaceSetLoadStatus.

Inductive StyleFontDisplay : Type := Auto | Block | Swap | Fallback | Optional.

(** [gfxFontFeature]: tag and value. *)
Definition gfxFontFeature : Type := Z * Z.

(** [gfxCharacterMap]: the compiled unicode-range, kept as its list of
    inclusive codepoint intervals. *)
Definition gfxCharacterMap : Type := list (Z * Z).

Definition NO_FONT_LANGUAGE_OVERRIDE : Z := 0.

(** What the caller may get back through [ErrorResult]. *)
Inductive ErrorResult : Type :=
| NoError
| InvalidStateError (message : string)
| SyntaxError (message : string)
| InvalidModificationError (message : string).

(** Work handed to another execution context. *)
Inductive Task : Type :=
| RunOnLoadingStarted
| RunOnLoadingFinished
| RunCheckLoadingFinishedAfterDelay.

(** [FontFaceRecord]. *)
Record FontFaceRecord : Type := {
  mFontFace : nat;
  mOrigin : option StyleOrigin;
}.

(** The owning [FontFaceSet] (the DOM object).  Its methods are defined
    outside the analysed file, so they are an interface. *)
Class FontFaceSetOwner : Type := {
  FontFaceSet : Type;
  FontFaceSet_ReadyPromiseIsPending : FontFaceSet -> bool;
  DispatchLoadingEventAndReplaceReadyPromise : FontFaceSet -> FontFaceSet;
  MaybeResolve : FontFaceSet -> FontFaceSet;
}.

Section Objects.
Context {FP : FontPropertyTypes} {OW : FontFaceSetOwner}.

(** The attributes of a user-font entry, in the order in which
    [UpdateAttributes] and [FindOrCreateUserFontEntry] receive them. *)
Record gfxUserFontAttributes : Type := {
  aWeight : WeightRange;
  aStretch : StretchRange;
  aStyle : SlantStyleRange;
  aFeatureSettings : list gfxFontFeature;
  aVariationSettings : list (Z * float);
  aLanguageOverride : Z;
  aUnicodeRanges : option gfxCharacterMap;
  aFontDisplay : StyleFontDisplay;
  aRangeFlags : RangeFlags;
  aAscentOverride : float;
  aDescentOverride : float;
  aLineGapOverride : float;
  aSizeAdjust : float;
}.

(** [FontFaceImpl], as far as this file reads or writes it. *)
Record FontFaceImpl : Type := MkFontFaceImpl {
  HasRule : bool;
  mInFontFaceSet : bool;
  Status : FontFaceLoadStatus.t;
  GetOwner : option nat;
  GetFamilyName : option string;
  GetUserFontEntry : option nat;
  GetFontWeight : option (float * float);
  GetFontStretch : option (FontStretch * FontStretch);
  GetFontStyle : option StyleComputedFontStyleDescriptor;
  GetFontDisplay : option StyleFontDisplay;
  GetAscentOverride : option float;
  GetDescentOverride : option float;
  GetLineGapOverride : option float;
  GetSizeAdjust : option float;
  GetFontFeatureSettings : list gfxFontFeature;
  GetFontVariationSettings : list (Z * float);
  GetFontLanguageOverride : option Z;
  GetUnicodeRangeAsCharacterMap : option gfxCharacterMap;
  mBufferSource : option nat;
  GetSources : list StyleFontFaceSourceListComponent;
}.

Definition set_mInFontFaceSet (v : bool) (f : FontFaceImpl) : FontFaceImpl :=
  MkFontFaceImpl (HasRule f) v (Status f) (GetOwner f) (GetFamilyName f)
    (GetUserFontEntry f) (GetFontWeight f) (GetFontStretch f)
    (GetFontStyle f) (GetFontDisplay f) (GetAscentOverride f)
    (GetDescentOverride f) (GetLineGapOverride f) (GetSizeAdjust f)
    (GetFontFeatureSettings f) (GetFontVariationSettings f)
    (GetFontLanguageOverride f) (GetUnicodeRangeAsCharacterMap f)
    (mBufferSource f) (GetSources f).

Definition set_Status (v : FontFaceLoadStatus.t) (f : FontFaceImpl) : FontFaceImpl :=
  MkFontFaceImpl (HasRule f) (mInFontFaceSet f) v (GetOwner f) (GetFamilyName f)
    (GetUserFontEntry f) (GetFontWeight f) (GetFontStretch f)
    (GetFontStyle f) (GetFontDisplay f) (GetAscentOverride f)
    (GetDescentOverride f) (GetLineGapOverride f) (GetSizeAdjust f)
    (GetFontFeatureSettings f) (GetFontVariationSettings f)
    (GetFontLanguageOverride f) (GetUnicodeRangeAsCharacterMap f)
    (mBufferSource f) (GetSources f).

Definition set_GetUserFontEntry (v : option nat) (f : FontFaceImpl) : FontFaceImpl :=
  MkFontFaceImpl (HasRule f) (mInFontFaceSet f) (Status f) (GetOwner f)
    (GetFamilyName f) v (GetFontWeight f) (GetFontStretch f)
    (GetFontStyle f) (GetFontDisplay f) (GetAscentOverride f)
    (GetDescentOverride f) (GetLineGapOverride f) (GetSizeAdjust f)
    (GetFontFeatureSettings f) (GetFontVariationSettings f)
    (GetFontLanguageOverride f) (GetUnicodeRangeAsCharacterMap f)
    (mBufferSource f) (GetSources f).

Definition set_mBufferSource (v : option nat) (f : FontFaceImpl) : FontFaceImpl :=
  MkFontFaceImpl (HasRule f) (mInFontFaceSet f) (Status f) (GetOwner f)
    (GetFamilyName f) (GetUserFontEntry f) (GetFontWeight f)
    (GetFontStretch f) (GetFontStyle f) (GetFontDisplay f)
    (GetAscentOverride f) (GetDescentOverride f) (GetLineGapOverride f)
    (GetSizeAdjust f) (GetFontFeatureSettings f)
    (GetFontVariationSettings f) (GetFontLanguageOverride f)
    (GetUnicodeRangeAsCharacterMap f) v (GetSources f).

#[global] Instance FontFaceImpl_inhabited : Inhabited FontFaceImpl :=
  populate (MkFontFaceImpl false false FontFaceLoadStatus.Unloaded None None None
              None None None None None None None None [] [] None None None []).

(** [gfxUserFontEntry] ([FontFaceImpl::Entry]); [mFontFaces] are the faces
    that share the entry. *)
Record gfxUserFontEntry : Type := MkEntry {
  attributes : gfxUserFontAttributes;
  mSrcList : list gfxFontFaceSrc;
  mFamilyName : string;
  mFontFaces : list nat;
}.

Definition set_attributes (v : gfxUserFontAttributes) (e : gfxUserFontEntry) : gfxUserFontEntry :=
  MkEntry v (mSrcList e) (mFamilyName e) (mFontFaces e).

Definition set_mFamilyName (v : string) (e : gfxUserFontEntry) : gfxUserFontEntry :=
  MkEntry (attributes e) (mSrcList e) v (mFontFaces e).

(** [FontFaceSetImpl] together with the objects it points to.  [faces] and
    [entries] are the heap; [IsOnOwningThread] and [CurrentServoStyleSet]
    describe the execution context of the running call; the two task lists
    collect what [DispatchToOwningThread] and [ServoStyleSet::AppendTask]
    were given. *)
Record FontFaceSetImpl : Type := MkFontFaceSetImpl {
  faces : gmap nat FontFaceImpl;
  entries : gmap nat gfxUserFontEntry;
  mFontFamilies : gmap string (list nat);
  mOwner : option FontFaceSet;
  mStatus : FontFaceSetLoadStatus.t;
  mNonRuleFaces : list FontFaceRecord;
  mNonRuleFacesDirty : bool;
  mHasLoadingFontFaces : bool;
  mHasLoadingFontFacesIsDirty : bool;
  mDelayedLoadCheck : bool;
  IsOnOwningThread : bool;
  CurrentServoStyleSet : bool;
  owning_thread_tasks : list Task;
  post_traversal_tasks : list Task;
}.

Definition set_faces (v : gmap nat FontFaceImpl) (st : FontFaceSetImpl) : FontFaceSetImpl :=
  MkFontFaceSetImpl v (entries st) (mFontFamilies st) (mOwner st) (mStatus st)
    (mNonRuleFaces st) (mNonRuleFacesDirty st) (mHasLoadingFontFaces st)
    (mHasLoadingFontFacesIsDirty st) (mDelayedLoadCheck st)
    (IsOnOwningThread st) (CurrentServoStyleSet st)
    (owning_thread_tasks st) (post_traversal_tasks st).

Definition set_entries (v : gmap nat gfxUserFontEntry) (st : FontFaceSetImpl) : FontFaceSetImpl :=
  MkFontFaceSetImpl (faces st) v (mFontFamilies st) (mOwner st) (mStatus st)
    (mNonRuleFaces st) (mNonRuleFacesDirty st) (mHasLoadingFontFaces st)
    (mHasLoadingFontFacesIsDirty st) (mDelayedLoadCheck st)
    (IsOnOwningThread st) (CurrentServoStyleSet st)
    (owning_thread_tasks st) (post_traversal_tasks st).

Definition set_mFontFamilies (v : gmap string (list nat)) (st : FontFaceSetImpl) : FontFaceSetImpl :=
  MkFontFaceSetImpl (faces st) (entries st) v (mOwner st) (mStatus st) (mNonRuleFaces st)
    (mNonRuleFacesDirty st) (mHasLoadingFontFaces st)
    (mHasLoadingFontFacesIsDirty st) (mDelayedLoadCheck st)
    (IsOnOwningThread st) (CurrentServoStyleSet st)
    (owning_thread_tasks st) (post_traversal_tasks st).

Definition set_mOwner (v : option FontFaceSet) (st : FontFaceSetImpl) : FontFaceSetImpl :=
  MkFontFaceSetImpl (faces st) (entries st) (mFontFamilies st) v (mStatus st)
    (mNonRuleFaces st) (mNonRuleFacesDirty st) (mHasLoadingFontFaces st)
    (mHasLoadingFontFacesIsDirty st) (mDelayedLoadCheck st)
    (IsOnOwningThread st) (CurrentServoStyleSet st)
    (owning_thread_tasks st) (post_traversal_tasks st).

Definition set_mStatus (v : FontFaceSetLoadStatus.t) (st : FontFaceSetImpl) : FontFaceSetImpl :=
  MkFontFaceSetImpl (faces st) (entries st) (mFontFamilies st) (mOwner st) v
    (mNonRuleFaces st) (mNonRuleFacesDirty st) (mHasLoadingFontFaces st)
    (mHasLoadingFontFacesIsDirty st) (mDelayedLoadCheck st)
    (IsOnOwningThread st) (CurrentServoStyleSet st)
    (owning_thread_tasks st) (post_traversal_tasks st).

Definition set_mNonRuleFaces (v : list FontFaceRecord) (st : FontFaceSetImpl) : FontFaceSetImpl :=
  MkFontFaceSetImpl (faces st) (entries st) (mFontFamilies st) (mOwner st) (mStatus st) v
    (mNonRuleFacesDirty st) (mHasLoadingFontFaces st)
    (mHasLoadingFontFacesIsDirty st) (mDelayedLoadCheck st)
    (IsOnOwningThread st) (CurrentServoStyleSet st)
    (owning_thread_tasks st) (post_traversal_tasks st).

Definition set_mNonRuleFacesDirty (v : bool) (st : FontFaceSetImpl) : FontFaceSetImpl :=
  MkFontFaceSetImpl (faces st) (entries st) (mFontFamilies st) (mOwner st) (mStatus st)
    (mNonRuleFaces st) v (mHasLoadingFontFaces st)
    (mHasLoadingFontFacesIsDirty st) (mDelayedLoadCheck st)
    (IsOnOwningThread st) (CurrentServoStyleSet st)
    (owning_thread_tasks st) (post_traversal_tasks st).

Definition set_mHasLoadingFontFaces (v : bool) (st : FontFaceSetImpl) : FontFaceSetImpl :=
  MkFontFaceSetImpl (faces st) (entries st) (mFontFamilies st) (mOwner st) (mStatus st)
    (mNonRuleFaces st) (mNonRuleFacesDirty st) v
    (mHasLoadingFontFacesIsDirty st) (mDelayedLoadCheck st)
    (IsOnOwningThread st) (CurrentServoStyleSet st)
    (owning_thread_tasks st) (post_traversal_tasks st).

Definition set_mHasLoadingFontFacesIsDirty (v : bool) (st : FontFaceSetImpl) : FontFaceSetImpl :=
  MkFontFaceSetImpl (faces st) (entries st) (mFontFamilies st) (mOwner st) (mStatus st)
    (mNonRuleFaces st) (mNonRuleFacesDirty st) (mHasLoadingFontFaces st)
    v (mDelayedLoadCheck st) (IsOnOwningThread st)
    (CurrentServoStyleSet st) (owning_thread_tasks st)
    (post_traversal_tasks st).

Definition set_mDelayedLoadCheck (v : bool) (st : FontFaceSetImpl) : FontFaceSetImpl :=
  MkFontFaceSetImpl (faces st) (entries st) (mFontFamilies st) (mOwner st) (mStatus st)
    (mNonRuleFaces st) (mNonRuleFacesDirty st) (mHasLoadingFontFaces st)
    (mHasLoadingFontFacesIsDirty st) v (IsOnOwningThread st)
    (CurrentServoStyleSet st) (owning_thread_tasks st)
    (post_traversal_tasks st).

Definition set_owning_thread_tasks (v : list Task) (st : FontFaceSetImpl) : FontFaceSetImpl :=
  MkFontFaceSetImpl (faces st) (entries st) (mFontFamilies st) (mOwner st) (mStatus st)
    (mNonRuleFaces st) (mNonRuleFacesDirty st) (mHasLoadingFontFaces st)
    (mHasLoadingFontFacesIsDirty st) (mDelayedLoadCheck st)
    (IsOnOwningThread st) (CurrentServoStyleSet st) v
    (post_traversal_tasks st).

Definition set_post_traversal_tasks (v : list Task) (st : FontFaceSetImpl) : FontFaceSetImpl :=
  MkFontFaceSetImpl (faces st) (entries st) (mFontFamilies st) (mOwner st) (mStatus st)
    (mNonRuleFaces st) (mNonRuleFacesDirty st) (mHasLoadingFontFaces st)
    (mHasLoadingFontFacesIsDirty st) (mDelayedLoadCheck st)
    (IsOnOwningThread st) (CurrentServoStyleSet st)
    (owning_thread_tasks st) v.


(** The virtual methods that the subclasses of [FontFaceSetImpl] provide. *)
Class FontFaceSetImplVirtuals : Type := {
  FlushUserFontSet : FontFaceSetImpl -> FontFaceSetImpl;
  MarkUserFontSetDirty : FontFaceSetImpl -> FontFaceSetImpl;
  GetURLExtraData : FontFaceSetImpl -> option string;
}.

Context {VT : FontFaceSetImplVirtuals}.

(** ** Reading and writing the heap

    A pointer the program dereferences is live; the maps are read with the
    total lookup. *)

Definition face (st : FontFaceSetImpl) (aFontFace : nat) : FontFaceImpl :=
  faces st !!! aFontFace.

Definition update_face (aFontFace : nat) (g : FontFaceImpl -> FontFaceImpl)
    (st : FontFaceSetImpl) : FontFaceSetImpl :=
  set_faces (<[aFontFace := g (face st aFontFace)]> (faces st)) st.

(** Modelled from the spec: [FontFaceImpl::IsInFontFaceSet],
    [FontFaceImpl::AddFontFaceSet] and [FontFaceImpl::RemoveFontFaceSet] are
    defined in FontFaceImpl.cpp.  The spec speaks of a descriptor being
    "already a member" of the set and of records being "detached" from it:
    membership is one flag of the face. *)
Definition IsInFontFaceSet (st : FontFaceSetImpl) (aFontFace : nat) : bool :=
  mInFontFaceSet (face st aFontFace).

Definition AddFontFaceSet (aFontFace : nat) (st : FontFaceSetImpl) : FontFaceSetImpl :=
  update_face aFontFace (set_mInFontFaceSet true) st.

Definition RemoveFontFaceSet (aFontFace : nat) (st : FontFaceSetImpl) : FontFaceSetImpl :=
  update_face aFontFace (set_mInFontFaceSet false) st.

(** ** Notifications *)

Definition DispatchToOwningThread (task : Task) (st : FontFaceSetImpl)
    : FontFaceSetImpl :=
  set_owning_thread_tasks (owning_thread_tasks st ++ [task]) st.

Definition AppendTask (task : Task) (st : FontFaceSetImpl) : FontFaceSetImpl :=
  set_post_traversal_tasks (post_traversal_tasks st ++ [task]) st.

Definition ReadyPromiseIsPending (st : FontFaceSetImpl) : bool :=
  match mOwner st with
  | Some owner => FontFaceSet_ReadyPromiseIsPending owner
  | None => false
  end.

Definition OnLoadingStarted (st : FontFaceSetImpl) : FontFaceSetImpl :=
  match mOwner st with
  | Some owner =>
      set_mOwner (Some (DispatchLoadingEventAndReplaceReadyPromise owner)) st
  | None => st
  end.

Definition OnLoadingFinished (st : FontFaceSetImpl) : FontFaceSetImpl :=
  match mOwner st with
  | Some owner => set_mOwner (Some (MaybeResolve owner)) st
  | None => st
  end.

(** ** Loading status coordinator *)

(** The scan of [UpdateHasLoadingFontFaces], which returns at the first face
    whose status is [Loading]. *)
Fixpoint scan_loading (st : FontFaceSetImpl) (records : list FontFaceRecord) : bool :=
  match records with
  | [] => false
  | rec :: rest =>
      if decide (Status (face st (mFontFace rec)) = FontFaceLoadStatus.Loading)
      then true
      else scan_loading st rest
  end.

Definition UpdateHasLoadingFontFaces (st : FontFaceSetImpl) : FontFaceSetImpl :=
  let st := set_mHasLoadingFontFacesIsDirty false st in
  let st := set_mHasLoadingFontFaces false st in
  if scan_loading st (mNonRuleFaces st)
  then set_mHasLoadingFontFaces true st
  else st.

Definition HasLoadingFontFaces (st : FontFaceSetImpl) : bool * FontFaceSetImpl :=
  let st :=
    if mHasLoadingFontFacesIsDirty st then UpdateHasLoadingFontFaces st else st in
  (mHasLoadingFontFaces st, st).

Definition MightHavePendingFontLoads (st : FontFaceSetImpl)
    : bool * FontFaceSetImpl :=
  HasLoadingFontFaces st.

Definition CheckLoadingStarted (st : FontFaceSetImpl) : FontFaceSetImpl :=
  let '(loading, st) := HasLoadingFontFaces st in
  if negb loading then st
  else if decide (mStatus st = FontFaceSetLoadStatus.Loading) then st
  else
    let st := set_mStatus FontFaceSetLoadStatus.Loading st in
    if IsOnOwningThread st then OnLoadingStarted st
    else DispatchToOwningThread RunOnLoadingStarted st.

Definition CheckLoadingFinished (st : FontFaceSetImpl) : FontFaceSetImpl :=
  if mDelayedLoadCheck st then st
  else if negb (ReadyPromiseIsPending st) then st
  else
    let '(pending, st) := MightHavePendingFontLoads st in
    if pending then st
    else
      let st := set_mStatus FontFaceSetLoadStatus.Loaded st in
      if IsOnOwningThread st then OnLoadingFinished st
      else DispatchToOwningThread RunOnLoadingFinished st.

Definition CheckLoadingFinishedAfterDelay (st : FontFaceSetImpl) : FontFaceSetImpl :=
  let st := set_mDelayedLoadCheck false st in
  CheckLoadingFinished st.

Definition DispatchCheckLoadingFinishedAfterDelay (st : FontFaceSetImpl)
    : FontFaceSetImpl :=
  if CurrentServoStyleSet st
  then AppendTask RunCheckLoadingFinishedAfterDelay st
  else DispatchToOwningThread RunCheckLoadingFinishedAfterDelay st.

(** [aFontFace] is a member of the set and its status has just changed (the
    two [MOZ_ASSERT]s of the function state this). *)
Definition OnFontFaceStatusChanged (st : FontFaceSetImpl) (aFontFace : nat)
    : FontFaceSetImpl :=
  let st := set_mHasLoadingFontFacesIsDirty true st in
  if decide (Status (face st aFontFace) = FontFaceLoadStatus.Loading)
  then CheckLoadingStarted st
  else
    if negb (mDelayedLoadCheck st)
    then DispatchCheckLoadingFinishedAfterDelay (set_mDelayedLoadCheck true st)
    else st.

(** Running a task that was handed over. *)
Definition run_task (task : Task) (st : FontFaceSetImpl) : FontFaceSetImpl :=
  match task with
  | RunOnLoadingStarted => OnLoadingStarted st
  | RunOnLoadingFinished => OnLoadingFinished st
  | RunCheckLoadingFinishedAfterDelay => CheckLoadingFinishedAfterDelay st
  end.

Definition FontFaceSetImpl_Status (st : FontFaceSetImpl)
    : FontFaceSetLoadStatus.t * FontFaceSetImpl :=
  let st := FlushUserFontSet st in
  (mStatus st, st).

(** ** Face set operations *)

Definition Add (st : FontFaceSetImpl) (aFontFace : nat)
    : bool * ErrorResult * FontFaceSetImpl :=
  let st := FlushUserFontSet st in
  if IsInFontFaceSet st aFontFace then (false, NoError, st)
  else if HasRule (face st aFontFace) then
    (false,
     InvalidModificationError
       "Can't add face to FontFaceSet that comes from an @font-face rule",
     st)
  else
    let st := AddFontFaceSet aFontFace st in
    let rec := {| mFontFace := aFontFace; mOrigin := None |} in
    let st := set_mNonRuleFaces (mNonRuleFaces st ++ [rec]) st in
    let st := set_mNonRuleFacesDirty true st in
    let st := MarkUserFontSetDirty st in
    let st := set_mHasLoadingFontFacesIsDirty true st in
    let st := CheckLoadingStarted st in
    (true, NoError, st).

(** The [for] loop of [Clear]: every recorded face leaves the set. *)
Fixpoint remove_all_from_set (records : list FontFaceRecord) (st : FontFaceSetImpl)
    : FontFaceSetImpl :=
  match records with
  | [] => st
  | rec :: rest => remove_all_from_set rest (RemoveFontFaceSet (mFontFace rec) st)
  end.

Definition Clear (st : FontFaceSetImpl) : FontFaceSetImpl :=
  let st := FlushUserFontSet st in
  match mNonRuleFaces st with
  | [] => st
  | _ :: _ =>
      let st := remove_all_from_set (mNonRuleFaces st) st in
      let st := set_mNonRuleFaces [] st in
      let st := set_mNonRuleFacesDirty true st in
      let st := MarkUserFontSetDirty st in
      let st := set_mHasLoadingFontFacesIsDirty true st in
      CheckLoadingFinished st
  end.

(** The [for] loop of [Delete]: the list without the first record of
    [aFontFace], or [None] when there is none ([removed] stays false). *)
Fixpoint remove_first_record (aFontFace : nat) (records : list FontFaceRecord)
    : option (list FontFaceRecord) :=
  match records with
  | [] => None
  | rec :: rest =>
      if decide (mFontFace rec = aFontFace) then Some rest
      else cons rec <$> remove_first_record aFontFace rest
  end.

Definition Delete (st : FontFaceSetImpl) (aFontFace : nat)
    : bool * FontFaceSetImpl :=
  let st := FlushUserFontSet st in
  if HasRule (face st aFontFace) then (false, st)
  else
    match remove_first_record aFontFace (mNonRuleFaces st) with
    | None => (false, st)
    | Some records =>
        let st := set_mNonRuleFaces records st in
        let st := RemoveFontFaceSet aFontFace st in
        let st := set_mNonRuleFacesDirty true st in
        let st := MarkUserFontSetDirty st in
        let st := set_mHasLoadingFontFacesIsDirty true st in
        let st := CheckLoadingFinished st in
        (true, st)
    end.

Definition HasAvailableFontFace (st : FontFaceSetImpl) (aFontFace : nat) : bool :=
  IsInFontFaceSet st aFontFace.

(** ** Font resource registry *)

(** The pref [layout.css.font-variations.enabled]. *)
Class StaticPrefs : Type := {
  layout_css_font_variations_enabled : bool;
}.

Context {SP : StaticPrefs}.

#[global] Instance gfxUserFontAttributes_inhabited : Inhabited gfxUserFontAttributes :=
  populate {|
    aWeight := Range1 FontWeight_NORMAL;
    aStretch := Range1 FontStretch_NORMAL;
    aStyle := Range1 FontSlantStyle_NORMAL;
    aFeatureSettings := [];
    aVariationSettings := [];
    aLanguageOverride := NO_FONT_LANGUAGE_OVERRIDE;
    aUnicodeRanges := None;
    aFontDisplay := Auto;
    aRangeFlags := eNoFlags;
    aAscentOverride := float_minus_one;
    aDescentOverride := float_minus_one;
    aLineGapOverride := float_minus_one;
    aSizeAdjust := float_one;
  |}.

#[global] Instance gfxUserFontEntry_inhabited : Inhabited gfxUserFontEntry :=
  populate (MkEntry inhabitant [] "" []).

Definition entry (st : FontFaceSetImpl) (aEntry : nat) : gfxUserFontEntry :=
  entries st !!! aEntry.

Definition update_entry (aEntry : nat) (g : gfxUserFontEntry -> gfxUserFontEntry)
    (st : FontFaceSetImpl) : FontFaceSetImpl :=
  set_entries (<[aEntry := g (entry st aEntry)]> (entries st)) st.

(** Modelled from the spec: [gfxUserFontEntry::UpdateAttributes] is defined in
    gfxUserFontSet.cpp.  "In-place update means the entry's fields are
    overwritten": the attributes are replaced, nothing else is touched. *)
Definition UpdateAttributes (aEntry : nat) (attrs : gfxUserFontAttributes)
    (st : FontFaceSetImpl) : FontFaceSetImpl :=
  update_entry aEntry (set_attributes attrs) st.

(** Modelled from the spec: [gfxUserFontSet::LookupFamily] is defined in
    gfxUserFontSet.cpp.  The registry is a "mapping from family name
    (case-sensitive string key as declared) to an ordered collection of
    resource entries". *)
Definition LookupFamily (st : FontFaceSetImpl) (aFamilyName : string)
    : option (list nat) :=
  mFontFamilies st !! aFamilyName.

(** Modelled from the spec: [gfxUserFontFamily::RemoveFontEntry] is defined in
    gfxUserFontSet.h.  It "detaches the entry from its previous family": the
    entry no longer occurs in the list of the family called [aFamilyName]. *)
Definition RemoveFontEntry (aFamilyName : string) (aEntry : nat)
    (st : FontFaceSetImpl) : FontFaceSetImpl :=
  set_mFontFamilies
    (alter (filter (fun e => e <> aEntry)) aFamilyName (mFontFamilies st)) st.

(** [CreateUserFontEntry]: a new [FontFaceImpl::Entry] with the given source
    list and attributes; it belongs to no family and no face yet. *)
Definition CreateUserFontEntry (aFontFaceSrcList : list gfxFontFaceSrc)
    (attrs : gfxUserFontAttributes) : gfxUserFontEntry :=
  MkEntry attrs aFontFaceSrcList "" [].

(** Modelled from the spec: [gfxUserFontSet::FindOrCreateUserFontEntry] is
    defined in gfxUserFontSet.cpp.  "Construct a new entry from the normalized
    attributes and insert it into the named family's entry list, preserving
    call order."  The new object gets an address that is not in use. *)
Definition FindOrCreateUserFontEntry (st : FontFaceSetImpl) (aFamilyName : string)
    (aFontFaceSrcList : list gfxFontFaceSrc) (attrs : gfxUserFontAttributes)
    : nat * FontFaceSetImpl :=
  let e := fresh (dom (entries st)) in
  let new_entry := set_mFamilyName aFamilyName
                     (CreateUserFontEntry aFontFaceSrcList attrs) in
  let st := set_entries (<[e := new_entry]> (entries st)) st in
  let family := default [] (mFontFamilies st !! aFamilyName) in
  let st := set_mFontFamilies
              (<[aFamilyName := family ++ [e]]> (mFontFamilies st)) st in
  (e, st).

(** Modelled from the spec: [FontFaceImpl::HasFontData] and
    [FontFaceImpl::TakeBufferSource] are defined in FontFaceImpl.h.  "If the
    descriptor carries embedded binary data directly, the source list is a
    single buffer source": the buffer is handed over, the face keeps none. *)
Definition HasFontData (f : FontFaceImpl) : bool :=
  bool_decide (is_Some (mBufferSource f)).

Definition TakeBufferSource (aFontFace : nat) (st : FontFaceSetImpl)
    : option nat * FontFaceSetImpl :=
  (mBufferSource (face st aFontFace),
   update_face aFontFace (set_mBufferSource None) st).

Definition buffer_face (buffer : option nat) : gfxFontFaceSrc := {|
  mSourceType := eSourceType_Buffer;
  mUseOriginPrincipal := mUseOriginPrincipal gfxFontFaceSrc_default;
  mTechFlags := mTechFlags gfxFontFaceSrc_default;
  mFormatHint := mFormatHint gfxFontFaceSrc_default;
  mLocalName := mLocalName gfxFontFaceSrc_default;
  mURI := mURI gfxFontFaceSrc_default;
  mReferrerInfo := mReferrerInfo gfxFontFaceSrc_default;
  mOriginPrincipal := mOriginPrincipal gfxFontFaceSrc_default;
  mBuffer := buffer;
|}.

(** The first part of [FindOrCreateUserFontEntryFromFontFace]: the attributes
    of the entry, resolved from the descriptors of the face. *)
Definition resolve_attributes (f : FontFaceImpl) : outcome gfxUserFontAttributes :=
  let languageOverride := NO_FONT_LANGUAGE_OVERRIDE in
  let fontDisplay := Auto in
  let ascentOverride := float_minus_one in
  let descentOverride := float_minus_one in
  let lineGapOverride := float_minus_one in
  let sizeAdjust := float_one in
  let rangeFlags := eNoFlags in
  let '(weight, rangeFlags) :=
    GetWeightRangeForDescriptor (GetFontWeight f) rangeFlags in
  let '(stretch, rangeFlags) :=
    GetStretchRangeForDescriptor (GetFontStretch f) rangeFlags in
  '(italicStyle, rangeFlags) ← GetStyleRangeForDescriptor (GetFontStyle f) rangeFlags;
  let fontDisplay := default fontDisplay (GetFontDisplay f) in
  let ascentOverride := default ascentOverride (GetAscentOverride f) in
  let descentOverride := default descentOverride (GetDescentOverride f) in
  let lineGapOverride := default lineGapOverride (GetLineGapOverride f) in
  let sizeAdjust := default sizeAdjust (GetSizeAdjust f) in
  let featureSettings := GetFontFeatureSettings f in
  let variationSettings := GetFontVariationSettings f in
  let languageOverride := default languageOverride (GetFontLanguageOverride f) in
  let unicodeRanges := GetUnicodeRangeAsCharacterMap f in
  Returned {|
    aWeight := weight;
    aStretch := stretch;
    aStyle := italicStyle;
    aFeatureSettings := featureSettings;
    aVariationSettings := variationSettings;
    aLanguageOverride := languageOverride;
    aUnicodeRanges := unicodeRanges;
    aFontDisplay := fontDisplay;
    aRangeFlags := rangeFlags;
    aAscentOverride := ascentOverride;
    aDescentOverride := descentOverride;
    aLineGapOverride := lineGapOverride;
    aSizeAdjust := sizeAdjust;
  |}.

(** "set up src array". *)
Definition build_source_list (st : FontFaceSetImpl) (aFontFace : nat)
    (aOrigin : StyleOrigin) : outcome (list gfxFontFaceSrc * FontFaceSetImpl) :=
  if HasFontData (face st aFontFace) then
    let '(buffer, st) := TakeBufferSource aFontFace st in
    Returned ([buffer_face buffer], st)
  else
    srcArray ← BuildSrcArray layout_css_font_variations_enabled aOrigin
                 (GetSources (face st aFontFace));
    Returned (srcArray, st).

(** [FindOrCreateUserFontEntryFromFontFace(aFamilyName, aFontFace, aOrigin)];
    the set of the face ([GetPrimaryFontFaceSet]) is [st]. *)
Definition FindOrCreateUserFontEntryFromFontFace (st : FontFaceSetImpl)
    (aFamilyName : string) (aFontFace : nat) (aOrigin : StyleOrigin)
    : outcome (option nat * FontFaceSetImpl) :=
  attrs ← resolve_attributes (face st aFontFace);
  match GetUserFontEntry (face st aFontFace) with
  | Some existingEntry =>
      let st := UpdateAttributes existingEntry attrs st in
      let name := mFamilyName (entry st existingEntry) in
      let st :=
        if negb (String.eqb name "") && negb (String.eqb name aFamilyName) then
          let st :=
            match LookupFamily st name with
            | Some _ => RemoveFontEntry name existingEntry st
            | None => st
            end in
          update_entry existingEntry (set_mFamilyName "") st
        else st in
      Returned (Some existingEntry, st)
  | None =>
      '(srcArray, st) ← build_source_list st aFontFace aOrigin;
      match srcArray with
      | [] => Returned (None, st)
      | _ :: _ =>
          let '(e, st) := FindOrCreateUserFontEntry st aFamilyName srcArray attrs in
          Returned (Some e, st)
      end
  end.

(** The one-argument overload. *)
Definition FindOrCreateUserFontEntryFromFontFace_1 (st : FontFaceSetImpl)
    (aFontFace : nat) : outcome (option nat * FontFaceSetImpl) :=
  match GetFamilyName (face st aFontFace) with
  | None => Returned (None, st)
  | Some fontFamily =>
      FindOrCreateUserFontEntryFromFontFace st fontFamily aFontFace Author
  end.

(** ** Matching engine *)

Inductive StyleSingleFontFamily : Type :=
| FamilyName (name : string)
| Generic (generic : string).

(** [gfxFontStyle], as far as the matching uses it. *)
Record gfxFontStyle : Type := {
  style : FontSlantStyle;
  weight : FontWeight;
  stretch : FontStretch;
}.

(** The style system and the font-matching code that this file calls. *)
Class FontMatchingServices : Type := {
  (* ServoCSSParser::ParseFontShorthandForMatching(aFont, url, ...) *)
  ServoCSSParser_ParseFontShorthandForMatching :
    string -> string ->
    option (list StyleSingleFontFamily * FontSlantStyle * FontStretch * FontWeight);
  (* gfxFontFamily::FindAllFontsForStyle, given the entries of the family *)
  FindAllFontsForStyle : FontFaceSetImpl -> list nat -> gfxFontStyle -> list nat;
}.

Context {MS : FontMatchingServices}.

Definition ParseFontShorthandForMatching (st : FontFaceSetImpl) (aFont : string)
    : ErrorResult + (list StyleSingleFontFamily * FontWeight * FontStretch * FontSlantStyle) :=
  match GetURLExtraData st with
  | None => inl (InvalidStateError "Missing URLExtraData")
  | Some url =>
      match ServoCSSParser_ParseFontShorthandForMatching aFont url with
      | None => inl (SyntaxError "Invalid font shorthand")
      | Some (aFamilyList, aStyle, aStretch, aWeight) =>
          inr (aFamilyList, aWeight, aStretch, aStyle)
      end
  end.

(** UTF-16 code units are numbers below 2^16. *)
Definition IS_SURROGATE (u : Z) : bool := Z.land u 0xF800 =? 0xD800.
Definition NS_IS_HIGH_SURROGATE (u : Z) : bool := Z.land u 0xFC00 =? 0xD800.
Definition NS_IS_LOW_SURROGATE (u : Z) : bool := Z.land u 0xFC00 =? 0xDC00.
Definition SURROGATE_TO_UCS4 (h l : Z) : Z :=
  Z.shiftl (Z.land h 0x03FF) 10 + Z.land l 0x03FF + 0x10000.

(** Modelled from the spec: [UTF16CharEnumerator::NextChar] is defined in
    nsUTF8Utils.h.  The loop tests "every codepoint of the input text": the
    call reads the codepoint that starts at [c] (U+FFFD for a surrogate that
    has no partner) and returns it with the rest of the text. *)
Definition NextChar (c : Z) (rest : list Z) : Z * list Z :=
  if negb (IS_SURROGATE c) then (c, rest)
  else
    match rest with
    | c2 :: rest' =>
        if NS_IS_HIGH_SURROGATE c && NS_IS_LOW_SURROGATE c2
        then (SURROGATE_TO_UCS4 c c2, rest')
        else (0xFFFD, rest)
    | [] => (0xFFFD, rest)
    end.

(** Modelled from the spec: [gfxUserFontEntry::CharacterInUnicodeRange] is
    defined in gfxUserFontSet.h.  It tests a codepoint "against the entry's
    unicode-range membership structure"; an entry without unicode-range
    covers every codepoint. *)
Definition CharacterInUnicodeRange (st : FontFaceSetImpl) (aEntry : nat) (c : Z)
    : bool :=
  match aUnicodeRanges (attributes (entry st aEntry)) with
  | Some map => existsb (fun r => (r.1 <=? c) && (c <=? r.2)) map
  | None => true
  end.

(** The [while (p < end)] loop of [HasAnyCharacterInUnicodeRange]; each
    [NextChar] consumes at least one code unit. *)
Fixpoint HasAnyCharacterInUnicodeRange_loop (fuel : nat) (st : FontFaceSetImpl)
    (aEntry : nat) (p : list Z) : outcome bool :=
  match p with
  | [] => Returned false
  | c0 :: rest =>
      match fuel with
      | O => OutOfFuel
      | S fuel' =>
          let '(c, p) := NextChar c0 rest in
          if CharacterInUnicodeRange st aEntry c then Returned true
          else HasAnyCharacterInUnicodeRange_loop fuel' st aEntry p
      end
  end.

Definition HasAnyCharacterInUnicodeRange (st : FontFaceSetImpl) (aEntry : nat)
    (aInput : list Z) : outcome bool :=
  HasAnyCharacterInUnicodeRange_loop (length aInput) st aEntry aInput.

(** Modelled from the spec: [FontFaceImpl::Entry::FindFontFaceOwners] is
    defined in FontFaceImpl.cpp.  "Matching entries' owning descriptors are
    collected into a set": the owner of every face that uses the entry. *)
Definition FindFontFaceOwners (st : FontFaceSetImpl) (aEntry : nat)
    (aOwners : gset nat) : gset nat :=
  foldl (fun owners f =>
           match GetOwner (face st f) with
           | Some owner => {[owner]} ∪ owners
           | None => owners
           end)
        aOwners (mFontFaces (entry st aEntry)).

(** [for (gfxFontEntry* e : entries)]. *)
Fixpoint match_entries (st : FontFaceSetImpl) (aText : list Z) (es : list nat)
    (matchingFaces : gset nat) : outcome (gset nat) :=
  match es with
  | [] => Returned matchingFaces
  | e :: es' =>
      has ← HasAnyCharacterInUnicodeRange st e aText;
      match_entries st aText es'
        (if has : bool then FindFontFaceOwners st e matchingFaces else matchingFaces)
  end.

(** [for (const StyleSingleFontFamily& fontFamilyName : familyList...)]. *)
Fixpoint match_families (st : FontFaceSetImpl) (aText : list Z)
    (aStyle : gfxFontStyle) (familyList : list StyleSingleFontFamily)
    (matchingFaces : gset nat) : outcome (gset nat) :=
  match familyList with
  | [] => Returned matchingFaces
  | Generic _ :: rest => match_families st aText aStyle rest matchingFaces
  | FamilyName name :: rest =>
      match LookupFamily st name with
      | None => match_families st aText aStyle rest matchingFaces
      | Some family =>
          let es := FindAllFontsForStyle st family aStyle in
          matchingFaces ← match_entries st aText es matchingFaces;
          match_families st aText aStyle rest matchingFaces
      end
  end.

(** [FindMatchingFontFaces(aMatchingFaces, aFontFaces)]: the second pass,
    over the records in the order of the set. *)
Fixpoint FindMatchingFontFaces_records (st : FontFaceSetImpl)
    (records : list FontFaceRecord) (aMatchingFaces : gset nat)
    (aFontFaces : list nat) : list nat :=
  match records with
  | [] => aFontFaces
  | rec :: rest =>
      let aFontFaces :=
        match GetOwner (face st (mFontFace rec)) with
        | Some owner =>
            if decide (owner ∈ aMatchingFaces) then aFontFaces ++ [owner]
            else aFontFaces
        | None => aFontFaces
        end in
      FindMatchingFontFaces_records st rest aMatchingFaces aFontFaces
  end.

(** [FindMatchingFontFaces(aFont, aText, aFontFaces, aRv)]: returns [aRv]
    and the array [aFontFaces]. *)
Definition FindMatchingFontFaces (st : FontFaceSetImpl) (aFont : string)
    (aText : list Z) (aFontFaces : list nat) : outcome (ErrorResult * list nat) :=
  match ParseFontShorthandForMatching st aFont with
  | inl aRv => Returned (aRv, aFontFaces)
  | inr (familyList, weight, stretch, italicStyle) =>
      let style := {| style := italicStyle; weight := weight; stretch := stretch |} in
      matchingFaces ← match_families st aText style familyList ∅;
      if decide (matchingFaces = ∅) then Returned (NoError, aFontFaces)
      else
        Returned (NoError,
                  FindMatchingFontFaces_records st (mNonRuleFaces st)
                    matchingFaces aFontFaces)
  end.

(** ** Vocabulary of the matching properties *)

(** The codepoints of a UTF-16 text, one for every [NextChar]. *)
Fixpoint codepoints (p : list Z) : list Z :=
  match p with
  | [] => []
  | c :: rest =>
      if negb (IS_SURROGATE c) then c :: codepoints rest
      else
        match rest with
        | c2 :: rest' =>
            if NS_IS_HIGH_SURROGATE c && NS_IS_LOW_SURROGATE c2
            then SURROGATE_TO_UCS4 c c2 :: codepoints rest'
            else 0xFFFD :: codepoints rest
        | [] => [0xFFFD]
        end
  end.

(** The unicode-range of the entry contains some codepoint of the text. *)
Definition entry_covers (st : FontFaceSetImpl) (aEntry : nat) (aText : list Z)
    : bool :=
  existsb (CharacterInUnicodeRange st aEntry) (codepoints aText).

(** The entry is one of those that the matching selects: it belongs to a
    family named in the list, the family's style matching returns it for the
    requested style, and it covers the text. *)
Definition matching_entry (st : FontFaceSetImpl) (aStyle : gfxFontStyle)
    (familyList : list StyleSingleFontFamily) (aText : list Z) (e : nat) : Prop :=
  exists name family,
    FamilyName name ∈ familyList
    /\ LookupFamily st name = Some family
    /\ e ∈ FindAllFontsForStyle st family aStyle
    /\ entry_covers st e aText = true.

(** The owner of a face that uses a selected entry. *)
Definition matching_owner (st : FontFaceSetImpl) (aStyle : gfxFontStyle)
    (familyList : list StyleSingleFontFamily) (aText : list Z) (owner : nat)
    : Prop :=
  exists e f,
    matching_entry st aStyle familyList aText e
    /\ f ∈ mFontFaces (entry st e)
    /\ GetOwner (face st f) = Some owner.

(** The owners of the recorded faces, in the order of the records. *)
Definition record_owners (st : FontFaceSetImpl) : list nat :=
  omap (fun rec => GetOwner (face st (mFontFace rec))) (mNonRuleFaces st).

(** An entry lists exactly the faces that use it. *)
Definition entries_list_their_faces (st : FontFaceSetImpl) : Prop :=
  forall e f, f ∈ mFontFaces (entry st e) <-> GetUserFontEntry (face st f) = Some e.

(** No two faces share an owner. *)
Definition owners_are_distinct (st : FontFaceSetImpl) : Prop :=
  forall f1 f2 owner,
    GetOwner (face st f1) = Some owner -> GetOwner (face st f2) = Some owner ->
    f1 = f2.

(** ** Vocabulary of the registry properties *)

(** The entry occurs in the list of the family called [name]. *)
Definition in_family (st : FontFaceSetImpl) (name : string) (e : nat) : Prop :=
  exists family, mFontFamilies st !! name = Some family /\ e ∈ family.

(** Every entry of a family is a live entry whose stored family name is the
    name of that family. *)
Definition registry_ok (st : FontFaceSetImpl) : Prop :=
  forall name e, in_family st name e ->
    exists data, entries st !! e = Some data /\ mFamilyName data = name.

Definition at_most_one_family (st : FontFaceSetImpl) : Prop :=
  forall e name1 name2, in_family st name1 e -> in_family st name2 e ->
    name1 = name2.

(** The state after the branch for a face that has an entry already. *)
Definition update_existing (st : FontFaceSetImpl) (aFamilyName : string) (e : nat)
    (attrs : gfxUserFontAttributes) : FontFaceSetImpl :=
  let st := UpdateAttributes e attrs st in
  let name := mFamilyName (entry st e) in
  if negb (String.eqb name "") && negb (String.eqb name aFamilyName) then
    let st :=
      match LookupFamily st name with
      | Some _ => RemoveFontEntry name e st
      | None => st
      end in
    update_entry e (set_mFamilyName "") st
  else st.

(** Resolving the same face [n] times in a row. *)
Fixpoint resolve_repeatedly (n : nat) (st : FontFaceSetImpl) (aFamilyName : string)
    (aFontFace : nat) (aOrigin : StyleOrigin) : outcome FontFaceSetImpl :=
  match n with
  | O => Returned st
  | S n' =>
      r ← FindOrCreateUserFontEntryFromFontFace st aFamilyName aFontFace aOrigin;
      resolve_repeatedly n' r.2 aFamilyName aFontFace aOrigin
  end.

(** ** Vocabulary of the face-set properties *)

(** Two states agree on who is in the set: same record list, and every face
    has the same membership flag and the same origin (rule or not). *)
Definition same_membership (st st' : FontFaceSetImpl) : Prop :=
  mNonRuleFaces st = mNonRuleFaces st'
  /\ forall f, IsInFontFaceSet st f = IsInFontFaceSet st' f
               /\ HasRule (face st f) = HasRule (face st' f).

Definition keeps_membership (g : FontFaceSetImpl -> FontFaceSetImpl) : Prop :=
  forall st, same_membership (g st) st.



(** The [DEBUG] assertion of [Add]: the face has no record yet. *)
Definition has_no_record (st : FontFaceSetImpl) (aFontFace : nat) : Prop :=
  aFontFace ∉ mFontFace <$> mNonRuleFaces st.

(** Some face of the set is loading. *)
Definition any_face_loading (st : FontFaceSetImpl) : Prop :=
  exists rec, rec ∈ mNonRuleFaces st
              /\ Status (face st (mFontFace rec)) = FontFaceLoadStatus.Loading.

(** The cached "has loading faces" flag is right unless it is marked dirty. *)
Definition cache_ok (st : FontFaceSetImpl) : Prop :=
  mHasLoadingFontFacesIsDirty st = false ->
  mHasLoadingFontFaces st = scan_loading st (mNonRuleFaces st).

(** A virtual method that leaves the fields of the coordinator alone. *)
Definition keeps_coordinator (g : FontFaceSetImpl -> FontFaceSetImpl) : Prop :=
  forall st, mStatus (g st) = mStatus st
             /\ mDelayedLoadCheck (g st) = mDelayedLoadCheck st
             /\ (cache_ok st -> cache_ok (g st)).

(** The state the constructor builds, for a given heap and thread. *)
Definition FontFaceSetImpl_new (heap : gmap nat FontFaceImpl)
    (aOwner : option FontFaceSet) (on_owning_thread : bool) : FontFaceSetImpl :=
  MkFontFaceSetImpl heap ∅ ∅ aOwner FontFaceSetLoadStatus.Loaded []
    false false false false on_owning_thread false [] [].

(** What can happen to the set: its entry points, the change of status of a
    face (which the face reports through [OnFontFaceStatusChanged]), and the
    tasks it handed over. *)
Inductive Operation : Type :=
| OpAdd (aFontFace : nat)
| OpDelete (aFontFace : nat)
| OpClear
| OpFaceStatusChanged (aFontFace : nat) (status : FontFaceLoadStatus.t)
| OpCheckLoadingStarted
| OpCheckLoadingFinished
| OpRunTask (task : Task).

Definition run_operation (op : Operation) (st : FontFaceSetImpl) : FontFaceSetImpl :=
  match op with
  | OpAdd aFontFace => (Add st aFontFace).2
  | OpDelete aFontFace => (Delete st aFontFace).2
  | OpClear => Clear st
  | OpFaceStatusChanged aFontFace status =>
      OnFontFaceStatusChanged (update_face aFontFace (set_Status status) st)
                              aFontFace
  | OpCheckLoadingStarted => CheckLoadingStarted st
  | OpCheckLoadingFinished => CheckLoadingFinished st
  | OpRunTask task => run_task task st
  end.

(** The changes of the aggregate status that the coordinator allows. *)
Definition status_step (st st' : FontFaceSetImpl) : Prop :=
  mStatus st' = mStatus st
  \/ (mStatus st = FontFaceSetLoadStatus.Loaded
      /\ mStatus st' = FontFaceSetLoadStatus.Loading
      /\ any_face_loading st')
  \/ (mStatus st = FontFaceSetLoadStatus.Loading
      /\ mStatus st' = FontFaceSetLoadStatus.Loaded
      /\ mDelayedLoadCheck st' = false
      /\ ~ any_face_loading st').

End Objects.

(** ** Synchronous loading of font data *)

(** Modelled from the spec: [nsresult], its codes and [NS_FAILED] are
    declared in the error headers of xpcom.  The codes stand for "a fetched
    payload is empty or oversized, memory allocation for a buffer fails";
    an [nsresult] is a 32-bit code whose top bit marks a failure. *)
Definition nsresult := Z.
Definition NS_OK : nsresult := 0.
Definition NS_ERROR_FAILURE : nsresult := 0x80004005.
Definition NS_ERROR_OUT_OF_MEMORY : nsresult := 0x8007000E.
Definition NS_ERROR_FILE_TOO_BIG : nsresult := 0x80520014.
Definition NS_FAILED (rv : nsresult) : bool := Z.testbit rv 31.
Definition NS_SUCCEEDED (rv : nsresult) : bool := negb (NS_FAILED rv).

Definition UINT32_MAX : Z := 0xFFFFFFFF.
Definition uint32 (z : Z) : Z := z mod 2 ^ 32.

(** What the channel, the stream and the allocator answer during one call.
    [reads] lists the answers of the successive [Read] calls (status and
    [numRead]); a stream whose list is used up reports its end. *)
Record SyncLoadEnvironment : Type := {
  CreateChannelForSyncLoadFontData : nsresult;
  channel_Open : nsresult;
  stream_Available : nsresult * Z;
  malloc : option nat;
  stream_Read : list (nsresult * Z);
  channel_GetContentType : nsresult;
}.

Inductive HeapEvent : Type :=
| Malloc (size : Z)
| Free (ptr : nat).

(** The [while] loop: returns the last [rv] and [totalRead]. *)
Fixpoint read_loop (reads : list (nsresult * Z)) (aBufferLength totalRead : Z)
    : nsresult * Z :=
  match reads with
  | [] => (NS_OK, totalRead)                         (* numRead == 0 *)
  | (rv, numRead) :: reads' =>
      if NS_SUCCEEDED rv && negb (numRead =? 0) then
        let totalRead := uint32 (totalRead + numRead) in
        if totalRead >? aBufferLength then (NS_ERROR_FAILURE, totalRead)
        else read_loop reads' aBufferLength totalRead
      else (rv, totalRead)
  end.

(** The values of [aBuffer] and [aBufferLength] when the call returns, with
    the status and what happened to the heap. *)
Record SyncLoadResult : Type := {
  sl_rv : nsresult;
  sl_aBuffer : option nat;
  sl_aBufferLength : Z;
  sl_heap : list HeapEvent;
}.

(** [aBuffer] and [aBufferLength] are references: the call starts from the
    values the caller's variables hold. *)
Definition SyncLoadFontData (env : SyncLoadEnvironment)
    (aBuffer : option nat) (aBufferLength : Z) : SyncLoadResult :=
  let rv := CreateChannelForSyncLoadFontData env in
  if NS_FAILED rv then Build_SyncLoadResult rv aBuffer aBufferLength [] else
  let rv := channel_Open env in
  if NS_FAILED rv then Build_SyncLoadResult rv aBuffer aBufferLength [] else
  let '(rv, bufferLength64) := stream_Available env in
  if NS_FAILED rv then Build_SyncLoadResult rv aBuffer aBufferLength [] else
  if bufferLength64 =? 0 then
    Build_SyncLoadResult NS_ERROR_FAILURE aBuffer aBufferLength []
  else if bufferLength64 >? UINT32_MAX then
    Build_SyncLoadResult NS_ERROR_FILE_TOO_BIG aBuffer aBufferLength []
  else
    let aBufferLength := uint32 bufferLength64 in
    let aBuffer := malloc env in
    match aBuffer with
    | None =>
        Build_SyncLoadResult NS_ERROR_OUT_OF_MEMORY aBuffer 0 [Malloc aBufferLength]
    | Some ptr =>
        let '(rv, totalRead) := read_loop (stream_Read env) aBufferLength 0 in
        let '(rv, aBufferLength') :=
          if NS_SUCCEEDED rv then (channel_GetContentType env, totalRead)
          else (rv, aBufferLength) in
        if NS_FAILED rv then
          Build_SyncLoadResult rv None 0 [Malloc aBufferLength; Free ptr]
        else
          Build_SyncLoadResult NS_OK aBuffer aBufferLength' [Malloc aBufferLength]
    end.

(** ** An instance of the interfaces, to run the model

    Font property values are whole numbers; the owner is the state of its
    ready promise (pending from the loading event until it is resolved); a
    flush folds the pending change of the record list into the registry's
    bookkeeping by clearing the dirty flag. *)

Definition example_font_properties : FontPropertyTypes := {|
  float := Z;
  float_minus_one := -1;
  float_one := 1;
  FontWeight := Z;
  FontWeight_NORMAL := 400;
  FontWeight_FromFloat := fun f => f;
  FontStretch := Z;
  FontStretch_NORMAL := 100;
  FontSlantStyle := Z;
  FontSlantStyle_NORMAL := 0;
  FontSlantStyle_ITALIC := 1;
  FontSlantStyle_FromFloat := fun f => f + 2;
|}.

Definition example_owner : FontFaceSetOwner := {|
  FontFaceSet := bool;
  FontFaceSet_ReadyPromiseIsPending := fun pending => pending;
  DispatchLoadingEventAndReplaceReadyPromise := fun _ => true;
  MaybeResolve := fun _ => false;
|}.

Definition example_virtuals
    : @FontFaceSetImplVirtuals example_font_properties example_owner := {|
  FlushUserFontSet := set_mNonRuleFacesDirty false;
  MarkUserFontSetDirty := fun st => st;
  GetURLExtraData := fun _ => Some "about:blank"%string;
|}.

Definition example_prefs : StaticPrefs := {|
  layout_css_font_variations_enabled := true;
|}.

(** A face without descriptors. *)
Definition example_face (rule member : bool) (status : FontFaceLoadStatus.t)
    (owner : option nat) (family : option string) (entry : option nat)
    : @FontFaceImpl example_font_properties :=
  MkFontFaceImpl rule member status owner family entry
    None None None None None None None None [] [] None None None [].

(** A set that is on its owning thread, with the given faces, entries,
    families and records. *)
Definition example_registry
    (faces : list (nat * @FontFaceImpl example_font_properties))
    (entries : list (nat * @gfxUserFontEntry example_font_properties))
    (families : list (string * list nat))
    (records : list nat) (status : FontFaceSetLoadStatus.t)
    : @FontFaceSetImpl example_font_properties example_owner :=
  MkFontFaceSetImpl (list_to_map faces) (list_to_map entries)
    (list_to_map families)
    (Some (true : @FontFaceSet example_owner)) status
    ((fun f => {| mFontFace := f; mOrigin := None |}) <$> records)
    false false true false true false [] [].

Definition example_set (faces : list (nat * @FontFaceImpl example_font_properties))
    (records : list nat) (status : FontFaceSetLoadStatus.t)
    : @FontFaceSetImpl example_font_properties example_owner :=
  example_registry faces [] [] records status.

(** An entry with default attributes and no sources. *)
Definition example_entry (family : string) (users : list nat)
    : @gfxUserFontEntry example_font_properties :=
  MkEntry inhabitant [] family users.

(** An entry of weight 400 whose unicode-range is the given list of
    intervals. *)
Definition example_entry_with_range (family : string) (users : list nat)
    (ranges : gfxCharacterMap) : @gfxUserFontEntry example_font_properties :=
  MkEntry
    {| aWeight := Range1 (400 : @FontWeight example_font_properties);
       aStretch := Range1 (100 : @FontStretch example_font_properties);
       aStyle := Range1 (0 : @FontSlantStyle example_font_properties);
       aFeatureSettings := [];
       aVariationSettings := [];
       aLanguageOverride := NO_FONT_LANGUAGE_OVERRIDE;
       aUnicodeRanges := Some ranges;
       aFontDisplay := Auto;
       aRangeFlags := eNoFlags;
       aAscentOverride := -1;
       aDescentOverride := -1;
       aLineGapOverride := -1;
       aSizeAdjust := 1 |}
    [] family users.

Definition in_range (r : FontPropertyRange Z) (v : Z) : bool :=
  (Min r <=? v) && (v <=? Max r).

(** Modelled from the spec: [ServoCSSParser::ParseFontShorthandForMatching]
    and [gfxFontFamily::FindAllFontsForStyle] are defined outside the
    analysed file.  The parser of this instance knows the shorthand of the
    spec's example, "400 10px A"; the style matching returns "each entry
    whose style matches the requested weight/stretch/slant". *)
Definition example_matching
    : @FontMatchingServices example_font_properties example_owner := {|
  ServoCSSParser_ParseFontShorthandForMatching := fun aFont _ =>
    if String.eqb aFont "400 10px A"
    then Some ([FamilyName "A"],
               (0 : @FontSlantStyle example_font_properties),
               (100 : @FontStretch example_font_properties),
               (400 : @FontWeight example_font_properties))
    else None;
  FindAllFontsForStyle := fun st family requested =>
    filter (fun e =>
              let attrs := attributes (entry st e) in
              in_range (aWeight attrs : FontPropertyRange Z) (weight requested)
              && in_range (aStretch attrs : FontPropertyRange Z) (stretch requested)
              && in_range (aStyle attrs : FontPropertyRange Z) (style requested)
              = true)
           family;
|}.

(** Family "A" holds one entry, of weight 400 and unicode-range U+0041-005A,
    used by the one face of the set. *)
Definition example_family_A
    : @FontFaceSetImpl example_font_properties example_owner :=
  example_registry
    [(1%nat, example_face false true FontFaceLoadStatus.Loaded (Some 100%nat)
               (Some "A"%string) (Some 10%nat))]
    [(10%nat, example_entry_with_range "A" [1%nat] [(0x41, 0x5A)])]
    [("A"%string, [10%nat])] [1%nat] FontFaceSetLoadStatus.Loaded.

(** "Hello" and "hello" in UTF-16. *)
Definition text_Hello : list Z := [72; 101; 108; 108; 111].
Definition text_hello : list Z := [104; 101; 108; 108; 111].

(** ** Vocabulary of the properties *)

(** A well-formed source list is a sequence of groups: a local name, or a
    URL with its optional format hint and optional technology flags. *)
Inductive FormatHint : Type :=
| HintKeyword (k : StyleFontFaceSourceFormatKeyword.t)
| HintString (s : string).

Inductive SourceGroup : Type :=
| LocalGroup (atom : string)
| UrlGroup (url : StyleCssUrl) (hint : option FormatHint)
           (tech : option StyleFontFaceSourceTechFlags).

Definition components_of_hint (hint : FormatHint) : StyleFontFaceSourceListComponent :=
  match hint with
  | HintKeyword k => FormatHintKeyword k
  | HintString s => FormatHintString s
  end.

Definition components_of_group (g : SourceGroup)
    : list StyleFontFaceSourceListComponent :=
  match g with
  | LocalGroup atom => [Local atom]
  | UrlGroup url hint tech =>
      Url url :: option_list (components_of_hint <$> hint)
              ++ option_list (TechFlags <$> tech)
  end.

Definition components_of_groups (gs : list SourceGroup)
    : list StyleFontFaceSourceListComponent :=
  concat (components_of_group <$> gs).

Definition format_of_hint (variations_enabled : bool) (hint : option FormatHint)
    : StyleFontFaceSourceFormatKeyword.t :=
  match hint with
  | None => StyleFontFaceSourceFormatKeyword.None
  | Some (HintKeyword k) => k
  | Some (HintString s) => format_hint_of_string variations_enabled s
  end.

(** The source that one group stands for; none when its URL has no URI. *)
Definition source_of_group (variations_enabled : bool) (aOrigin : StyleOrigin)
    (g : SourceGroup) : option gfxFontFaceSrc :=
  match g with
  | LocalGroup atom => Some (local_face atom)
  | UrlGroup url hint tech =>
      match GetURI url with
      | None => None
      | Some _ =>
          Some (set_tech_flags (default StyleFontFaceSourceTechFlags_Empty tech)
                  (set_format_hint (format_of_hint variations_enabled hint)
                     (url_face aOrigin url)))
      end
  end.

(** The format-hint strings that the chain recognises. *)
Definition recognised_format_strings (variations_enabled : bool) : list string :=
  ["woff"; "woff2"; "opentype"; "truetype"; "truetype-aat"; "embedded-opentype";
   "svg"]%string
  ++ (if variations_enabled
      then ["woff-variations"; "woff2-variations"; "opentype-variations";
            "truetype-variations"]%string
      else []).

(** Where a group can start: at the end of the list, or at a [Url] or
    [Local] component. *)
Definition starts_group (l : list StyleFontFaceSourceListComponent) : bool :=
  match l with
  | [] | Url _ :: _ | Local _ :: _ => true
  | _ => false
  end.

(** A data URI whose stream reports no available bytes. *)
Definition empty_payload : SyncLoadEnvironment := {|
  CreateChannelForSyncLoadFontData := NS_OK;
  channel_Open := NS_OK;
  stream_Available := (NS_OK, 0);
  malloc := Some 1%nat;
  stream_Read := [];
  channel_GetContentType := NS_OK;
|}.

(** ** More vocabulary: what the virtual methods may touch, and invariants *)

#[global] Instance Task_eq_dec : EqDecision Task.
Proof. solve_decision. Defined.

(** The name or the location that a component of a source list contributes
    as a source of its own: a local name, or the URI of a URL that has one. *)
Definition source_key (c : StyleFontFaceSourceListComponent)
    : option (SourceType * string) :=
  match c with
  | Local atom => Some (eSourceType_Local, atom)
  | Url url => (fun uri => (eSourceType_URL, uri)) <$> GetURI url
  | FormatHintKeyword _ | FormatHintString _ | TechFlags _ => None
  end.

(** The same of a built source. *)
Definition key_of_source (face : gfxFontFaceSrc) : SourceType * string :=
  (mSourceType face,
   match mSourceType face with
   | eSourceType_Local => mLocalName face
   | _ => default ""%string (mURI face)
   end).



Section MoreVocabulary.
Context {FP : FontPropertyTypes} {OW : FontFaceSetOwner}
        {VT : FontFaceSetImplVirtuals}.

(** A virtual method that touches none of the fields this file works with:
    the faces, the record list, the aggregate status, the cached loading
    flag and the delay flag. *)
Definition keeps_set_fields (g : FontFaceSetImpl -> FontFaceSetImpl) : Prop :=
  forall st,
    faces (g st) = faces st
    /\ mNonRuleFaces (g st) = mNonRuleFaces st
    /\ mStatus (g st) = mStatus st
    /\ mDelayedLoadCheck (g st) = mDelayedLoadCheck st
    /\ mHasLoadingFontFaces (g st) = mHasLoadingFontFaces st
    /\ mHasLoadingFontFacesIsDirty (g st) = mHasLoadingFontFacesIsDirty st.

(** No face is recorded twice, and every recorded face is a member of the
    set that does not come from a rule. *)
Definition records_are_members (st : FontFaceSetImpl) : Prop :=
  NoDup (mFontFace <$> mNonRuleFaces st)
  /\ forall f, f ∈ mFontFace <$> mNonRuleFaces st ->
       IsInFontFaceSet st f = true /\ HasRule (face st f) = false.

(** The set reports Loaded only while none of its faces is loading. *)
Definition loaded_means_idle (st : FontFaceSetImpl) : Prop :=
  cache_ok st
  /\ (mStatus st = FontFaceSetLoadStatus.Loaded -> ~ any_face_loading st).

(** How often a task occurs among the tasks handed over. *)
Definition pending_tasks (task : Task) (st : FontFaceSetImpl) : nat :=
  length (filter (fun t => t = task)
            (owning_thread_tasks st ++ post_traversal_tasks st)).

End MoreVocabulary.

(** ** Insertion of a face into the user-font set *)

Section Insertion.
Context {FP : FontPropertyTypes} {OW : FontFaceSetOwner} {SP : StaticPrefs}.

(** [FontFaceImpl::SetUserFontEntry] and [gfxUserFontSet::AddUserFontEntry]
    are defined outside the analysed file, so they are an interface: the
    face and the entry it is given, and the family name and the entry that
    is added to it (a pointer that may be null). *)
Class UserFontSetInsertion : Type := {
  SetUserFontEntry : nat -> nat -> FontFaceSetImpl -> FontFaceSetImpl;
  AddUserFontEntry : string -> option nat -> FontFaceSetImpl -> FontFaceSetImpl;
}.

Context {UI : UserFontSetInsertion}.

(** [InsertNonRuleFontFace(aFontFace, aFontSetModified)]: returns the value
    of the reference [aFontSetModified] and the state. *)
Definition InsertNonRuleFontFace (st : FontFaceSetImpl) (aFontFace : nat)
    (aFontSetModified : bool) : outcome (bool * FontFaceSetImpl) :=
  match GetFamilyName (face st aFontFace) with
  | None => Returned (aFontSetModified, st)
  | Some family =>
      let add st :=
        Returned (true,
                  AddUserFontEntry family (GetUserFontEntry (face st aFontFace))
                    st) in
      match GetUserFontEntry (face st aFontFace) with
      | Some _ => add st
      | None =>
          '(entry, st) ←
            FindOrCreateUserFontEntryFromFontFace st family aFontFace Author;
          match entry with
          | None => Returned (aFontSetModified, st)
          | Some e => add (SetUserFontEntry aFontFace e st)
          end
      end
  end.

End Insertion.

(** An instance of the interface: the face gets the entry, and the entry
    joins the family unless it is in it already. *)
Definition example_insertion
    : @UserFontSetInsertion example_font_properties example_owner := {|
  SetUserFontEntry := fun aFontFace e st =>
    update_face aFontFace (set_GetUserFontEntry (Some e)) st;
  AddUserFontEntry := fun family aEntry st =>
    match aEntry with
    | Some e =>
        let members := default [] (mFontFamilies st !! family) in
        if decide (e ∈ members) then st
        else set_mFontFamilies (<[family := members ++ [e]]> (mFontFamilies st)) st
    | None => st
    end;
|}.

(** ** Destruction *)

Section Destruction.
Context {FP : FontPropertyTypes} {OW : FontFaceSetOwner}.

(** What [Destroy] calls outside the analysed file: [Cancel] on every
    loader of [mLoaders], followed by [mLoaders.Clear()], and
    [gfxUserFontSet::Destroy] of the base class. *)
Class FontFaceSetImplBase : Type := {
  CancelAndClearLoaders : FontFaceSetImpl -> FontFaceSetImpl;
  gfxUserFontSet_Destroy : FontFaceSetImpl -> FontFaceSetImpl;
}.

Context {BS : FontFaceSetImplBase}.

Definition Destroy (st : FontFaceSetImpl) : FontFaceSetImpl :=
  let st := CancelAndClearLoaders st in
  let st := set_mNonRuleFaces [] st in
  let st := gfxUserFontSet_Destroy st in
  set_mOwner None st.

(** A method that leaves the owner of the set alone. *)
Definition keeps_owner (g : FontFaceSetImpl -> FontFaceSetImpl) : Prop :=
  forall st, mOwner (g st) = mOwner st.

End Destruction.

(** A base class without loaders, whose [Destroy] forgets the families. *)
Definition example_base
    : @FontFaceSetImplBase example_font_properties example_owner := {|
  CancelAndClearLoaders := fun st => st;
  gfxUserFontSet_Destroy := set_mFontFamilies ∅;
|}.

(** ** Virtual methods whose flush resolves a face

    The flush folds the pending change of the record list into the
    bookkeeping, as that of [example_virtuals] does, and gives face 1 the
    entry 10: it changes the faces of the set. *)
Definition example_resolving_virtuals
    : @FontFaceSetImplVirtuals example_font_properties example_owner := {|
  FlushUserFontSet := fun st =>
    set_mNonRuleFacesDirty false
      (update_face 1%nat (set_GetUserFontEntry (Some 10%nat)) st);
  MarkUserFontSetDirty := fun st => st;
  GetURLExtraData := fun _ => Some "about:blank"%string;
|}.

(** ** Messages to the console *)

(** The codes of the error list that [LogMessage] names; they are declared
    outside the analysed file. *)
Class ErrorList : Type := {
  NS_ERROR_DOM_BAD_URI : nsresult;
  NS_ERROR_CONTENT_BLOCKED : nsresult;
  NS_ERROR_NOT_AVAILABLE : nsresult;
}.




Section Logging.
Context {EL : ErrorList}.




End Logging.

(** ** A second parser, for shorthands that name several families

    It knows two shorthands that name the families "A" and "B" in different
    orders, one of them with a generic name and a repetition. *)
Definition example_matching_lists
    : @FontMatchingServices example_font_properties example_owner := {|
  ServoCSSParser_ParseFontShorthandForMatching := fun aFont _ =>
    let parsed (families : list StyleSingleFontFamily) :=
      Some (families,
            (0 : @FontSlantStyle example_font_properties),
            (100 : @FontStretch example_font_properties),
            (400 : @FontWeight example_font_properties)) in
    if String.eqb aFont "400 10px A, serif, B"
    then parsed [FamilyName "A"; Generic "serif"; FamilyName "B"]
    else if String.eqb aFont "400 10px B, A, A"
    then parsed [FamilyName "B"; FamilyName "A"; FamilyName "A"]
    else None;
  FindAllFontsForStyle :=
    FindAllFontsForStyle (FontMatchingServices := example_matching);
|}.

(* ===================================================================== *)
(** * Part II: properties                                                 *)
(* ===================================================================== *)

(** ** Descriptor resolver *)

Section ResolverProperties.
Context {FP : FontPropertyTypes} {OW : FontFaceSetOwner}.

Lemma has_flag_lor (flags bit : RangeFlags) : has_flag (Z.lor flags bit) bit = true.
Proof.
  unfold has_flag. apply Z.eqb_eq, Z.bits_inj'. intros n _.
  rewrite Z.land_spec, Z.lor_spec. destruct (Z.testbit bit n); [|apply andb_false_r].
  now rewrite orb_true_r.
Qed.

Lemma style_switch_returns (val : StyleComputedFontStyleDescriptor) :
  is_Some (style_switch val).
Proof. destruct val; simpl; eauto. Qed.

Lemma resolve_attributes_returns (f : FontFaceImpl) :
  exists attrs, resolve_attributes f = Returned attrs.
Proof.
  unfold resolve_attributes.
  destruct (GetWeightRangeForDescriptor _ _) as [w fl1].
  destruct (GetStretchRangeForDescriptor _ _) as [s fl2].
  destruct (GetFontStyle f) as [[| |a b]|]; simpl; eauto.
Qed.

(** C9.  A descriptor that is absent makes its resolver set the flag of its
    axis ([eAutoWeight], [eAutoStretch], [eAutoSlantStyle]) and return the
    point range at NORMAL; a descriptor that is present leaves the flags as
    they were.  The flags that [FindOrCreateUserFontEntryFromFontFace]
    computes therefore tell, axis by axis, whether the descriptor was auto.
    The slant resolver returns from its switch for each of the three kinds
    Normal, Italic and Oblique, so the assertion after the switch is never
    reached, and neither the resolvers nor the attribute set-up fail. *)
Theorem auto_descriptors_are_flagged :
  (forall flags,
     GetWeightRangeForDescriptor None flags
       = (Range1 FontWeight_NORMAL, Z.lor flags eAutoWeight)
     /\ GetStretchRangeForDescriptor None flags
       = (Range1 FontStretch_NORMAL, Z.lor flags eAutoStretch)
     /\ GetStyleRangeForDescriptor None flags
       = Returned (Range1 FontSlantStyle_NORMAL, Z.lor flags eAutoSlantStyle)
     /\ has_flag (Z.lor flags eAutoWeight) eAutoWeight = true
     /\ has_flag (Z.lor flags eAutoStretch) eAutoStretch = true
     /\ has_flag (Z.lor flags eAutoSlantStyle) eAutoSlantStyle = true)
  /\ (forall flags v, (GetWeightRangeForDescriptor (Some v) flags).2 = flags)
  /\ (forall flags v, (GetStretchRangeForDescriptor (Some v) flags).2 = flags)
  /\ (forall flags,
        GetStyleRangeForDescriptor (Some Normal) flags
          = Returned (Range1 FontSlantStyle_NORMAL, flags)
        /\ GetStyleRangeForDescriptor (Some Italic) flags
          = Returned (Range1 FontSlantStyle_ITALIC, flags)
        /\ forall a b,
             GetStyleRangeForDescriptor (Some (Oblique a b)) flags
               = Returned (Range2 (FontSlantStyle_FromFloat a)
                                  (FontSlantStyle_FromFloat b), flags))
  /\ (forall val, is_Some (style_switch val))
  /\ (forall aVal flags, exists r, GetStyleRangeForDescriptor aVal flags = Returned r)
  /\ (forall f : FontFaceImpl,
        exists attrs,
          resolve_attributes f = Returned attrs
          /\ has_flag (aRangeFlags attrs) eAutoWeight = is_auto (GetFontWeight f)
          /\ has_flag (aRangeFlags attrs) eAutoStretch = is_auto (GetFontStretch f)
          /\ has_flag (aRangeFlags attrs) eAutoSlantStyle = is_auto (GetFontStyle f)
          /\ aWeight attrs
             = match GetFontWeight f with
               | None => Range1 FontWeight_NORMAL
               | Some v => Range2 (FontWeight_FromFloat v.1) (FontWeight_FromFloat v.2)
               end
          /\ aStretch attrs
             = match GetFontStretch f with
               | None => Range1 FontStretch_NORMAL
               | Some v => Range2 v.1 v.2
               end
          /\ style_switch <$> GetFontStyle f
             = (fun _ => Some (aStyle attrs)) <$> GetFontStyle f
          /\ (is_auto (GetFontStyle f) = true
              /\ aStyle attrs = Range1 FontSlantStyle_NORMAL
              \/ is_auto (GetFontStyle f) = false)).
Proof.
  split; [|split; [|split; [|split; [|split; [|split]]]]].
  - intros flags. repeat split; try reflexivity; apply has_flag_lor.
  - reflexivity.
  - reflexivity.
  - intros flags. repeat split; reflexivity.
  - apply style_switch_returns.
  - intros [[| |a b]|] flags; simpl; eauto.
  - intros f. unfold resolve_attributes.
    destruct (GetFontWeight f) as [w|], (GetFontStretch f) as [s|],
      (GetFontStyle f) as [[| |a b]|]; simpl;
      (eexists; split; [reflexivity|]); simpl;
      repeat split; try reflexivity; auto.
Qed.

End ResolverProperties.

(** ** Source list builder *)

Section SourceListProperties.
Variable variations_enabled : bool.
Variable aOrigin : StyleOrigin.

Lemma lookup_after_prefix {A} (pre : list A) (x : A) (l : list A) :
  (pre ++ x :: l) !! length pre = Some x.
Proof. apply list_lookup_middle. reflexivity. Qed.

Lemma lookup_next_after_prefix {A} (pre : list A) (x : A) (l : list A) :
  (pre ++ x :: l) !! (length pre + 1)%nat = l !! 0%nat.
Proof.
  rewrite (cons_middle x pre l), app_assoc.
  rewrite lookup_app_r; rewrite length_app; simpl; [|lia].
  f_equal. lia.
Qed.

Lemma components_of_groups_start (gs : list SourceGroup) :
  starts_group (components_of_groups gs) = true.
Proof. destruct gs as [|[a|u h t] gs]; reflexivity. Qed.

(** The format-hint block on a URL followed by its optional hint. *)
Lemma check_format_hint_group (pre : list StyleFontFaceSourceListComponent)
    (url : StyleCssUrl) (hint : option FormatHint)
    (tail : list StyleFontFaceSourceListComponent) :
  (forall k, tail !! 0%nat <> Some (FormatHintKeyword k)) ->
  (forall s, tail !! 0%nat <> Some (FormatHintString s)) ->
  check_format_hint variations_enabled
    (pre ++ Url url :: option_list (components_of_hint <$> hint) ++ tail)
    (length pre) (url_face aOrigin url)
  = (set_format_hint (format_of_hint variations_enabled hint) (url_face aOrigin url),
     (length pre + length (option_list (components_of_hint <$> hint)))%nat).
Proof.
  intros Hk Hs. unfold check_format_hint. rewrite lookup_next_after_prefix.
  destruct hint as [[k|s]|]; simpl; try reflexivity.
  rewrite Nat.add_0_r.
  destruct (tail !! 0%nat) as [[u|a|k|s|t]|] eqn:Hc; try reflexivity.
  - now destruct (Hk k).
  - now destruct (Hs s).
Qed.

(** The technology-flags block, at the last component read so far. *)
Lemma check_tech_flags_group (pre : list StyleFontFaceSourceListComponent)
    (x : StyleFontFaceSourceListComponent)
    (tech : option StyleFontFaceSourceTechFlags)
    (tail : list StyleFontFaceSourceListComponent) (face : gfxFontFaceSrc) :
  starts_group tail = true ->
  check_tech_flags (pre ++ x :: option_list (TechFlags <$> tech) ++ tail)
    (length pre) face
  = (set_tech_flags (default (mTechFlags face) tech) face,
     (length pre + length (option_list (TechFlags <$> tech)))%nat).
Proof.
  intros Htail. unfold check_tech_flags. rewrite lookup_next_after_prefix.
  destruct tech as [t|]; simpl; [reflexivity|].
  rewrite Nat.add_0_r.
  destruct face; simpl.
  destruct tail as [|[u|a|k|s|t] tail]; try discriminate; reflexivity.
Qed.

Lemma tech_not_format_hint (tech : option StyleFontFaceSourceTechFlags)
    (tail : list StyleFontFaceSourceListComponent) :
  starts_group tail = true ->
  (forall k, (option_list (TechFlags <$> tech) ++ tail) !! 0%nat
             <> Some (FormatHintKeyword k))
  /\ (forall s, (option_list (TechFlags <$> tech) ++ tail) !! 0%nat
                <> Some (FormatHintString s)).
Proof.
  intros Htail.
  destruct tech as [t|]; simpl; [split; discriminate|].
  destruct tail as [|[u|a|k|s|t] tail]; try discriminate; split; discriminate.
Qed.

(** One group is one iteration of the loop. *)
Lemma source_loop_group (fuel : nat) (pre : list StyleFontFaceSourceListComponent)
    (g : SourceGroup) (tail : list StyleFontFaceSourceListComponent)
    (srcArray : list gfxFontFaceSrc) :
  starts_group tail = true ->
  source_loop (S fuel) variations_enabled aOrigin
    (pre ++ components_of_group g ++ tail) (length pre) srcArray
  = source_loop fuel variations_enabled aOrigin
      ((pre ++ components_of_group g) ++ tail)
      (length (pre ++ components_of_group g))
      (srcArray ++ option_list (source_of_group variations_enabled aOrigin g)).
Proof.
  intros Htail. destruct g as [atom|url hint tech].
  - simpl. rewrite lookup_after_prefix. rewrite length_app. simpl.
    rewrite <- app_assoc. simpl.
    replace (length pre + 1)%nat with (S (length pre)) by lia. reflexivity.
  - cbn [components_of_group]. rewrite <- !app_comm_cons, <- !app_assoc.
    cbn [source_loop]. rewrite lookup_after_prefix.
    destruct (tech_not_format_hint tech tail Htail) as [Hk Hs].
    rewrite (check_format_hint_group pre url hint _ Hk Hs).
    set (face1 := set_format_hint _ _).
    assert (Hstep :
      check_tech_flags
        (pre ++ Url url :: option_list (components_of_hint <$> hint)
             ++ option_list (TechFlags <$> tech) ++ tail)
        (length pre + length (option_list (components_of_hint <$> hint)))%nat face1
      = (set_tech_flags (default (mTechFlags face1) tech) face1,
         (length pre + length (option_list (components_of_hint <$> hint))
          + length (option_list (TechFlags <$> tech)))%nat)).
    { destruct hint as [h|]; simpl option_list; simpl length.
      - rewrite (cons_middle (Url url) pre), app_assoc. simpl app at 2.
        replace (length pre + 1)%nat with (length (pre ++ [Url url]))
          by (rewrite length_app; reflexivity).
        now apply check_tech_flags_group.
      - rewrite Nat.add_0_r. simpl app. now apply check_tech_flags_group. }
    rewrite Hstep. clear Hstep.
    assert (Hlen :
      S (length pre + length (option_list (components_of_hint <$> hint))
         + length (option_list (TechFlags <$> tech)))
      = length (pre ++ Url url :: option_list (components_of_hint <$> hint)
                    ++ option_list (TechFlags <$> tech))).
    { rewrite length_app. simpl. rewrite length_app. lia. }
    rewrite Hlen. clear Hlen.
    rewrite <- app_comm_cons, <- (app_assoc _ _ tail).
    change (mURI (set_tech_flags (default (mTechFlags face1) tech) face1))
      with (GetURI url).
    unfold source_of_group.
    unfold face1. cbn [mTechFlags set_format_hint url_face].
    destruct (GetURI url) as [uri|]; simpl option_list.
    + reflexivity.
    + now rewrite app_nil_r.
Qed.

(** A well-formed list: the loop returns the sources of its groups. *)
Lemma source_loop_groups (gs : list SourceGroup) :
  forall (fuel : nat) (pre : list StyleFontFaceSourceListComponent)
         (srcArray : list gfxFontFaceSrc),
    (length gs <= fuel)%nat ->
    source_loop fuel variations_enabled aOrigin
      (pre ++ components_of_groups gs) (length pre) srcArray
    = Returned (srcArray ++ omap (source_of_group variations_enabled aOrigin) gs).
Proof.
  induction gs as [|g gs IH]; intros fuel pre srcArray Hfuel.
  - unfold components_of_groups. simpl. rewrite !app_nil_r.
    destruct fuel; simpl; now rewrite lookup_ge_None_2.
  - destruct fuel as [|fuel]; [simpl in Hfuel; lia|].
    unfold components_of_groups. rewrite fmap_cons. simpl concat.
    rewrite source_loop_group by apply components_of_groups_start.
    rewrite (IH fuel) by (simpl in Hfuel; lia).
    rewrite <- app_assoc. f_equal. f_equal.
    simpl. now destruct (source_of_group _ _ g).
Qed.

Lemma components_of_groups_length (gs : list SourceGroup) :
  (length gs <= length (components_of_groups gs))%nat.
Proof.
  induction gs as [|g gs IH]; [reflexivity|].
  unfold components_of_groups in *. rewrite fmap_cons. simpl concat.
  rewrite length_app. destruct g; simpl; lia.
Qed.

Lemma BuildSrcArray_groups (gs : list SourceGroup) :
  BuildSrcArray variations_enabled aOrigin (components_of_groups gs)
  = Returned (omap (source_of_group variations_enabled aOrigin) gs).
Proof.
  unfold BuildSrcArray.
  apply (source_loop_groups gs _ [] []), components_of_groups_length.
Qed.

(** The counter of the loop is never used up, whatever the list. *)
Lemma source_loop_fuel (fuel : nat) :
  forall (comps : list StyleFontFaceSourceListComponent) (i : nat)
         (srcArray : list gfxFontFaceSrc),
    (length comps <= i + fuel)%nat ->
    source_loop fuel variations_enabled aOrigin comps i srcArray <> OutOfFuel.
Proof.
  induction fuel as [|fuel IH]; intros comps i srcArray Hlen.
  - simpl. destruct (comps !! i) eqn:Hi; [|discriminate].
    apply lookup_lt_Some in Hi. lia.
  - cbn [source_loop]. destruct (comps !! i) as [[url|atom|k|s|t]|];
      try discriminate.
    + unfold check_format_hint, check_tech_flags.
      destruct (comps !! (i + 1)%nat) as [[u|a|k|s|t]|];
        repeat match goal with
               | |- context [match ?l !! ?j with _ => _ end] =>
                   destruct (l !! j) as [[?|?|?|?|?]|]
               end;
        cbn [fst snd mURI set_tech_flags set_format_hint url_face];
        destruct (GetURI url); apply IH; lia.
    + apply IH. lia.
Qed.

Lemma BuildSrcArray_fuel (comps : list StyleFontFaceSourceListComponent) :
  BuildSrcArray variations_enabled aOrigin comps <> OutOfFuel.
Proof. apply source_loop_fuel. lia. Qed.

Lemma format_hint_unrecognised (s : string) :
  ToLowerCaseASCII s ∉ recognised_format_strings variations_enabled ->
  format_hint_of_string variations_enabled s
  = StyleFontFaceSourceFormatKeyword.Unknown.
Proof.
  intros Hs. unfold format_hint_of_string, LowerCaseEqualsASCII.
  assert (Hne : forall lit, lit ∈ recognised_format_strings variations_enabled ->
                  String.eqb (ToLowerCaseASCII s) lit = false).
  { intros lit Hlit. apply String.eqb_neq. intros Heq. now rewrite Heq in Hs. }
  unfold recognised_format_strings in Hne.
  rewrite !Hne by (apply elem_of_app; left; repeat constructor).
  destruct variations_enabled; [|reflexivity].
  rewrite !Hne by (apply elem_of_app; right; repeat constructor).
  reflexivity.
Qed.

(** C7.  A format hint that follows a URL is part of that URL's source and
    yields no source of its own: a list made of groups (a local name, or a URL
    with its optional hint and optional technology flags) builds exactly the
    sources of its groups, in order.  So [Url, FormatHintKeyword(woff2)] is
    one source with format Woff2 and a URL without hint is one source with
    format None; a hint string that equals "woff" up to ASCII case gives the
    format Woff of the keyword, an unrecognised one gives Unknown, which is
    not None; and a URL without URI, with the hint and flags that belong to
    it, leaves the sources of all other groups as they are.  The loop ends on
    every list. *)
Theorem format_hint_belongs_to_its_url :
  (forall gs,
     BuildSrcArray variations_enabled aOrigin (components_of_groups gs)
     = Returned (omap (source_of_group variations_enabled aOrigin) gs))
  /\ (forall url uri,
        GetURI url = Some uri ->
        (exists face,
           BuildSrcArray variations_enabled aOrigin
             [Url url; FormatHintKeyword StyleFontFaceSourceFormatKeyword.Woff2]
           = Returned [face]
           /\ mFormatHint face = StyleFontFaceSourceFormatKeyword.Woff2
           /\ mSourceType face = eSourceType_URL /\ mURI face = Some uri)
        /\ (exists face,
              BuildSrcArray variations_enabled aOrigin [Url url] = Returned [face]
              /\ mFormatHint face = StyleFontFaceSourceFormatKeyword.None
              /\ mSourceType face = eSourceType_URL /\ mURI face = Some uri))
  /\ (forall url s,
        LowerCaseEqualsASCII s "woff" = true ->
        format_hint_of_string variations_enabled s
        = StyleFontFaceSourceFormatKeyword.Woff
        /\ BuildSrcArray variations_enabled aOrigin [Url url; FormatHintString s]
           = BuildSrcArray variations_enabled aOrigin
               [Url url; FormatHintKeyword StyleFontFaceSourceFormatKeyword.Woff])
  /\ LowerCaseEqualsASCII "WOFF" "woff" = true
  /\ (forall url uri s,
        GetURI url = Some uri ->
        ToLowerCaseASCII s ∉ recognised_format_strings variations_enabled ->
        format_hint_of_string variations_enabled s
        = StyleFontFaceSourceFormatKeyword.Unknown
        /\ exists face,
             BuildSrcArray variations_enabled aOrigin [Url url; FormatHintString s]
             = Returned [face]
             /\ mFormatHint face = StyleFontFaceSourceFormatKeyword.Unknown)
  /\ StyleFontFaceSourceFormatKeyword.Unknown <> StyleFontFaceSourceFormatKeyword.None
  /\ (forall gs1 gs2 url hint tech,
        GetURI url = None ->
        BuildSrcArray variations_enabled aOrigin
          (components_of_groups (gs1 ++ UrlGroup url hint tech :: gs2))
        = BuildSrcArray variations_enabled aOrigin (components_of_groups (gs1 ++ gs2)))
  /\ (forall comps, BuildSrcArray variations_enabled aOrigin comps <> OutOfFuel).
Proof.
  split; [exact BuildSrcArray_groups|].
  split; [|split; [|split; [reflexivity|split; [|split; [discriminate|split]]]]];
    [| | | |exact BuildSrcArray_fuel].
  - intros url uri Huri. split.
    + pose proof (BuildSrcArray_groups
        [UrlGroup url (Some (HintKeyword StyleFontFaceSourceFormatKeyword.Woff2))
                  None]) as Hb.
      unfold components_of_groups in Hb. simpl in Hb. rewrite Huri in Hb.
      eexists. split; [exact Hb|]. simpl. auto.
    + pose proof (BuildSrcArray_groups [UrlGroup url None None]) as Hb.
      unfold components_of_groups in Hb. simpl in Hb. rewrite Huri in Hb.
      eexists. split; [exact Hb|]. simpl. auto.
  - intros url s Hs.
    assert (Hf : format_hint_of_string variations_enabled s
                 = StyleFontFaceSourceFormatKeyword.Woff).
    { unfold format_hint_of_string. now rewrite Hs. }
    split; [exact Hf|].
    pose proof (BuildSrcArray_groups [UrlGroup url (Some (HintString s)) None]) as H1.
    pose proof (BuildSrcArray_groups
      [UrlGroup url (Some (HintKeyword StyleFontFaceSourceFormatKeyword.Woff))
                None]) as H2.
    unfold components_of_groups in H1, H2. simpl in H1, H2.
    rewrite H1, H2, Hf. reflexivity.
  - intros url uri s Huri Hs.
    pose proof (format_hint_unrecognised s Hs) as Hf.
    split; [exact Hf|].
    pose proof (BuildSrcArray_groups [UrlGroup url (Some (HintString s)) None]) as Hb.
    unfold components_of_groups in Hb. simpl in Hb. rewrite Huri, Hf in Hb.
    eexists. split; [exact Hb|]. reflexivity.
  - intros gs1 gs2 url hint tech Huri.
    rewrite !BuildSrcArray_groups. f_equal.
    rewrite !omap_app. simpl. now rewrite Huri.
Qed.

End SourceListProperties.

(** The source list [url(u) format("WOFF"), url() tech(1), local(L)], built
    with the variations pref off for an author sheet. *)
Lemma format_hint_belongs_to_its_url_witness :
  let u := {| GetURI := Some "u"%string; ExtraData_ReferrerInfo := ""%string;
              ExtraData_Principal := ""%string |} in
  let bad := {| GetURI := None; ExtraData_ReferrerInfo := ""%string;
                ExtraData_Principal := ""%string |} in
  format_hint_of_string false "WOFF" = StyleFontFaceSourceFormatKeyword.Woff
  /\ format_hint_of_string false "wof" = StyleFontFaceSourceFormatKeyword.Unknown
  /\ (exists face,
        BuildSrcArray false Author
          [Url u; FormatHintKeyword StyleFontFaceSourceFormatKeyword.Woff2]
        = Returned [face]
        /\ mFormatHint face = StyleFontFaceSourceFormatKeyword.Woff2
        /\ mSourceType face = eSourceType_URL /\ mURI face = Some "u"%string)
  /\ BuildSrcArray false Author
       (components_of_groups
          ([UrlGroup u (Some (HintString "WOFF")) None]
           ++ UrlGroup bad None (Some 1) :: [LocalGroup "L"]))
     = BuildSrcArray false Author
         (components_of_groups
            ([UrlGroup u (Some (HintString "WOFF")) None] ++ [LocalGroup "L"])).
Proof.
  intros u bad.
  destruct (format_hint_belongs_to_its_url false Author)
    as (_ & Hurl & Hwoff & _ & Hunknown & _ & Hdrop & _).
  split; [exact (proj1 (Hwoff u "WOFF"%string eq_refl))|].
  split.
  - refine (proj1 (Hunknown u "u"%string "wof"%string eq_refl _)).
    apply (bool_decide_unpack _). vm_compute. exact I.
  - split; [exact (proj1 (Hurl u "u"%string eq_refl))|].
    exact (Hdrop _ _ bad None (Some 1) eq_refl).
Defined.

(** ** Synchronous loading of font data *)

Lemma failure_codes_fail :
  NS_FAILED NS_ERROR_FAILURE = true /\ NS_FAILED NS_ERROR_FILE_TOO_BIG = true
  /\ NS_FAILED NS_ERROR_OUT_OF_MEMORY = true /\ NS_FAILED NS_OK = false.
Proof. repeat split. Qed.

(** C10, as stated, fails: the call below returns NS_ERROR_FAILURE for an
    empty payload and leaves the caller's buffer pointer and length, here a
    non-null pointer and 5, as they were. *)
Lemma sync_load_keeps_caller_values :
  let r := SyncLoadFontData empty_payload (Some 4096%nat) 5 in
  sl_rv r = NS_ERROR_FAILURE
  /\ NS_FAILED (sl_rv r) = true
  /\ sl_aBuffer r = Some 4096%nat
  /\ sl_aBufferLength r = 5
  /\ ~ (sl_aBuffer r = None /\ sl_aBufferLength r = 0).
Proof.
  simpl. repeat split. intros [Hb _]. discriminate Hb.
Qed.

(** C10, amended.  When [SyncLoadFontData] returns a failure code, either it
    failed before it wrote to its outputs and before any allocation (channel
    creation, [Open], [Available], an empty payload, a payload longer than
    UINT32_MAX), and buffer and length are what the caller passed in; or the
    buffer is null, the length is zero and what was allocated has been freed.
    A caller that passes a null buffer and a zero length therefore gets null
    and zero back on every failure.  An empty payload gives NS_ERROR_FAILURE,
    a payload longer than UINT32_MAX gives NS_ERROR_FILE_TOO_BIG before any
    allocation, and a failed allocation gives NS_ERROR_OUT_OF_MEMORY with the
    length reset to zero. *)
Theorem sync_load_failure_outputs (env : SyncLoadEnvironment)
    (aBuffer : option nat) (aBufferLength : Z) :
  let r := SyncLoadFontData env aBuffer aBufferLength in
  let ready :=
    NS_FAILED (CreateChannelForSyncLoadFontData env) = false
    /\ NS_FAILED (channel_Open env) = false
    /\ NS_FAILED (stream_Available env).1 = false in
  (NS_FAILED (sl_rv r) = true ->
     (sl_aBuffer r = aBuffer /\ sl_aBufferLength r = aBufferLength
      /\ sl_heap r = [])
     \/ (sl_aBuffer r = None /\ sl_aBufferLength r = 0
         /\ (sl_heap r = [Malloc (uint32 (stream_Available env).2)]
             /\ malloc env = None
             \/ exists ptr, malloc env = Some ptr
                  /\ sl_heap r = [Malloc (uint32 (stream_Available env).2);
                                  Free ptr])))
  /\ (NS_FAILED (sl_rv r) = true -> aBuffer = None -> aBufferLength = 0 ->
      sl_aBuffer r = None /\ sl_aBufferLength r = 0)
  /\ (ready -> (stream_Available env).2 = 0 ->
      sl_rv r = NS_ERROR_FAILURE /\ sl_heap r = [])
  /\ (ready -> (stream_Available env).2 > UINT32_MAX ->
      sl_rv r = NS_ERROR_FILE_TOO_BIG /\ sl_heap r = [])
  /\ (ready -> 0 < (stream_Available env).2 <= UINT32_MAX -> malloc env = None ->
      sl_rv r = NS_ERROR_OUT_OF_MEMORY /\ sl_aBuffer r = None
      /\ sl_aBufferLength r = 0).
Proof.
  intros r ready.
  assert (Hmain : NS_FAILED (sl_rv r) = true ->
     (sl_aBuffer r = aBuffer /\ sl_aBufferLength r = aBufferLength
      /\ sl_heap r = [])
     \/ (sl_aBuffer r = None /\ sl_aBufferLength r = 0
         /\ (sl_heap r = [Malloc (uint32 (stream_Available env).2)]
             /\ malloc env = None
             \/ exists ptr, malloc env = Some ptr
                  /\ sl_heap r = [Malloc (uint32 (stream_Available env).2);
                                  Free ptr]))).
  { subst r. unfold SyncLoadFontData.
    destruct (NS_FAILED (CreateChannelForSyncLoadFontData env)); [simpl; auto|].
    destruct (NS_FAILED (channel_Open env)); [simpl; auto|].
    destruct (stream_Available env) as [rv len]. simpl.
    destruct (NS_FAILED rv); [simpl; auto|].
    destruct (len =? 0); [simpl; auto|].
    destruct (len >? UINT32_MAX); [simpl; auto|].
    destruct (malloc env) as [ptr|]; [|simpl; auto 10].
    destruct (read_loop _ _ _) as [rv' total]. unfold NS_SUCCEEDED.
    destruct (NS_FAILED rv') eqn:Hrv'; simpl.
    - rewrite Hrv'. simpl. eauto 10.
    - destruct (NS_FAILED (channel_GetContentType env)); simpl;
        [eauto 10|discriminate]. }
  split; [exact Hmain|]. split; [|split; [|split]].
  - intros Hfail -> ->. destruct (Hmain Hfail) as [(-> & -> & _)|(-> & -> & _)]; auto.
  - intros (H1 & H2 & H3) Hlen. subst r. unfold SyncLoadFontData.
    rewrite H1, H2. destruct (stream_Available env) as [rv len].
    simpl in *. rewrite H3. subst len. simpl. auto.
  - intros (H1 & H2 & H3) Hlen. subst r. unfold SyncLoadFontData.
    rewrite H1, H2. destruct (stream_Available env) as [rv len].
    simpl in *. rewrite H3.
    destruct (Z.eqb_spec len 0) as [->|_]; [unfold UINT32_MAX in Hlen; lia|].
    destruct (Z.gtb_spec len UINT32_MAX); [simpl; auto|lia].
  - intros (H1 & H2 & H3) Hlen Hmalloc. subst r. unfold SyncLoadFontData.
    rewrite H1, H2. destruct (stream_Available env) as [rv len].
    simpl in *. rewrite H3.
    destruct (Z.eqb_spec len 0) as [->|_]; [lia|].
    destruct (Z.gtb_spec len UINT32_MAX); [lia|].
    rewrite Hmalloc. simpl. auto.
Qed.

(** A payload of 16 bytes whose allocation fails, for a caller that passes a
    null buffer and a zero length. *)
Lemma sync_load_failure_outputs_witness :
  let env := {| CreateChannelForSyncLoadFontData := NS_OK;
                channel_Open := NS_OK;
                stream_Available := (NS_OK, 16);
                malloc := None;
                stream_Read := [];
                channel_GetContentType := NS_OK |} in
  let r := SyncLoadFontData env None 0 in
  NS_FAILED (sl_rv r) = true
  /\ (sl_aBuffer r = None /\ sl_aBufferLength r = 0)
  /\ sl_rv r = NS_ERROR_OUT_OF_MEMORY.
Proof.
  intros env r.
  destruct (sync_load_failure_outputs env None 0) as (_ & Hnull & _ & _ & Hoom).
  split; [reflexivity|]. split.
  - apply Hnull; reflexivity.
  - apply Hoom; [repeat split| |reflexivity].
    simpl. unfold UINT32_MAX. lia.
Defined.

(** ** Face set operations *)

Section FaceSetProperties.
Context {FP : FontPropertyTypes} {OW : FontFaceSetOwner}
        {VT : FontFaceSetImplVirtuals}.

Implicit Types (st : FontFaceSetImpl) (aFontFace : nat).

Lemma face_update_face_eq st aFontFace g :
  face (update_face aFontFace g st) aFontFace = g (face st aFontFace).
Proof. unfold face, update_face. simpl. apply lookup_total_insert_eq. Qed.

Lemma face_update_face_ne st aFontFace f g :
  aFontFace <> f -> face (update_face aFontFace g st) f = face st f.
Proof. intros Hne. unfold face, update_face. simpl. now apply lookup_total_insert_ne. Qed.

Lemma HasLoadingFontFaces_frame st :
  let st' := (HasLoadingFontFaces st).2 in
  faces st' = faces st /\ mNonRuleFaces st' = mNonRuleFaces st
  /\ mStatus st' = mStatus st /\ mDelayedLoadCheck st' = mDelayedLoadCheck st
  /\ mOwner st' = mOwner st /\ IsOnOwningThread st' = IsOnOwningThread st
  /\ owning_thread_tasks st' = owning_thread_tasks st.
Proof.
  unfold HasLoadingFontFaces, UpdateHasLoadingFontFaces. simpl.
  destruct (mHasLoadingFontFacesIsDirty st); simpl; [|auto 10].
  destruct (scan_loading _ _); simpl; auto 10.
Qed.

Lemma CheckLoadingStarted_frame st :
  faces (CheckLoadingStarted st) = faces st
  /\ mNonRuleFaces (CheckLoadingStarted st) = mNonRuleFaces st
  /\ mDelayedLoadCheck (CheckLoadingStarted st) = mDelayedLoadCheck st.
Proof.
  unfold CheckLoadingStarted.
  destruct (HasLoadingFontFaces_frame st) as (Hf & Hr & _ & Hd & _).
  destruct (HasLoadingFontFaces st) as [loading st']. simpl in *.
  destruct loading; simpl; [|auto].
  destruct (decide _); [auto|].
  unfold OnLoadingStarted, DispatchToOwningThread. simpl.
  destruct (IsOnOwningThread st'); [|simpl; auto].
  destruct (mOwner st'); simpl; auto.
Qed.

Lemma CheckLoadingFinished_frame st :
  faces (CheckLoadingFinished st) = faces st
  /\ mNonRuleFaces (CheckLoadingFinished st) = mNonRuleFaces st
  /\ mDelayedLoadCheck (CheckLoadingFinished st) = mDelayedLoadCheck st.
Proof.
  unfold CheckLoadingFinished, MightHavePendingFontLoads.
  destruct (HasLoadingFontFaces_frame st) as (Hf & Hr & _ & Hd' & _).
  destruct (HasLoadingFontFaces st) as [loading st']. cbn [snd] in *.
  destruct (mDelayedLoadCheck st) eqn:Hd; [auto|].
  destruct (ReadyPromiseIsPending st); cbn [negb]; [|auto].
  destruct loading; [auto|].
  unfold OnLoadingFinished, DispatchToOwningThread.
  destruct (IsOnOwningThread _); [|simpl; auto].
  cbn [mOwner set_mStatus].
  destruct (mOwner st'); simpl; auto.
Qed.

(** C5, amended.  [Add] first flushes.  If the face is then already a
    member of the set, rule-derived or not, it returns false without an
    error and the state is the flushed one; if the face is not a member but
    comes from a rule, it returns false with [InvalidModificationError],
    which is not the absence of an error, and the state is again the flushed
    one.  Only otherwise the face becomes a member, its record is appended at
    the end of the list, the registry and the loading flag are marked dirty
    and the loading-started check runs on that state; the result is then
    true. *)
Theorem Add_fails_without_mutation st aFontFace :
  let st1 := FlushUserFontSet st in
  (IsInFontFaceSet st1 aFontFace = true ->
   Add st aFontFace = (false, NoError, st1))
  /\ (IsInFontFaceSet st1 aFontFace = false ->
      HasRule (face st1 aFontFace) = true ->
      exists message,
        Add st aFontFace = (false, InvalidModificationError message, st1)
        /\ InvalidModificationError message <> NoError)
  /\ (IsInFontFaceSet st1 aFontFace = false ->
      HasRule (face st1 aFontFace) = false ->
      let appended :=
        set_mNonRuleFaces
          (mNonRuleFaces st1 ++ [{| mFontFace := aFontFace; mOrigin := None |}])
          (AddFontFaceSet aFontFace st1) in
      let marked :=
        set_mHasLoadingFontFacesIsDirty true
          (MarkUserFontSetDirty (set_mNonRuleFacesDirty true appended)) in
      Add st aFontFace = (true, NoError, CheckLoadingStarted marked)
      /\ IsInFontFaceSet appended aFontFace = true
      /\ mNonRuleFacesDirty (set_mNonRuleFacesDirty true appended) = true
      /\ mHasLoadingFontFacesIsDirty marked = true
      /\ mNonRuleFaces (CheckLoadingStarted marked) = mNonRuleFaces marked
      /\ faces (CheckLoadingStarted marked) = faces marked)
  /\ (forall result err st',
        Add st aFontFace = (result, err, st') ->
        result = false -> st' = st1).
Proof.
  intros st1. unfold Add. fold st1. split; [|split; [|split]].
  - now intros ->.
  - intros -> ->. eexists. split; [reflexivity|discriminate].
  - intros Hmember Hrule. rewrite Hmember, Hrule.
    split; [reflexivity|]. split.
    { unfold IsInFontFaceSet, AddFontFaceSet.
      change (face (set_mNonRuleFaces ?l ?s) ?f) with (face s f).
      now rewrite face_update_face_eq. }
    repeat split; apply CheckLoadingStarted_frame.
  - intros result err st'.
    destruct (IsInFontFaceSet st1 aFontFace); [now intros [= <- <- <-]|].
    destruct (HasRule (face st1 aFontFace)); [now intros [= <- <- <-]|].
    intros [= <- _ _]. discriminate.
Qed.

Lemma same_membership_refl st : same_membership st st.
Proof. split; auto. Qed.

Lemma same_membership_trans st1 st2 st3 :
  same_membership st1 st2 -> same_membership st2 st3 -> same_membership st1 st3.
Proof.
  intros [Hr1 Hf1] [Hr2 Hf2]. split; [congruence|].
  intros f. destruct (Hf1 f), (Hf2 f). split; congruence.
Qed.

Lemma same_membership_heap st st' :
  faces st = faces st' -> mNonRuleFaces st = mNonRuleFaces st' ->
  same_membership st st'.
Proof.
  intros Hf Hr. split; [exact Hr|]. intros f.
  unfold IsInFontFaceSet, face. now rewrite Hf.
Qed.

Lemma same_membership_CheckLoadingStarted st :
  same_membership (CheckLoadingStarted st) st.
Proof. apply same_membership_heap; apply CheckLoadingStarted_frame. Qed.

Lemma same_membership_CheckLoadingFinished st :
  same_membership (CheckLoadingFinished st) st.
Proof. apply same_membership_heap; apply CheckLoadingFinished_frame. Qed.

Lemma remove_first_record_None aFontFace (records : list FontFaceRecord) :
  aFontFace ∉ mFontFace <$> records ->
  remove_first_record aFontFace records = None.
Proof.
  induction records as [|rec records IH]; [reflexivity|].
  rewrite fmap_cons, not_elem_of_cons. intros [Hne Hnot]. simpl.
  destruct (decide (mFontFace rec = aFontFace)); [congruence|].
  now rewrite IH.
Qed.







Lemma remove_all_from_set_fields (records : list FontFaceRecord) st :
  let st' := remove_all_from_set records st in
  (forall rec, rec ∈ records -> IsInFontFaceSet st' (mFontFace rec) = false)
  /\ (forall f, f ∉ mFontFace <$> records -> face st' f = face st f)
  /\ (forall f, HasRule (face st' f) = HasRule (face st f)
                /\ Status (face st' f) = Status (face st f))
  /\ mNonRuleFaces st' = mNonRuleFaces st /\ mStatus st' = mStatus st
  /\ mOwner st' = mOwner st /\ mDelayedLoadCheck st' = mDelayedLoadCheck st
  /\ owning_thread_tasks st' = owning_thread_tasks st
  /\ post_traversal_tasks st' = post_traversal_tasks st.
Proof.
  revert st. induction records as [|rec records IH]; intros st; simpl.
  - repeat split; auto. intros r Hr. inversion Hr.
  - destruct (IH (RemoveFontFaceSet (mFontFace rec) st))
      as (Hin & Hout & Hsame & Hrest).
    split; [|split; [|split]].
    + intros r [->|Hr]%elem_of_cons; [|now apply Hin].
      destruct (decide (mFontFace rec ∈ mFontFace <$> records)) as [Hd|Hd].
      * apply list_elem_of_fmap in Hd as (r' & Heq & Hr').
        pose proof (Hin r' Hr') as Hr. now rewrite <- Heq in Hr.
      * unfold IsInFontFaceSet. rewrite Hout by exact Hd.
        unfold RemoveFontFaceSet. now rewrite face_update_face_eq.
    + intros f [Hne Hnot]%not_elem_of_cons. rewrite Hout by exact Hnot.
      unfold RemoveFontFaceSet. now rewrite face_update_face_ne.
    + intros f. destruct (Hsame f) as [-> ->]. unfold RemoveFontFaceSet.
      destruct (decide (mFontFace rec = f)) as [<-|Hne].
      * now rewrite face_update_face_eq.
      * now rewrite face_update_face_ne.
    + exact Hrest.
Qed.

(** C8.  [Clear] first flushes.  If the record list is then empty, the state
    is the flushed one: no record, flag, owner or task list differs from it,
    so nothing was marked dirty and no check or notification ran.  If the
    list is not empty, every recorded face leaves the set (and no other face
    changes), the list becomes empty, the registry and the loading flag are
    marked dirty, and the loading-finished check runs on that state. *)
Theorem Clear_empty_is_noop st :
  let st1 := FlushUserFontSet st in
  (mNonRuleFaces st1 = [] -> Clear st = st1)
  /\ (mNonRuleFaces st1 <> [] ->
      let detached := remove_all_from_set (mNonRuleFaces st1) st1 in
      let emptied := set_mNonRuleFacesDirty true (set_mNonRuleFaces [] detached) in
      let marked :=
        set_mHasLoadingFontFacesIsDirty true (MarkUserFontSetDirty emptied) in
      Clear st = CheckLoadingFinished marked
      /\ (forall rec, rec ∈ mNonRuleFaces st1 ->
            IsInFontFaceSet emptied (mFontFace rec) = false)
      /\ (forall f, has_no_record st1 f -> face emptied f = face st1 f)
      /\ mNonRuleFaces emptied = []
      /\ mNonRuleFacesDirty emptied = true
      /\ mHasLoadingFontFacesIsDirty marked = true
      /\ mNonRuleFaces (CheckLoadingFinished marked) = mNonRuleFaces marked
      /\ faces (CheckLoadingFinished marked) = faces marked).
Proof.
  intros st1. split.
  - intros Hempty. unfold Clear. fold st1. now rewrite Hempty.
  - intros Hne detached emptied marked.
    destruct (remove_all_from_set_fields (mNonRuleFaces st1) st1)
      as (Hin & Hout & _).
    split; [|repeat split].
    + unfold Clear. fold st1. destruct (mNonRuleFaces st1) eqn:Hl; [congruence|].
      reflexivity.
    + exact Hin.
    + exact Hout.
    + apply CheckLoadingFinished_frame.
    + apply CheckLoadingFinished_frame.
Qed.

End FaceSetProperties.

(** *** The operations on a set of three faces

    Face 1 is a member of the set, face 2 comes from a rule, face 3 is a
    script-made face that is loading and not yet in the set. *)

(** C5, as stated, fails: a face that comes from a rule and is a member of
    the set (as the faces of the rules of a document are) is refused by the
    membership test, which comes first, and [Add] reports no error. *)
Lemma Add_rule_member_reports_no_error :
  let st := example_set
              [(2%nat, example_face true true FontFaceLoadStatus.Loaded None None None)]
              [] FontFaceSetLoadStatus.Loaded in
  HasRule (face st 2) = true
  /\ Add (VT := example_virtuals) st 2
     = (false, NoError, FlushUserFontSet (FontFaceSetImplVirtuals := example_virtuals) st)
  /\ forall message,
       (Add (VT := example_virtuals) st 2).1.2 <> InvalidModificationError message.
Proof.
  split; [reflexivity|]. split; [reflexivity|]. intros message. discriminate.
Qed.

Lemma Add_fails_without_mutation_witness :
  let st := example_set
              [(1%nat, example_face false true FontFaceLoadStatus.Loaded None None None);
               (2%nat, example_face true false FontFaceLoadStatus.Loaded None None None);
               (3%nat, example_face false false FontFaceLoadStatus.Loading None None None)]
              [1%nat] FontFaceSetLoadStatus.Loaded in
  let st1 := FlushUserFontSet (FontFaceSetImplVirtuals := example_virtuals) st in
  Add (VT := example_virtuals) st 1 = (false, NoError, st1)
  /\ (exists message,
        Add (VT := example_virtuals) st 2
        = (false, InvalidModificationError message, st1)
        /\ InvalidModificationError message <> NoError)
  /\ (Add (VT := example_virtuals) st 3).1.1 = true.
Proof.
  intros st st1.
  split; [|split].
  - apply (Add_fails_without_mutation (VT := example_virtuals) st 1).
    reflexivity.
  - apply (Add_fails_without_mutation (VT := example_virtuals) st 2);
      reflexivity.
  - destruct (Add_fails_without_mutation (VT := example_virtuals) st 3)
      as (_ & _ & Hadd & _).
    destruct (Hadd eq_refl eq_refl) as [-> _]. reflexivity.
Defined.


Lemma Clear_empty_is_noop_witness :
  let empty := example_set
                 [(3%nat, example_face false false FontFaceLoadStatus.Loading None None None)]
                 [] FontFaceSetLoadStatus.Loaded in
  let st := example_set
              [(1%nat, example_face false true FontFaceLoadStatus.Loaded None None None)]
              [1%nat] FontFaceSetLoadStatus.Loaded in
  Clear (VT := example_virtuals) empty
  = FlushUserFontSet (FontFaceSetImplVirtuals := example_virtuals) empty
  /\ mNonRuleFaces (Clear (VT := example_virtuals) st) = []
  /\ IsInFontFaceSet (Clear (VT := example_virtuals) st) 1 = false.
Proof.
  intros empty st. split.
  - apply (Clear_empty_is_noop (VT := example_virtuals) empty). reflexivity.
  - destruct (Clear_empty_is_noop (VT := example_virtuals) st) as [_ Hclear].
    destruct Hclear as (-> & _); [discriminate|].
    split; reflexivity.
Defined.

(** ** Loading status coordinator *)

Section CoordinatorProperties.
Context {FP : FontPropertyTypes} {OW : FontFaceSetOwner}
        {VT : FontFaceSetImplVirtuals}.

Implicit Types (st : FontFaceSetImpl) (aFontFace : nat).

Lemma scan_loading_heap st st' (records : list FontFaceRecord) :
  faces st = faces st' -> scan_loading st records = scan_loading st' records.
Proof.
  intros Hf. induction records as [|rec records IH]; [reflexivity|].
  simpl. unfold face. now rewrite Hf, IH.
Qed.

Lemma scan_loading_true st (records : list FontFaceRecord) :
  scan_loading st records = true
  <-> exists rec, rec ∈ records
        /\ Status (face st (mFontFace rec)) = FontFaceLoadStatus.Loading.
Proof.
  induction records as [|rec records IH]; simpl.
  - split; [discriminate|]. intros (r & Hr & _). inversion Hr.
  - destruct (decide _) as [Hl|Hl].
    + split; [|reflexivity]. intros _. exists rec. split; [left|exact Hl].
    + rewrite IH. split.
      * intros (r & Hr & Hs). exists r. split; [now right|exact Hs].
      * intros (r & [->|Hr]%elem_of_cons & Hs); [contradiction|eauto].
Qed.

Lemma any_face_loading_scan st :
  any_face_loading st <-> scan_loading st (mNonRuleFaces st) = true.
Proof. symmetry. apply scan_loading_true. Qed.

Lemma cache_ok_fields st st' :
  faces st = faces st' -> mNonRuleFaces st = mNonRuleFaces st' ->
  mHasLoadingFontFaces st = mHasLoadingFontFaces st' ->
  mHasLoadingFontFacesIsDirty st = mHasLoadingFontFacesIsDirty st' ->
  cache_ok st -> cache_ok st'.
Proof.
  unfold cache_ok. intros Hf Hr Hh Hd Hok Hclean.
  rewrite <- Hh, <- Hr, <- (scan_loading_heap st st') by exact Hf.
  apply Hok. congruence.
Qed.

Lemma cache_ok_dirty st : mHasLoadingFontFacesIsDirty st = true -> cache_ok st.
Proof. unfold cache_ok. congruence. Qed.

Lemma initial_cache_ok heap aOwner on_owning_thread :
  cache_ok (FontFaceSetImpl_new heap aOwner on_owning_thread).
Proof. intros _. reflexivity. Qed.

(** What [HasLoadingFontFaces] answers and leaves behind. *)
Lemma HasLoadingFontFaces_spec st :
  cache_ok st ->
  let r := HasLoadingFontFaces st in
  r.1 = scan_loading st (mNonRuleFaces st)
  /\ cache_ok r.2
  /\ faces r.2 = faces st /\ mNonRuleFaces r.2 = mNonRuleFaces st
  /\ mStatus r.2 = mStatus st /\ mDelayedLoadCheck r.2 = mDelayedLoadCheck st
  /\ mOwner r.2 = mOwner st /\ IsOnOwningThread r.2 = IsOnOwningThread st
  /\ owning_thread_tasks r.2 = owning_thread_tasks st.
Proof.
  intros Hok. unfold HasLoadingFontFaces, UpdateHasLoadingFontFaces.
  destruct (mHasLoadingFontFacesIsDirty st) eqn:Hd.
  - set (st0 := set_mHasLoadingFontFaces false
                  (set_mHasLoadingFontFacesIsDirty false st)).
    assert (Hs : scan_loading st0 (mNonRuleFaces st0)
                 = scan_loading st (mNonRuleFaces st))
      by now apply scan_loading_heap.
    rewrite Hs.
    destruct (scan_loading st (mNonRuleFaces st)) eqn:Hscan; cbn [fst snd];
      (split; [reflexivity|]); (split; [|repeat split]);
      intros _; simpl; rewrite <- Hscan; symmetry; now apply scan_loading_heap.
  - cbn [fst snd]. split; [now apply Hok|]. split; [exact Hok|]. repeat split.
Qed.

Lemma CheckLoadingStarted_spec st :
  cache_ok st ->
  let st' := CheckLoadingStarted st in
  cache_ok st'
  /\ (mStatus st' = mStatus st
      \/ mStatus st = FontFaceSetLoadStatus.Loaded
         /\ mStatus st' = FontFaceSetLoadStatus.Loading
         /\ any_face_loading st /\ any_face_loading st').
Proof.
  intros Hok. unfold CheckLoadingStarted.
  destruct (HasLoadingFontFaces_spec st Hok)
    as (Hb & Hok2 & Hf & Hr & Hs & Hd & Ho & Ht & Hq).
  destruct (HasLoadingFontFaces st) as [loading st2]. cbn [fst snd] in *.
  destruct loading; cbn [negb]; [|auto].
  destruct (decide (mStatus st2 = FontFaceSetLoadStatus.Loading)) as [Hl|Hl];
    [auto|].
  assert (Hany : any_face_loading st) by now apply any_face_loading_scan.
  assert (Hloaded : mStatus st = FontFaceSetLoadStatus.Loaded).
  { rewrite <- Hs. now destruct (mStatus st2). }
  set (st3 := set_mStatus FontFaceSetLoadStatus.Loading st2).
  assert (Hfinal : forall st4,
            faces st4 = faces st3 -> mNonRuleFaces st4 = mNonRuleFaces st3 ->
            mHasLoadingFontFaces st4 = mHasLoadingFontFaces st3 ->
            mHasLoadingFontFacesIsDirty st4 = mHasLoadingFontFacesIsDirty st3 ->
            mStatus st4 = FontFaceSetLoadStatus.Loading ->
            cache_ok st4
            /\ (mStatus st4 = mStatus st
                \/ mStatus st = FontFaceSetLoadStatus.Loaded
                   /\ mStatus st4 = FontFaceSetLoadStatus.Loading
                   /\ any_face_loading st /\ any_face_loading st4)).
  { intros st4 H1 H2 H3 H4 H5. split.
    - apply (cache_ok_fields st2); auto; congruence.
    - right. repeat split; auto.
      destruct Hany as (rec & Hin & Hst). exists rec.
      rewrite H2. simpl. rewrite Hr. split; [exact Hin|].
      unfold face. rewrite H1. simpl. now rewrite Hf. }
  unfold OnLoadingStarted, DispatchToOwningThread.
  destruct (IsOnOwningThread st3); [|now apply Hfinal].
  destruct (mOwner st3); now apply Hfinal.
Qed.

Lemma CheckLoadingFinished_spec st :
  cache_ok st ->
  let st' := CheckLoadingFinished st in
  cache_ok st'
  /\ mDelayedLoadCheck st' = mDelayedLoadCheck st
  /\ (mStatus st' = mStatus st
      /\ (any_face_loading st ->
          mOwner st' = mOwner st
          /\ owning_thread_tasks st' = owning_thread_tasks st)
      \/ mStatus st' = FontFaceSetLoadStatus.Loaded
         /\ mDelayedLoadCheck st = false
         /\ ReadyPromiseIsPending st = true
         /\ ~ any_face_loading st /\ ~ any_face_loading st').
Proof.
  intros Hok. unfold CheckLoadingFinished, MightHavePendingFontLoads.
  destruct (HasLoadingFontFaces_spec st Hok)
    as (Hb & Hok2 & Hf & Hr & Hs & Hd & Ho & Ht & Hq).
  destruct (HasLoadingFontFaces st) as [loading st2]. cbn [fst snd] in *.
  destruct (mDelayedLoadCheck st) eqn:Hdelay; [auto 10|].
  destruct (ReadyPromiseIsPending st) eqn:Hready; cbn [negb]; [|auto 10].
  destruct loading; [rewrite Hd; auto 10|].
  assert (Hnone : ~ any_face_loading st).
  { rewrite any_face_loading_scan. congruence. }
  set (st3 := set_mStatus FontFaceSetLoadStatus.Loaded st2).
  assert (Hfinal : forall st4,
            faces st4 = faces st3 -> mNonRuleFaces st4 = mNonRuleFaces st3 ->
            mHasLoadingFontFaces st4 = mHasLoadingFontFaces st3 ->
            mHasLoadingFontFacesIsDirty st4 = mHasLoadingFontFacesIsDirty st3 ->
            mDelayedLoadCheck st4 = mDelayedLoadCheck st3 ->
            mStatus st4 = FontFaceSetLoadStatus.Loaded ->
            cache_ok st4
            /\ mDelayedLoadCheck st4 = false
            /\ (mStatus st4 = mStatus st
                /\ (any_face_loading st ->
                    mOwner st4 = mOwner st
                    /\ owning_thread_tasks st4 = owning_thread_tasks st)
                \/ mStatus st4 = FontFaceSetLoadStatus.Loaded
                   /\ false = false
                   /\ true = true
                   /\ ~ any_face_loading st /\ ~ any_face_loading st4)).
  { intros st4 H1 H2 H3 H4 H5 H6. split; [|split].
    - apply (cache_ok_fields st2); auto; congruence.
    - rewrite H5. exact Hd.
    - right. repeat split; auto.
      intros (rec & Hin & Hst). apply Hnone. exists rec.
      rewrite H2 in Hin. simpl in Hin. rewrite Hr in Hin. split; [exact Hin|].
      unfold face in *. rewrite H1 in Hst. simpl in Hst. now rewrite Hf in Hst. }
  unfold OnLoadingFinished, DispatchToOwningThread.
  destruct (IsOnOwningThread st3); [|now apply Hfinal].
  destruct (mOwner st3); now apply Hfinal.
Qed.

Lemma step_through_CheckLoadingStarted st st0 :
  mStatus st0 = mStatus st -> cache_ok st0 ->
  cache_ok (CheckLoadingStarted st0) /\ status_step st (CheckLoadingStarted st0).
Proof.
  intros Hs Hok. destruct (CheckLoadingStarted_spec st0 Hok) as [Hok' Hstep].
  split; [exact Hok'|]. unfold status_step. rewrite <- Hs.
  destruct Hstep as [Hsame|(H1 & H2 & _ & H3)]; auto.
Qed.

Lemma step_through_CheckLoadingFinished st st0 :
  mStatus st0 = mStatus st -> cache_ok st0 ->
  cache_ok (CheckLoadingFinished st0) /\ status_step st (CheckLoadingFinished st0).
Proof.
  intros Hs Hok.
  destruct (CheckLoadingFinished_spec st0 Hok) as (Hok' & Hd & Hstep).
  split; [exact Hok'|]. unfold status_step. rewrite <- Hs.
  destruct Hstep as [[Hsame _]|(H1 & H2 & _ & _ & H3)]; [auto|].
  destruct (mStatus st0) eqn:Hst0; [|left; congruence].
  right. right. repeat split; auto. congruence.
Qed.

Lemma step_same_status st st' :
  mStatus st' = mStatus st -> status_step st st'.
Proof. intros Hs. now left. Qed.

(** Every operation keeps the cache right and changes the aggregate status
    only by an allowed step. *)
Lemma run_operation_step (op : Operation) st :
  keeps_coordinator FlushUserFontSet ->
  keeps_coordinator MarkUserFontSetDirty ->
  cache_ok st ->
  cache_ok (run_operation op st) /\ status_step st (run_operation op st).
Proof.
  intros Hflush Hmark Hok.
  destruct (Hflush st) as (Hfs & Hfd & Hfok).
  destruct op as [f|f| |f status| | |task]; cbn [run_operation].
  - (* Add *)
    unfold Add.
    destruct (IsInFontFaceSet _ f); cbn [snd];
      [split; [auto|now apply step_same_status]|].
    destruct (HasRule _); cbn [snd];
      [split; [auto|now apply step_same_status]|].
    apply step_through_CheckLoadingStarted; [|now apply cache_ok_dirty].
    refine (eq_trans (proj1 (Hmark _)) _). exact Hfs.
  - (* Delete *)
    unfold Delete.
    destruct (HasRule _); cbn [snd];
      [split; [auto|now apply step_same_status]|].
    destruct (remove_first_record f _) as [records|]; cbn [snd];
      [|split; [auto|now apply step_same_status]].
    apply step_through_CheckLoadingFinished; [|now apply cache_ok_dirty].
    refine (eq_trans (proj1 (Hmark _)) _). exact Hfs.
  - (* Clear *)
    unfold Clear.
    destruct (mNonRuleFaces (FlushUserFontSet st)) as [|rec records] eqn:Hrec;
      [split; [auto|now apply step_same_status]|].
    apply step_through_CheckLoadingFinished; [|now apply cache_ok_dirty].
    refine (eq_trans (proj1 (Hmark _)) _).
    destruct (remove_all_from_set_fields (rec :: records) (FlushUserFontSet st))
      as (_ & _ & _ & _ & Hs & _).
    refine (eq_trans Hs _). exact Hfs.
  - (* a face reports a change of status *)
    unfold OnFontFaceStatusChanged.
    set (st0 := set_mHasLoadingFontFacesIsDirty true
                  (update_face f (set_Status status) st)).
    destruct (decide _) as [Hl|Hl].
    + apply step_through_CheckLoadingStarted;
        [reflexivity|now apply cache_ok_dirty].
    + unfold DispatchCheckLoadingFinishedAfterDelay, AppendTask,
        DispatchToOwningThread.
      destruct (mDelayedLoadCheck st0); cbn [negb];
        [split; [now apply cache_ok_dirty|now apply step_same_status]|].
      destruct (CurrentServoStyleSet _);
        (split; [now apply cache_ok_dirty|now apply step_same_status]).
  - now apply step_through_CheckLoadingStarted.
  - now apply step_through_CheckLoadingFinished.
  - destruct task; cbn [run_task].
    + unfold OnLoadingStarted. destruct (mOwner st);
        (split; [now apply (cache_ok_fields st)|now apply step_same_status]).
    + unfold OnLoadingFinished. destruct (mOwner st);
        (split; [now apply (cache_ok_fields st)|now apply step_same_status]).
    + unfold CheckLoadingFinishedAfterDelay.
      apply step_through_CheckLoadingFinished; [reflexivity|].
      now apply (cache_ok_fields st).
Qed.

(** C3.  On a set whose cached "has loading faces" flag is right (it is so
    initially and after every operation):
    [CheckLoadingStarted] changes the aggregate status only from Loaded to
    Loading, and only when some face of the set is loading;
    [CheckLoadingFinished] changes it only from Loading to Loaded, and only
    when the delayed-check flag is clear, the ready promise is pending and no
    face of the set is loading; while the delayed-check flag is set it
    returns the state as it is; while a face is loading it neither sets the
    status nor notifies the owner.  No operation of the set changes the
    status in another way, given virtual methods that leave the
    coordinator's fields alone. *)
Theorem status_changes_only_in_checks :
  (forall heap aOwner on_owning_thread,
     cache_ok (FontFaceSetImpl_new heap aOwner on_owning_thread)
     /\ mStatus (FontFaceSetImpl_new heap aOwner on_owning_thread)
        = FontFaceSetLoadStatus.Loaded)
  /\ (forall st,
        cache_ok st ->
        mStatus (CheckLoadingStarted st) <> mStatus st ->
        mStatus st = FontFaceSetLoadStatus.Loaded
        /\ mStatus (CheckLoadingStarted st) = FontFaceSetLoadStatus.Loading
        /\ any_face_loading st)
  /\ (forall st,
        cache_ok st ->
        mStatus (CheckLoadingFinished st) <> mStatus st ->
        mStatus st = FontFaceSetLoadStatus.Loading
        /\ mStatus (CheckLoadingFinished st) = FontFaceSetLoadStatus.Loaded
        /\ mDelayedLoadCheck st = false
        /\ ReadyPromiseIsPending st = true
        /\ ~ any_face_loading st)
  /\ (forall st, mDelayedLoadCheck st = true -> CheckLoadingFinished st = st)
  /\ (forall st,
        cache_ok st -> any_face_loading st ->
        mStatus (CheckLoadingFinished st) = mStatus st
        /\ mOwner (CheckLoadingFinished st) = mOwner st
        /\ owning_thread_tasks (CheckLoadingFinished st) = owning_thread_tasks st)
  /\ (keeps_coordinator FlushUserFontSet ->
      keeps_coordinator MarkUserFontSetDirty ->
      forall op st,
        cache_ok st ->
        cache_ok (run_operation op st) /\ status_step st (run_operation op st)).
Proof.
  split; [|split; [|split; [|split; [|split]]]].
  - intros heap aOwner on_owning_thread. split; [|reflexivity].
    apply initial_cache_ok.
  - intros st Hok Hchange.
    destruct (CheckLoadingStarted_spec st Hok) as [_ [Hsame|(H1 & H2 & H3 & _)]];
      [contradiction|auto].
  - intros st Hok Hchange.
    destruct (CheckLoadingFinished_spec st Hok)
      as (_ & _ & [[Hsame _]|(H1 & H2 & H3 & H4 & _)]); [contradiction|].
    repeat split; auto.
    destruct (mStatus st); [reflexivity|congruence].
  - intros st Hd. unfold CheckLoadingFinished. now rewrite Hd.
  - intros st Hok Hany.
    destruct (CheckLoadingFinished_spec st Hok)
      as (_ & _ & [[Hsame Hquiet]|(_ & _ & _ & Hnone & _)]); [|contradiction].
    destruct (Hquiet Hany). auto.
  - intros Hflush Hmark op st. now apply run_operation_step.
Qed.

End CoordinatorProperties.

(** A loaded set with one record, whose face has started to load: the check
    moves the set to Loading; then the face finishes and is deleted. *)
Lemma status_changes_only_in_checks_witness :
  let st := example_set
              [(3%nat, example_face false true FontFaceLoadStatus.Loading None None None)]
              [3%nat] FontFaceSetLoadStatus.Loaded in
  (mStatus st = FontFaceSetLoadStatus.Loaded
   /\ mStatus (CheckLoadingStarted st) = FontFaceSetLoadStatus.Loading
   /\ any_face_loading st)
  /\ (forall op,
        cache_ok (run_operation (VT := example_virtuals) op st)
        /\ status_step st (run_operation (VT := example_virtuals) op st)).
Proof.
  intros st.
  assert (Hok : cache_ok st) by (intros Hd; discriminate Hd).
  destruct (status_changes_only_in_checks (VT := example_virtuals))
    as (_ & Hstarted & _ & _ & _ & Hops).
  split.
  - apply (Hstarted st Hok). vm_compute. discriminate.
  - intros op. apply Hops.
    + intros s. repeat split. now apply (cache_ok_fields s).
    + intros s. repeat split. intros Hs. exact Hs.
    + exact Hok.
Defined.

(** ** Font resource registry *)

Section RegistryProperties.
Context {FP : FontPropertyTypes} {OW : FontFaceSetOwner} {SP : StaticPrefs}.

Implicit Types (st : FontFaceSetImpl) (aFontFace e : nat) (name : string).

Lemma entry_lookup st e data : entries st !! e = Some data -> entry st e = data.
Proof. intros Hl. unfold entry. now apply lookup_total_correct. Qed.

Lemma registry_ok_one_family st : registry_ok st -> at_most_one_family st.
Proof.
  intros Hok e name1 name2 H1 H2.
  destruct (Hok _ _ H1) as (d1 & Hd1 & <-).
  destruct (Hok _ _ H2) as (d2 & Hd2 & <-).
  congruence.
Qed.

Lemma FindOrCreate_existing st (aFamilyName : string) aFontFace
    (aOrigin : StyleOrigin) e :
  GetUserFontEntry (face st aFontFace) = Some e ->
  exists attrs,
    resolve_attributes (face st aFontFace) = Returned attrs
    /\ FindOrCreateUserFontEntryFromFontFace st aFamilyName aFontFace aOrigin
       = Returned (Some e, update_existing st aFamilyName e attrs).
Proof.
  intros He. destruct (resolve_attributes_returns (face st aFontFace)) as [attrs Ha].
  exists attrs. split; [exact Ha|].
  unfold FindOrCreateUserFontEntryFromFontFace. rewrite Ha. simpl. now rewrite He.
Qed.

Lemma in_family_RemoveFontEntry st name e n e' :
  in_family (RemoveFontEntry name e st) n e'
  <-> in_family st n e' /\ (n = name -> e' <> e).
Proof.
  unfold in_family, RemoveFontEntry. simpl. split.
  - intros (l & Hl & Hin). destruct (decide (name = n)) as [->|Hne].
    + rewrite lookup_alter_eq in Hl.
      destruct (mFontFamilies st !! n) as [l0|] eqn:Hl0; [|discriminate].
      injection Hl as <-. apply list_elem_of_filter in Hin as [Hne Hin]. eauto.
    + rewrite lookup_alter_ne in Hl by exact Hne. split; [eauto|congruence].
  - intros [(l & Hl & Hin) Hne]. destruct (decide (name = n)) as [->|Hn].
    + exists (filter (fun x => x <> e) l). rewrite lookup_alter_eq, Hl.
      split; [reflexivity|]. apply list_elem_of_filter. auto.
    + exists l. now rewrite lookup_alter_ne.
Qed.

(** What the branch does to the families and to the entries. *)
Lemma update_existing_spec st (aFamilyName : string) e attrs data :
  entries st !! e = Some data ->
  let st' := update_existing st aFamilyName e attrs in
  let moved := mFamilyName data <> ""%string /\ mFamilyName data <> aFamilyName in
  faces st' = faces st
  /\ dom (entries st') = dom (entries st)
  /\ (forall e', e' <> e -> entries st' !! e' = entries st !! e')
  /\ (exists data',
        entries st' !! e = Some data'
        /\ attributes data' = attrs
        /\ mSrcList data' = mSrcList data
        /\ mFontFaces data' = mFontFaces data
        /\ (moved -> mFamilyName data' = ""%string)
        /\ (~ moved -> mFamilyName data' = mFamilyName data))
  /\ (forall n e', in_family st' n e' -> in_family st n e')
  /\ (moved -> ~ in_family st' (mFamilyName data) e)
  /\ (forall n e', in_family st n e' ->
        (moved -> n = mFamilyName data -> e' <> e) -> in_family st' n e').
Proof.
  intros Hdata st' moved. subst st'. unfold update_existing.
  set (st1 := UpdateAttributes e attrs st).
  assert (He1 : entry st1 e = set_attributes attrs data).
  { unfold st1, UpdateAttributes, update_entry, entry. simpl.
    rewrite lookup_total_insert_eq. f_equal. now apply entry_lookup. }
  assert (Hdom1 : dom (entries st1) = dom (entries st)).
  { unfold st1, UpdateAttributes, update_entry. simpl.
    apply dom_insert_lookup_L. eauto. }
  rewrite He1. change (mFamilyName (set_attributes attrs data)) with (mFamilyName data).
  destruct (String.eqb_spec (mFamilyName data) "") as [Hempty|Hnonempty];
    cbn [negb andb].
  { (* no stored family name *)
    repeat split; try assumption.
    - intros e' Hne. unfold st1, UpdateAttributes, update_entry. simpl.
      now rewrite lookup_insert_ne.
    - exists (set_attributes attrs data). repeat split.
      + unfold st1, UpdateAttributes, update_entry. simpl.
        rewrite lookup_insert_eq. f_equal. f_equal. now apply entry_lookup.
      + intros [Hm _]. contradiction.
    - auto.
    - intros [Hm _]. contradiction.
    - auto. }
  destruct (String.eqb_spec (mFamilyName data) aFamilyName) as [Hsame|Hdiff];
    cbn [negb].
  { (* the family name has not changed *)
    repeat split; try assumption.
    - intros e' Hne. unfold st1, UpdateAttributes, update_entry. simpl.
      now rewrite lookup_insert_ne.
    - exists (set_attributes attrs data). repeat split.
      + unfold st1, UpdateAttributes, update_entry. simpl.
        rewrite lookup_insert_eq. f_equal. f_equal. now apply entry_lookup.
      + intros [_ Hm]. contradiction.
    - auto.
    - intros [_ Hm]. contradiction.
    - auto. }
  (* the family name has changed *)
  set (st2 := match LookupFamily st1 (mFamilyName data) with
              | Some _ => RemoveFontEntry (mFamilyName data) e st1
              | None => st1
              end).
  assert (Hent2 : entries st2 = entries st1).
  { unfold st2. now destruct (LookupFamily st1 (mFamilyName data)). }
  assert (Hfaces2 : faces st2 = faces st).
  { unfold st2. now destruct (LookupFamily st1 (mFamilyName data)). }
  assert (Hfam2 : forall n e',
            in_family st2 n e'
            <-> in_family st n e' /\ (n = mFamilyName data -> e' <> e)).
  { intros n e'. unfold st2.
    destruct (LookupFamily st1 (mFamilyName data)) as [l|] eqn:Hl.
    - now rewrite in_family_RemoveFontEntry.
    - split; [|now intros [? _]]. intros Hin. split; [exact Hin|].
      intros -> _. destruct Hin as (l' & Hl' & _).
      unfold LookupFamily, st1 in Hl. simpl in Hl.
      unfold st1 in Hl'. simpl in Hl'. congruence. }
  assert (He2 : entry st2 e = set_attributes attrs data).
  { unfold entry. rewrite Hent2. exact He1. }
  repeat split.
  - exact Hfaces2.
  - unfold update_entry. simpl. rewrite Hent2.
    rewrite dom_insert_lookup_L; [exact Hdom1|].
    apply elem_of_dom. rewrite Hdom1. apply elem_of_dom. eauto.
  - intros e' Hne. unfold update_entry. simpl. rewrite Hent2.
    rewrite lookup_insert_ne by congruence.
    unfold st1, UpdateAttributes, update_entry. simpl.
    now rewrite lookup_insert_ne.
  - exists (set_mFamilyName "" (set_attributes attrs data)). repeat split.
    + unfold update_entry. simpl. rewrite lookup_insert_eq. now rewrite He2.
    + intros Hnot. destruct Hnot. now split.
  - intros n e' Hin. now apply Hfam2 in Hin as [Hin _].
  - intros _ Hin. apply Hfam2 in Hin as [_ Hin]. now apply Hin.
  - intros n e' Hin Hne. apply Hfam2. split; [exact Hin|].
    apply Hne. now split.
Qed.

Lemma update_existing_registry_ok st (aFamilyName : string) e attrs data :
  entries st !! e = Some data ->
  registry_ok st -> registry_ok (update_existing st aFamilyName e attrs).
Proof.
  intros Hdata Hok n e' Hin.
  destruct (update_existing_spec st aFamilyName e attrs data Hdata)
    as (_ & _ & Hother & (data' & Hdata' & _ & _ & _ & Hmoved & Hkept)
        & Hsub & Hgone & _).
  destruct (Hok n e' (Hsub n e' Hin)) as (d & Hd & Hname).
  destruct (decide (e' = e)) as [->|Hne].
  - assert (d = data) as -> by congruence.
    exists data'. split; [exact Hdata'|].
    destruct (decide (mFamilyName data = ""%string)) as [Hempty|Hnonempty];
      [rewrite Hkept; [exact Hname|now intros [? _]]|].
    destruct (decide (mFamilyName data = aFamilyName)) as [Hsame|Hdiff];
      [rewrite Hkept; [exact Hname|now intros [_ ?]]|].
    destruct Hgone; [now split|]. now rewrite Hname.
  - exists d. split; [|exact Hname]. now rewrite Hother.
Qed.

(** C1.  For a face that owns a (live) entry,
    [FindOrCreateUserFontEntryFromFontFace] returns that same entry.  The
    entry now carries the attributes resolved from the face, with the source
    list it had; no address is added to the entries and no other entry
    changes; no face changes, so no buffer is taken to build a source list;
    and no family gains an entry.  Resolving again, any number of times,
    keeps the set of entries and adds nothing to any family. *)
Theorem existing_entry_is_updated_in_place st (aFamilyName : string) aFontFace
    (aOrigin : StyleOrigin) e data :
  GetUserFontEntry (face st aFontFace) = Some e ->
  entries st !! e = Some data ->
  (exists attrs st',
     resolve_attributes (face st aFontFace) = Returned attrs
     /\ FindOrCreateUserFontEntryFromFontFace st aFamilyName aFontFace aOrigin
        = Returned (Some e, st')
     /\ (exists data', entries st' !! e = Some data'
                       /\ attributes data' = attrs
                       /\ mSrcList data' = mSrcList data
                       /\ mFontFaces data' = mFontFaces data)
     /\ dom (entries st') = dom (entries st)
     /\ (forall e', e' <> e -> entries st' !! e' = entries st !! e')
     /\ faces st' = faces st
     /\ (forall n e', in_family st' n e' -> in_family st n e'))
  /\ (forall n, exists st_n,
        resolve_repeatedly n st aFamilyName aFontFace aOrigin = Returned st_n
        /\ dom (entries st_n) = dom (entries st)
        /\ faces st_n = faces st
        /\ (forall name e', in_family st_n name e' -> in_family st name e')).
Proof.
  intros He Hdata. split.
  - destruct (FindOrCreate_existing st aFamilyName aFontFace aOrigin e He)
      as (attrs & Ha & Hcall).
    destruct (update_existing_spec st aFamilyName e attrs data Hdata)
      as (Hfaces & Hdom & Hother & (data' & Hdata' & Hat & Hsrc & Hff & _)
          & Hsub & _).
    exists attrs, (update_existing st aFamilyName e attrs).
    repeat split; eauto 10.
  - intros n. revert st data He Hdata.
    induction n as [|n IH]; intros st data He Hdata.
    + exists st. simpl. auto.
    + destruct (FindOrCreate_existing st aFamilyName aFontFace aOrigin e He)
        as (attrs & Ha & Hcall).
      destruct (update_existing_spec st aFamilyName e attrs data Hdata)
        as (Hfaces & Hdom & Hother & (data' & Hdata' & _) & Hsub & _).
      destruct (IH (update_existing st aFamilyName e attrs) data')
        as (st_n & Hrun & Hdom_n & Hfaces_n & Hsub_n).
      * unfold face in *. now rewrite Hfaces.
      * exact Hdata'.
      * exists st_n. cbn [resolve_repeatedly]. rewrite Hcall.
        split; [exact Hrun|]. split; [congruence|]. split; [congruence|].
        auto.
Qed.

(** C2.  For a face that owns a (live) entry whose stored family name
    differs from the family name it is resolved under,
    [FindOrCreateUserFontEntryFromFontFace] leaves the entry with an empty
    stored family name and, if a name was stored, takes the entry out of the
    family of that name; entries other than this one stay in the families
    they were in.  If every entry of a family carried the name of that family
    before the call, this still holds after it, no entry is in two families,
    and an entry that had a stored name is in no family at all: it can join
    the new family without being in another one. *)
Theorem family_change_detaches_entry st (aFamilyName : string) aFontFace
    (aOrigin : StyleOrigin) e data :
  GetUserFontEntry (face st aFontFace) = Some e ->
  entries st !! e = Some data ->
  mFamilyName data <> aFamilyName ->
  exists st',
    FindOrCreateUserFontEntryFromFontFace st aFamilyName aFontFace aOrigin
    = Returned (Some e, st')
    /\ (exists data', entries st' !! e = Some data'
                      /\ mFamilyName data' = ""%string)
    /\ (mFamilyName data <> ""%string -> ~ in_family st' (mFamilyName data) e)
    /\ (forall n e', e' <> e -> in_family st' n e' <-> in_family st n e')
    /\ (registry_ok st ->
        registry_ok st' /\ at_most_one_family st'
        /\ (mFamilyName data <> ""%string -> forall n, ~ in_family st' n e)).
Proof.
  intros He Hdata Hdiff.
  destruct (FindOrCreate_existing st aFamilyName aFontFace aOrigin e He)
    as (attrs & Ha & Hcall).
  destruct (update_existing_spec st aFamilyName e attrs data Hdata)
    as (_ & _ & _ & (data' & Hdata' & _ & _ & _ & Hcleared & Hkept)
        & Hsub & Hgone & Hkeep).
  exists (update_existing st aFamilyName e attrs).
  split; [exact Hcall|]. split; [|split; [|split]].
  - exists data'. split; [exact Hdata'|].
    destruct (decide (mFamilyName data = ""%string)) as [Hempty|Hnonempty].
    + rewrite Hkept; [exact Hempty|]. now intros [? _].
    + now apply Hcleared.
  - intros Hnonempty. now apply Hgone.
  - intros n e' Hne. split; [apply Hsub|].
    intros Hin. apply Hkeep; [exact Hin|]. intros _ _. exact Hne.
  - intros Hok.
    assert (Hok' : registry_ok (update_existing st aFamilyName e attrs))
      by now apply (update_existing_registry_ok _ _ _ _ data).
    split; [exact Hok'|]. split; [now apply registry_ok_one_family|].
    intros Hnonempty n Hin.
    destruct (Hok n e (Hsub n e Hin)) as (d & Hd & Hname).
    assert (d = data) as -> by congruence.
    apply Hgone; [now split|]. now rewrite Hname.
Qed.

End RegistryProperties.

(** *** A face whose entry moves from family "Old" to family "New" *)

Lemma existing_entry_is_updated_in_place_witness :
  let st := example_registry
              [(1%nat, example_face false true FontFaceLoadStatus.Loaded None
                         (Some "New"%string) (Some 10%nat))]
              [(10%nat, example_entry "Old" [1%nat])]
              [("Old"%string, [10%nat])] [1%nat] FontFaceSetLoadStatus.Loaded in
  exists st',
    FindOrCreateUserFontEntryFromFontFace (SP := example_prefs) st "New" 1 Author
    = Returned (Some 10%nat, st')
    /\ dom (entries st') = dom (entries st)
    /\ faces st' = faces st.
Proof.
  intros st.
  destruct (existing_entry_is_updated_in_place (SP := example_prefs)
              st "New"%string 1%nat Author 10%nat (example_entry "Old" [1%nat])
              eq_refl eq_refl)
    as [(attrs & st' & _ & Hcall & _ & Hdom & _ & Hfaces & _) _].
  exists st'. auto.
Defined.

Lemma family_change_detaches_entry_witness :
  let st := example_registry
              [(1%nat, example_face false true FontFaceLoadStatus.Loaded None
                         (Some "New"%string) (Some 10%nat))]
              [(10%nat, example_entry "Old" [1%nat])]
              [("Old"%string, [10%nat])] [1%nat] FontFaceSetLoadStatus.Loaded in
  exists st',
    FindOrCreateUserFontEntryFromFontFace (SP := example_prefs) st "New" 1 Author
    = Returned (Some 10%nat, st')
    /\ ~ in_family st' "Old" 10
    /\ (exists data', entries st' !! 10%nat = Some data'
                      /\ mFamilyName data' = ""%string).
Proof.
  intros st.
  destruct (family_change_detaches_entry (SP := example_prefs)
              st "New"%string 1%nat Author 10%nat (example_entry "Old" [1%nat])
              eq_refl eq_refl)
    as (st' & Hcall & Hcleared & Hgone & _).
  - discriminate.
  - exists st'. split; [exact Hcall|]. split; [|exact Hcleared].
    apply Hgone. discriminate.
Defined.

(** ** Matching engine *)

Section MatchingProperties.
Context {FP : FontPropertyTypes} {OW : FontFaceSetOwner}
        {VT : FontFaceSetImplVirtuals} {MS : FontMatchingServices}.

Implicit Types (st : FontFaceSetImpl) (e owner : nat) (aText p : list Z).

Lemma codepoints_NextChar (c : Z) (rest : list Z) :
  codepoints (c :: rest)
  = (NextChar c rest).1 :: codepoints (NextChar c rest).2
  /\ (length (NextChar c rest).2 <= length rest)%nat.
Proof.
  unfold NextChar. cbn [codepoints].
  destruct (negb (IS_SURROGATE c)); [auto|].
  destruct rest as [|c2 rest']; [auto|].
  destruct (NS_IS_HIGH_SURROGATE c && NS_IS_LOW_SURROGATE c2); simpl; auto.
Qed.

(** The loop answers whether some codepoint is in range. *)
Lemma HasAnyCharacterInUnicodeRange_loop_spec (fuel : nat) st e p :
  (length p <= fuel)%nat ->
  HasAnyCharacterInUnicodeRange_loop fuel st e p = Returned (entry_covers st e p).
Proof.
  revert p. induction fuel as [|fuel IH]; intros [|c rest] Hlen;
    try reflexivity; [simpl in Hlen; lia|].
  cbn [HasAnyCharacterInUnicodeRange_loop]. unfold entry_covers.
  destruct (codepoints_NextChar c rest) as [-> Hshorter].
  destruct (NextChar c rest) as [ch p']. cbn [fst snd existsb] in *.
  destruct (CharacterInUnicodeRange st e ch); [reflexivity|].
  apply IH. simpl in Hlen. lia.
Qed.

Lemma HasAnyCharacterInUnicodeRange_spec st e aText :
  HasAnyCharacterInUnicodeRange st e aText = Returned (entry_covers st e aText).
Proof. now apply HasAnyCharacterInUnicodeRange_loop_spec. Qed.

Lemma FindFontFaceOwners_elem st e (aOwners : gset nat) owner :
  owner ∈ FindFontFaceOwners st e aOwners
  <-> owner ∈ aOwners
      \/ exists f, f ∈ mFontFaces (entry st e) /\ GetOwner (face st f) = Some owner.
Proof.
  unfold FindFontFaceOwners. revert aOwners.
  induction (mFontFaces (entry st e)) as [|f fs IH]; intros aOwners; simpl.
  - split; [auto|]. intros [?|(f & Hf & _)]; [assumption|inversion Hf].
  - rewrite IH. destruct (GetOwner (face st f)) as [o|] eqn:Ho.
    + rewrite elem_of_union, elem_of_singleton. split.
      * intros [[->|?]|(f' & Hf' & Hown)]; [right; exists f|auto|right; exists f'];
          (split; [|assumption]); [left|now right].
      * intros [?|(f' & [->|Hf']%elem_of_cons & Hown)]; [auto| |eauto].
        left. left. congruence.
    + split.
      * intros [?|(f' & Hf' & Hown)]; [auto|]. right. exists f'.
        split; [now right|assumption].
      * intros [?|(f' & [->|Hf']%elem_of_cons & Hown)]; [auto|congruence|eauto].
Qed.

Lemma match_entries_spec st aText (es : list nat) (matchingFaces : gset nat) :
  exists result,
    match_entries st aText es matchingFaces = Returned result
    /\ forall owner,
         owner ∈ result
         <-> owner ∈ matchingFaces
             \/ exists e f, e ∈ es /\ entry_covers st e aText = true
                            /\ f ∈ mFontFaces (entry st e)
                            /\ GetOwner (face st f) = Some owner.
Proof.
  revert matchingFaces. induction es as [|e es IH]; intros matchingFaces.
  - exists matchingFaces. split; [reflexivity|]. intros owner.
    split; [auto|]. intros [?|(e & f & He & _)]; [assumption|inversion He].
  - cbn [match_entries]. rewrite HasAnyCharacterInUnicodeRange_spec.
    cbn [mbind outcome_bind].
    destruct (IH (if entry_covers st e aText
                  then FindFontFaceOwners st e matchingFaces
                  else matchingFaces)) as (result & -> & Hresult).
    exists result. split; [reflexivity|]. intros owner. rewrite Hresult.
    destruct (entry_covers st e aText) eqn:Hcov.
    + rewrite FindFontFaceOwners_elem. split.
      * intros [[?|(f & Hf & Hown)]|(e' & f & He' & Hrest)]; [auto| |].
        -- right. exists e, f. split; [left|auto].
        -- right. exists e', f. split; [now right|exact Hrest].
      * intros [?|(e' & f & [->|He']%elem_of_cons & Hc & Hf & Hown)];
          [auto|eauto|right; eauto 10].
    + split.
      * intros [?|(e' & f & He' & Hrest)]; [auto|].
        right. exists e', f. split; [now right|exact Hrest].
      * intros [?|(e' & f & [->|He']%elem_of_cons & Hc & Hf & Hown)];
          [auto|congruence|right; eauto 10].
Qed.

Lemma match_families_spec st aText (aStyle : gfxFontStyle)
    (familyList : list StyleSingleFontFamily) (matchingFaces : gset nat) :
  exists result,
    match_families st aText aStyle familyList matchingFaces = Returned result
    /\ forall owner,
         owner ∈ result
         <-> owner ∈ matchingFaces
             \/ matching_owner st aStyle familyList aText owner.
Proof.
  revert matchingFaces.
  induction familyList as [|[name|generic] rest IH]; intros matchingFaces.
  - exists matchingFaces. split; [reflexivity|]. intros owner.
    split; [auto|]. intros [?|(e & f & (n & l & Hn & _) & _)];
      [assumption|inversion Hn].
  - cbn [match_families].
    assert (Hskip : forall owner,
              matching_owner st aStyle (FamilyName name :: rest) aText owner
              <-> matching_owner st aStyle rest aText owner
                  \/ exists family e f,
                       LookupFamily st name = Some family
                       /\ e ∈ FindAllFontsForStyle st family aStyle
                       /\ entry_covers st e aText = true
                       /\ f ∈ mFontFaces (entry st e)
                       /\ GetOwner (face st f) = Some owner).
    { intros owner. split.
      - intros (e & f & (n & l & [Hn|Hn]%elem_of_cons & Hl & He & Hc) & Hf & Ho).
        + injection Hn as ->. right. eauto 10.
        + left. exists e, f. split; [|auto]. exists n, l. auto.
      - intros [(e & f & (n & l & Hn & Hrest) & Hf)|(l & e & f & Hl & He & Hc & Hf)].
        + exists e, f. split; [|exact Hf]. exists n, l. split; [now right|exact Hrest].
        + exists e, f. split; [|exact Hf]. exists name, l. split; [left|auto]. }
    destruct (LookupFamily st name) as [family|] eqn:Hfam.
    + destruct (match_entries_spec st aText
                  (FindAllFontsForStyle st family aStyle) matchingFaces)
        as (found & -> & Hfound).
      cbn [mbind outcome_bind].
      destruct (IH found) as (result & -> & Hresult).
      exists result. split; [reflexivity|]. intros owner.
      rewrite Hresult, Hfound, Hskip. split.
      * intros [[?|(e & f & He & Hc & Hf)]|?]; [auto| |auto].
        right. right. exists family, e, f. auto.
      * intros [?|[?|(l & e & f & [= <-] & He & Hc & Hf)]]; [auto|auto|].
        left. right. eauto 10.
    + destruct (IH matchingFaces) as (result & -> & Hresult).
      exists result. split; [reflexivity|]. intros owner.
      rewrite Hresult, Hskip. split; [intros [?|?]; auto|].
      intros [?|[?|(l & _ & _ & [=] & _)]]; auto.
  - cbn [match_families].
    destruct (IH matchingFaces) as (result & -> & Hresult).
    exists result. split; [reflexivity|]. intros owner. rewrite Hresult.
    split; (intros [?|(e & f & (n & l & Hn & Hrest) & Hf)]; [auto|]);
      right; exists e, f; (split; [|exact Hf]); exists n, l.
    + split; [now right|exact Hrest].
    + apply elem_of_cons in Hn as [[=]|Hn]. auto.
Qed.

(** The second pass appends the owners that are in the set, in the order of
    the records. *)
Lemma FindMatchingFontFaces_records_spec st (records : list FontFaceRecord)
    (aMatchingFaces : gset nat) (aFontFaces : list nat) :
  FindMatchingFontFaces_records st records aMatchingFaces aFontFaces
  = aFontFaces
    ++ filter (fun owner => owner ∈ aMatchingFaces)
         (omap (fun rec => GetOwner (face st (mFontFace rec))) records).
Proof.
  revert aFontFaces. induction records as [|rec records IH]; intros aFontFaces.
  - simpl. now rewrite app_nil_r.
  - cbn [FindMatchingFontFaces_records omap list_omap]. rewrite IH.
    destruct (GetOwner (face st (mFontFace rec))) as [owner|]; [|reflexivity].
    rewrite filter_cons. destruct (decide (owner ∈ aMatchingFaces)).
    + now rewrite <- app_assoc.
    + reflexivity.
Qed.

Lemma record_owners_NoDup st :
  NoDup (mFontFace <$> mNonRuleFaces st) -> owners_are_distinct st ->
  NoDup (record_owners st).
Proof.
  unfold record_owners. intros Hnodup Hdistinct.
  induction (mNonRuleFaces st) as [|rec records IH]; [constructor|].
  rewrite fmap_cons in Hnodup. apply NoDup_cons in Hnodup as [Hnotin Hnodup].
  cbn [omap list_omap].
  destruct (GetOwner (face st (mFontFace rec))) as [owner|] eqn:Ho; [|auto].
  apply NoDup_cons. split; [|auto].
  intros (rec' & Hrec' & Ho')%list_elem_of_omap. apply Hnotin.
  rewrite (Hdistinct _ _ _ Ho Ho'). now apply list_elem_of_fmap_2.
Qed.

(** What [FindMatchingFontFaces] appends when the shorthand parses. *)
Lemma FindMatchingFontFaces_spec st (aFont : string) aText (aFontFaces : list nat)
    familyList aWeight aStretch aStyle :
  ParseFontShorthandForMatching st aFont
  = inr (familyList, aWeight, aStretch, aStyle) ->
  let requested :=
    {| style := aStyle; weight := aWeight; stretch := aStretch |} in
  exists matchingFaces : gset nat,
    (forall owner,
       owner ∈ matchingFaces
       <-> matching_owner st requested familyList aText owner)
    /\ FindMatchingFontFaces st aFont aText aFontFaces
       = Returned (NoError,
                   aFontFaces
                   ++ filter (fun owner => owner ∈ matchingFaces)
                        (record_owners st)).
Proof.
  intros Hparse requested. unfold FindMatchingFontFaces. rewrite Hparse.
  destruct (match_families_spec st aText requested familyList ∅)
    as (found & Hrun & Hfound).
  fold requested. rewrite Hrun. cbn [mbind outcome_bind].
  exists found. split.
  - intros owner. rewrite Hfound. split; [intros [Hin|?]; [|assumption]|auto].
    now apply not_elem_of_empty in Hin.
  - destruct (decide (found = ∅)) as [->|Hne].
    + replace (filter (fun owner => owner ∈ (∅ : gset nat)) (record_owners st))
        with (@nil nat); [now rewrite app_nil_r|].
      induction (record_owners st) as [|o os IH]; [reflexivity|].
      rewrite filter_cons. destruct (decide (o ∈ (∅ : gset nat))) as [Hin|_];
        [now apply not_elem_of_empty in Hin|exact IH].
    + now rewrite FindMatchingFontFaces_records_spec.
Qed.

End MatchingProperties.

(** C4.  [HasAnyCharacterInUnicodeRange] answers whether some codepoint of
    the text is in the unicode-range of the entry.  When the shorthand does
    not parse, [FindMatchingFontFaces] reports the error and appends nothing.
    When it parses, the call appends to [aFontFaces] the owners of the
    recorded faces that are in the set of matching owners, in the order of
    the records: the result is a sublist of the record owners, has no
    duplicate when the records and the owners have none, and, when every
    entry lists the faces that use it, contains exactly the owners of the
    recorded faces whose entry belongs to a family named in the shorthand, is
    selected by the style matching of that family, and covers a codepoint of
    the text.  For family "A" with one entry of weight 400 covering
    U+0041-005A, the shorthand "400 10px A" matches the face for "Hello" and
    matches nothing for "hello". *)
Theorem matching_faces_in_declaration_order :
  (forall (FP : FontPropertyTypes) (OW : FontFaceSetOwner)
          (VT : FontFaceSetImplVirtuals) (MS : FontMatchingServices)
          (st : FontFaceSetImpl) (aFont : string) (aText : list Z)
          (aFontFaces : list nat),
     (forall e,
        HasAnyCharacterInUnicodeRange st e aText
        = Returned (existsb (CharacterInUnicodeRange st e) (codepoints aText)))
     /\ (forall aRv,
           ParseFontShorthandForMatching st aFont = inl aRv ->
           FindMatchingFontFaces st aFont aText aFontFaces
           = Returned (aRv, aFontFaces))
     /\ (forall familyList aWeight aStretch aStyle,
           ParseFontShorthandForMatching st aFont
           = inr (familyList, aWeight, aStretch, aStyle) ->
           let requested :=
             {| style := aStyle; weight := aWeight; stretch := aStretch |} in
           exists result,
             FindMatchingFontFaces st aFont aText aFontFaces
             = Returned (NoError, aFontFaces ++ result)
             /\ sublist result (record_owners st)
             /\ (forall owner,
                   owner ∈ result
                   <-> owner ∈ record_owners st
                       /\ matching_owner st requested familyList aText owner)
             /\ (NoDup (mFontFace <$> mNonRuleFaces st) ->
                 owners_are_distinct st -> NoDup result)
             /\ (entries_list_their_faces st -> owners_are_distinct st ->
                 forall owner,
                   owner ∈ result
                   <-> exists rec e,
                         rec ∈ mNonRuleFaces st
                         /\ GetOwner (face st (mFontFace rec)) = Some owner
                         /\ GetUserFontEntry (face st (mFontFace rec)) = Some e
                         /\ matching_entry st requested familyList aText e)))
  /\ FindMatchingFontFaces (VT := example_virtuals) (MS := example_matching)
       example_family_A "400 10px A" text_Hello []
     = Returned (NoError, [100%nat])
  /\ FindMatchingFontFaces (VT := example_virtuals) (MS := example_matching)
       example_family_A "400 10px A" text_hello []
     = Returned (NoError, []).
Proof.
  split; [|split; vm_compute; reflexivity].
  intros FP OW VT MS st aFont aText aFontFaces. split; [|split].
  - intros e. apply HasAnyCharacterInUnicodeRange_spec.
  - intros aRv Hparse. unfold FindMatchingFontFaces. now rewrite Hparse.
  - intros familyList aWeight aStretch aStyle Hparse requested.
    destruct (FindMatchingFontFaces_spec st aFont aText aFontFaces
                familyList aWeight aStretch aStyle Hparse)
      as (matchingFaces & Hmatching & Hcall).
    fold requested in Hmatching.
    exists (filter (fun owner => owner ∈ matchingFaces) (record_owners st)).
    split; [exact Hcall|]. split; [apply sublist_filter|].
    assert (Helem : forall owner,
              owner ∈ filter (fun owner => owner ∈ matchingFaces) (record_owners st)
              <-> owner ∈ record_owners st
                  /\ matching_owner st requested familyList aText owner).
    { intros owner. rewrite list_elem_of_filter, Hmatching. tauto. }
    split; [exact Helem|]. split.
    + intros Hnodup Hdistinct. apply NoDup_filter.
      now apply record_owners_NoDup.
    + intros Hlists Hdistinct owner. rewrite Helem. unfold record_owners.
      rewrite list_elem_of_omap. split.
      * intros [(rec & Hrec & Ho) (e & f & He & Hf & Hof)].
        exists rec, e. repeat split; try assumption.
        apply Hlists. now rewrite (Hdistinct _ _ _ Ho Hof).
      * intros (rec & e & Hrec & Ho & He & Hmatch). split; [eauto|].
        exists e, (mFontFace rec). repeat split; try assumption.
        now apply Hlists.
Qed.

(** The set of the example: its one face is found for "Hello". *)
Lemma matching_faces_in_declaration_order_witness :
  exists result,
    FindMatchingFontFaces (VT := example_virtuals) (MS := example_matching)
      example_family_A "400 10px A" text_Hello []
    = Returned (NoError, [] ++ result)
    /\ sublist result (record_owners example_family_A)
    /\ NoDup result.
Proof.
  destruct matching_faces_in_declaration_order as [Hgeneral _].
  destruct (Hgeneral example_font_properties example_owner example_virtuals
              example_matching example_family_A "400 10px A"%string text_Hello [])
    as (_ & _ & Hparsed).
  destruct (Hparsed [FamilyName "A"] (400 : @FontWeight example_font_properties)
              (100 : @FontStretch example_font_properties)
              (0 : @FontSlantStyle example_font_properties) eq_refl)
    as (result & Hcall & Hsub & _ & Hnodup & _).
  exists result. split; [exact Hcall|]. split; [exact Hsub|].
  apply Hnodup.
  - apply (bool_decide_unpack _). vm_compute. exact I.
  - intros f1 f2 owner. unfold face, example_family_A, example_registry. simpl.
    destruct (decide (f1 = 1%nat)) as [->|H1], (decide (f2 = 1%nat)) as [->|H2];
      try reflexivity;
      rewrite ?lookup_total_insert_eq, ?lookup_total_insert_ne by congruence;
      rewrite ?lookup_total_empty; simpl; congruence.
Defined.

(* ===================================================================== *)
(** * Part III: further properties of the file                            *)
(* ===================================================================== *)

(** ** The record list *)

Section RecordListProperties.
Context {FP : FontPropertyTypes} {OW : FontFaceSetOwner}
        {VT : FontFaceSetImplVirtuals}.

Implicit Types (st : FontFaceSetImpl) (aFontFace f : nat)
               (records : list FontFaceRecord).

Lemma keeps_set_fields_membership (g : FontFaceSetImpl -> FontFaceSetImpl) :
  keeps_set_fields g -> keeps_membership g.
Proof.
  intros Hg st. destruct (Hg st) as (Hf & Hr & _). now apply same_membership_heap.
Qed.

Lemma keeps_set_fields_coordinator (g : FontFaceSetImpl -> FontFaceSetImpl) :
  keeps_set_fields g -> keeps_coordinator g.
Proof.
  intros Hg st. destruct (Hg st) as (Hf & Hr & Hs & Hd & Hh & Hdirty).
  repeat split; try assumption. now apply cache_ok_fields.
Qed.

Lemma same_membership_sym st st' : same_membership st st' -> same_membership st' st.
Proof.
  intros [Hr Hf]. split; [easy|]. intros f. destruct (Hf f). now split.
Qed.

Lemma records_are_members_same st st' :
  same_membership st st' -> records_are_members st' -> records_are_members st.
Proof.
  intros [Hr Hf] [Hnodup Hmem]. unfold records_are_members. rewrite Hr.
  split; [exact Hnodup|]. intros f Hin. destruct (Hf f) as [-> ->]. now apply Hmem.
Qed.

Lemma same_membership_set_Status st f (status : FontFaceLoadStatus.t) :
  same_membership (update_face f (set_Status status) st) st.
Proof.
  split; [reflexivity|]. intros g. unfold IsInFontFaceSet.
  destruct (decide (f = g)) as [->|Hne].
  - now rewrite face_update_face_eq.
  - now rewrite face_update_face_ne.
Qed.

Lemma OnFontFaceStatusChanged_frame st f :
  faces (OnFontFaceStatusChanged st f) = faces st
  /\ mNonRuleFaces (OnFontFaceStatusChanged st f) = mNonRuleFaces st.
Proof.
  unfold OnFontFaceStatusChanged.
  destruct (decide _).
  - destruct (CheckLoadingStarted_frame (set_mHasLoadingFontFacesIsDirty true st))
      as (Hf & Hr & _). now split.
  - unfold DispatchCheckLoadingFinishedAfterDelay, AppendTask, DispatchToOwningThread.
    destruct (mDelayedLoadCheck _); cbn [negb]; [now split|].
    destruct (CurrentServoStyleSet _); now split.
Qed.

Lemma run_task_frame (task : Task) st :
  faces (run_task task st) = faces st
  /\ mNonRuleFaces (run_task task st) = mNonRuleFaces st.
Proof.
  destruct task; cbn [run_task].
  - unfold OnLoadingStarted. destruct (mOwner st); now split.
  - unfold OnLoadingFinished. destruct (mOwner st); now split.
  - unfold CheckLoadingFinishedAfterDelay.
    destruct (CheckLoadingFinished_frame (set_mDelayedLoadCheck false st))
      as (Hf & Hr & _). now split.
Qed.

(** Where [remove_first_record] cuts the list. *)
Lemma remove_first_record_Some aFontFace records records' :
  remove_first_record aFontFace records = Some records' ->
  exists before rec after,
    records = before ++ rec :: after
    /\ mFontFace rec = aFontFace
    /\ (aFontFace ∉ mFontFace <$> before)
    /\ records' = before ++ after.
Proof.
  revert records'. induction records as [|rec records IH]; intros records';
    [discriminate|].
  simpl. destruct (decide (mFontFace rec = aFontFace)) as [Heq|Hne].
  - intros [= <-]. exists [], rec, records. repeat split; try assumption.
    apply not_elem_of_nil.
  - destruct (remove_first_record aFontFace records) as [l|]; [|discriminate].
    intros [= <-]. destruct (IH l eq_refl) as (before & r & after & -> & Hr & Hnot & ->).
    exists (rec :: before), r, after. repeat split; try assumption.
    rewrite fmap_cons, not_elem_of_cons. split; [congruence|assumption].
Qed.

Lemma remove_first_record_is_Some aFontFace records :
  aFontFace ∈ mFontFace <$> records ->
  is_Some (remove_first_record aFontFace records).
Proof.
  destruct (remove_first_record aFontFace records) eqn:Hr; [eauto|].
  induction records as [|rec records IH]; intros Hin; [inversion Hin|].
  simpl in Hr. destruct (decide (mFontFace rec = aFontFace)); [discriminate|].
  rewrite fmap_cons in Hin. apply elem_of_cons in Hin as [?|Hin]; [congruence|].
  destruct (remove_first_record aFontFace records); [discriminate|]. now apply IH.
Qed.

(** Without duplicates, what is removed is every record of the face. *)
Lemma remove_first_record_filter aFontFace records records' :
  NoDup (mFontFace <$> records) ->
  remove_first_record aFontFace records = Some records' ->
  records' = filter (fun rec => mFontFace rec <> aFontFace) records
  /\ (aFontFace ∉ mFontFace <$> records')
  /\ NoDup (mFontFace <$> records').
Proof.
  intros Hnodup Hrem.
  destruct (remove_first_record_Some _ _ _ Hrem)
    as (before & rec & after & -> & Hrec & Hbefore & ->).
  rewrite fmap_app, fmap_cons in Hnodup.
  apply NoDup_app in Hnodup as (Hnd1 & Hdisj & Hnd2).
  apply NoDup_cons in Hnd2 as [Hafter Hnd2]. rewrite Hrec in Hafter.
  assert (Hfilter : forall l : list FontFaceRecord,
            aFontFace ∉ mFontFace <$> l ->
            filter (fun rec => mFontFace rec <> aFontFace) l = l).
  { induction l as [|r l IHl]; [reflexivity|].
    rewrite fmap_cons, not_elem_of_cons. intros [Hne Hnot].
    rewrite filter_cons_True by congruence. now rewrite IHl. }
  split; [|split].
  - rewrite filter_app, filter_cons_False by (intros Hne; now apply Hne).
    now rewrite !Hfilter.
  - rewrite fmap_app. rewrite elem_of_app. now intros [?|?].
  - rewrite fmap_app. apply NoDup_app. split; [exact Hnd1|]. split; [|exact Hnd2].
    intros x Hx Hx'. apply (Hdisj x Hx). now right.
Qed.

(** The state [Add] returns when it succeeds. *)
Lemma Add_success st aFontFace :
  keeps_membership MarkUserFontSetDirty ->
  let st1 := FlushUserFontSet st in
  IsInFontFaceSet st1 aFontFace = false ->
  HasRule (face st1 aFontFace) = false ->
  exists st2,
    Add st aFontFace = (true, NoError, st2)
    /\ same_membership st2
         (set_mNonRuleFaces
            (mNonRuleFaces st1 ++ [{| mFontFace := aFontFace; mOrigin := None |}])
            (AddFontFaceSet aFontFace st1)).
Proof.
  intros Hmark st1 Hmember Hrule.
  set (appended := set_mNonRuleFaces
                     (mNonRuleFaces st1
                      ++ [{| mFontFace := aFontFace; mOrigin := None |}])
                     (AddFontFaceSet aFontFace st1)).
  set (dirty := set_mNonRuleFacesDirty true appended).
  exists (CheckLoadingStarted
            (set_mHasLoadingFontFacesIsDirty true (MarkUserFontSetDirty dirty))).
  split.
  - unfold Add. fold st1. now rewrite Hmember, Hrule.
  - eapply same_membership_trans; [apply same_membership_CheckLoadingStarted|].
    apply (same_membership_trans _ (MarkUserFontSetDirty dirty));
      [now apply same_membership_heap|].
    apply (same_membership_trans _ dirty); [apply Hmark|].
    now apply same_membership_heap.
Qed.

(** The state [Delete] returns when it succeeds. *)
Lemma Delete_success st aFontFace records' :
  keeps_membership MarkUserFontSetDirty ->
  let st1 := FlushUserFontSet st in
  HasRule (face st1 aFontFace) = false ->
  remove_first_record aFontFace (mNonRuleFaces st1) = Some records' ->
  exists st2,
    Delete st aFontFace = (true, st2)
    /\ same_membership st2
         (RemoveFontFaceSet aFontFace (set_mNonRuleFaces records' st1)).
Proof.
  intros Hmark st1 Hrule Hrem.
  set (removed := RemoveFontFaceSet aFontFace (set_mNonRuleFaces records' st1)).
  set (dirty := set_mNonRuleFacesDirty true removed).
  exists (CheckLoadingFinished
            (set_mHasLoadingFontFacesIsDirty true (MarkUserFontSetDirty dirty))).
  split.
  - unfold Delete. fold st1. now rewrite Hrule, Hrem.
  - eapply same_membership_trans; [apply same_membership_CheckLoadingFinished|].
    apply (same_membership_trans _ (MarkUserFontSetDirty dirty));
      [now apply same_membership_heap|].
    apply (same_membership_trans _ dirty); [apply Hmark|].
    now apply same_membership_heap.
Qed.

Lemma membership_AddFontFaceSet st aFontFace f :
  IsInFontFaceSet (AddFontFaceSet aFontFace st) f
  = (if decide (f = aFontFace) then true else IsInFontFaceSet st f)
  /\ HasRule (face (AddFontFaceSet aFontFace st) f) = HasRule (face st f).
Proof.
  unfold IsInFontFaceSet, AddFontFaceSet. destruct (decide (f = aFontFace)) as [->|Hne].
  - now rewrite face_update_face_eq.
  - rewrite face_update_face_ne by congruence. now split.
Qed.

Lemma membership_RemoveFontFaceSet st aFontFace f :
  IsInFontFaceSet (RemoveFontFaceSet aFontFace st) f
  = (if decide (f = aFontFace) then false else IsInFontFaceSet st f)
  /\ HasRule (face (RemoveFontFaceSet aFontFace st) f) = HasRule (face st f).
Proof.
  unfold IsInFontFaceSet, RemoveFontFaceSet.
  destruct (decide (f = aFontFace)) as [->|Hne].
  - now rewrite face_update_face_eq.
  - rewrite face_update_face_ne by congruence. now split.
Qed.

(** X1.  Every operation of the set keeps its record list free of
    duplicates and made of members that do not come from a rule, for virtual
    methods that leave the fields of the set alone.  So when [Add] goes on to
    append a record, the face has none yet: the DEBUG assertion of [Add]
    holds. *)
Theorem records_stay_distinct_members (op : Operation) st :
  keeps_set_fields FlushUserFontSet ->
  keeps_set_fields MarkUserFontSetDirty ->
  records_are_members st ->
  records_are_members (run_operation op st)
  /\ (forall aFontFace,
        IsInFontFaceSet (FlushUserFontSet st) aFontFace = false ->
        has_no_record (FlushUserFontSet st) aFontFace).
Proof.
  intros Hflush%keeps_set_fields_membership Hmark%keeps_set_fields_membership Hinv.
  assert (Hinv1 : records_are_members (FlushUserFontSet st))
    by (eapply records_are_members_same; [apply Hflush|exact Hinv]).
  split.
  2:{ intros f Hmember Hin. destruct Hinv1 as [_ Hmem].
      destruct (Hmem f Hin) as [Hm _]. congruence. }
  destruct op as [f|f| |f status| | |task]; cbn [run_operation].
  - (* Add *)
    destruct (IsInFontFaceSet (FlushUserFontSet st) f) eqn:Hmember;
      [unfold Add; now rewrite Hmember|].
    destruct (HasRule (face (FlushUserFontSet st) f)) eqn:Hrule;
      [unfold Add; now rewrite Hmember, Hrule|].
    destruct (Add_success st f Hmark Hmember Hrule) as (st2 & -> & Hsame).
    cbn [snd]. eapply records_are_members_same; [exact Hsame|].
    destruct Hinv1 as [Hnodup Hmem]. split.
    + cbn [mNonRuleFaces set_mNonRuleFaces]. rewrite fmap_app. simpl.
      apply NoDup_app. split; [exact Hnodup|]. split; [|apply NoDup_singleton].
      intros x Hx ->%list_elem_of_singleton.
      destruct (Hmem f Hx) as [Hm _]. congruence.
    + intros g. cbn [mNonRuleFaces set_mNonRuleFaces]. rewrite fmap_app. simpl.
      intros Hg.
      change (IsInFontFaceSet (set_mNonRuleFaces ?l ?s) g)
        with (IsInFontFaceSet s g).
      change (face (set_mNonRuleFaces ?l ?s) g) with (face s g).
      destruct (membership_AddFontFaceSet (FlushUserFontSet st) f g) as [-> ->].
      destruct (decide (g = f)) as [->|Hne]; [now split|].
      apply elem_of_app in Hg as [Hg|Hg%list_elem_of_singleton]; [|contradiction].
      now apply Hmem.
  - (* Delete *)
    destruct (HasRule (face (FlushUserFontSet st) f)) eqn:Hrule;
      [unfold Delete; now rewrite Hrule|].
    destruct (remove_first_record f (mNonRuleFaces (FlushUserFontSet st)))
      as [records'|] eqn:Hrem; [|unfold Delete; now rewrite Hrule, Hrem].
    destruct (Delete_success st f records' Hmark Hrule Hrem) as (st2 & -> & Hsame).
    cbn [snd]. eapply records_are_members_same; [exact Hsame|].
    destruct Hinv1 as [Hnodup Hmem].
    destruct (remove_first_record_filter _ _ _ Hnodup Hrem) as (Hfilter & Hgone & Hnodup').
    split; [exact Hnodup'|]. intros g Hg.
    change (mNonRuleFaces (RemoveFontFaceSet f (set_mNonRuleFaces records' ?s)))
      with records' in Hg.
    destruct (membership_RemoveFontFaceSet
                (set_mNonRuleFaces records' (FlushUserFontSet st)) f g) as [-> ->].
    destruct (decide (g = f)) as [->|Hne]; [contradiction|].
    apply Hmem. rewrite Hfilter in Hg.
    apply list_elem_of_fmap in Hg as (rec & -> & Hrec%list_elem_of_filter).
    apply list_elem_of_fmap_2. apply Hrec.
  - (* Clear *)
    unfold Clear.
    destruct (mNonRuleFaces (FlushUserFontSet st)) as [|rec records] eqn:Hrec;
      [exact Hinv1|].
    split.
    + destruct (CheckLoadingFinished_frame
                  (set_mHasLoadingFontFacesIsDirty true
                     (MarkUserFontSetDirty
                        (set_mNonRuleFacesDirty true
                           (set_mNonRuleFaces []
                              (remove_all_from_set (rec :: records)
                                 (FlushUserFontSet st)))))))
        as (_ & -> & _).
      cbn [mNonRuleFaces set_mHasLoadingFontFacesIsDirty].
      destruct (Hmark (set_mNonRuleFacesDirty true
                         (set_mNonRuleFaces []
                            (remove_all_from_set (rec :: records)
                               (FlushUserFontSet st))))) as [-> _].
      constructor.
    + intros g Hg. exfalso. revert Hg.
      destruct (CheckLoadingFinished_frame
                  (set_mHasLoadingFontFacesIsDirty true
                     (MarkUserFontSetDirty
                        (set_mNonRuleFacesDirty true
                           (set_mNonRuleFaces []
                              (remove_all_from_set (rec :: records)
                                 (FlushUserFontSet st)))))))
        as (_ & -> & _).
      cbn [mNonRuleFaces set_mHasLoadingFontFacesIsDirty].
      destruct (Hmark (set_mNonRuleFacesDirty true
                         (set_mNonRuleFaces []
                            (remove_all_from_set (rec :: records)
                               (FlushUserFontSet st))))) as [-> _].
      apply not_elem_of_nil.
  - (* a face reports a change of status *)
    eapply records_are_members_same; [|exact Hinv].
    eapply same_membership_trans; [|apply (same_membership_set_Status st f status)].
    apply same_membership_heap; apply OnFontFaceStatusChanged_frame.
  - eapply records_are_members_same;
      [apply same_membership_CheckLoadingStarted|exact Hinv].
  - eapply records_are_members_same;
      [apply same_membership_CheckLoadingFinished|exact Hinv].
  - eapply records_are_members_same; [|exact Hinv].
    apply same_membership_heap; apply run_task_frame.
Qed.

(** X2.  In a set whose record list, once flushed, has no duplicates and
    holds only members that do not come from a rule, [Delete] of a recorded
    face succeeds and removes exactly the record of that face: the other
    records keep their order, the face is no longer a member and every other
    face is a member as before.  A second [Delete] of the face fails and
    only flushes, and the face can be added again.  This holds for virtual
    [FlushUserFontSet] and [MarkUserFontSetDirty] that leave the record list
    and the membership flag and rule origin of every face alone; they may
    change everything else, such as the entry of a face. *)
Theorem Delete_removes_one_record st aFontFace :
  keeps_membership FlushUserFontSet ->
  keeps_membership MarkUserFontSetDirty ->
  let st1 := FlushUserFontSet st in
  records_are_members st1 ->
  aFontFace ∈ mFontFace <$> mNonRuleFaces st1 ->
  exists st2,
    Delete st aFontFace = (true, st2)
    /\ mNonRuleFaces st2
       = filter (fun rec => mFontFace rec <> aFontFace) (mNonRuleFaces st1)
    /\ IsInFontFaceSet st2 aFontFace = false
    /\ (forall f, f <> aFontFace -> IsInFontFaceSet st2 f = IsInFontFaceSet st1 f)
    /\ Delete st2 aFontFace = (false, FlushUserFontSet st2)
    /\ (Add st2 aFontFace).1 = (true, NoError).
Proof.
  intros Hflush Hmark st1 [Hnodup Hmem] Hin.
  destruct (Hmem aFontFace Hin) as [_ Hrule].
  destruct (remove_first_record_is_Some _ _ Hin) as [records' Hrem].
  destruct (remove_first_record_filter _ _ _ Hnodup Hrem) as (Hfilter & Hgone & _).
  destruct (Delete_success st aFontFace records' Hmark Hrule Hrem)
    as (st2 & Hdel & [Hrec2 Hmem2]).
  exists st2. split; [exact Hdel|].
  change (mNonRuleFaces (RemoveFontFaceSet aFontFace
                           (set_mNonRuleFaces records' ?s)))
    with records' in Hrec2.
  assert (Hmember2 : forall f,
            IsInFontFaceSet st2 f
            = (if decide (f = aFontFace) then false else IsInFontFaceSet st1 f)
            /\ HasRule (face st2 f) = HasRule (face st1 f)).
  { intros f. destruct (Hmem2 f) as [-> ->].
    apply (membership_RemoveFontFaceSet (set_mNonRuleFaces records' st1)). }
  split; [now rewrite Hrec2|]. split.
  { destruct (Hmember2 aFontFace) as [-> _]. now destruct (decide _). }
  split.
  { intros f Hne. destruct (Hmember2 f) as [-> _]. now destruct (decide _). }
  destruct (Hflush st2) as [Hrec3 Hmem3]. split.
  - unfold Delete. destruct (Hmem3 aFontFace) as [_ ->].
    destruct (Hmember2 aFontFace) as [_ ->]. fold st1. rewrite Hrule.
    rewrite remove_first_record_None; [reflexivity|]. now rewrite Hrec3, Hrec2.
  - unfold Add. destruct (Hmem3 aFontFace) as [-> ->].
    destruct (Hmember2 aFontFace) as [-> ->].
    destruct (decide (aFontFace = aFontFace)); [|congruence]. now rewrite Hrule.
Qed.

(** X3.  [Add] of a face that, once the set is flushed, is neither a
    member nor rule-derived succeeds: the record of the face is the last of
    the list, the face is a member and the membership of every other face
    is as before.  Adding the face again fails without an error and only
    flushes, which leaves the record list as it is.  This holds for virtual
    [FlushUserFontSet] and [MarkUserFontSetDirty] that leave the record list
    and the membership flag and rule origin of every face alone; they may
    change everything else, such as the entry of a face. *)
Theorem Add_again_is_refused st aFontFace :
  keeps_membership FlushUserFontSet ->
  keeps_membership MarkUserFontSetDirty ->
  let st1 := FlushUserFontSet st in
  IsInFontFaceSet st1 aFontFace = false ->
  HasRule (face st1 aFontFace) = false ->
  exists st2,
    Add st aFontFace = (true, NoError, st2)
    /\ mNonRuleFaces st2
       = mNonRuleFaces st1 ++ [{| mFontFace := aFontFace; mOrigin := None |}]
    /\ IsInFontFaceSet st2 aFontFace = true
    /\ (forall f, f <> aFontFace -> IsInFontFaceSet st2 f = IsInFontFaceSet st1 f)
    /\ Add st2 aFontFace = (false, NoError, FlushUserFontSet st2)
    /\ mNonRuleFaces (FlushUserFontSet st2) = mNonRuleFaces st2.
Proof.
  intros Hflush Hmark st1 Hmember Hrule.
  destruct (Add_success st aFontFace Hmark Hmember Hrule)
    as (st2 & Hadd & [Hrec2 Hmem2]).
  exists st2. split; [exact Hadd|]. split; [exact Hrec2|].
  assert (Hmember2 : forall f,
            IsInFontFaceSet st2 f
            = (if decide (f = aFontFace) then true else IsInFontFaceSet st1 f)).
  { intros f. destruct (Hmem2 f) as [-> _].
    change (IsInFontFaceSet (set_mNonRuleFaces ?l ?s) f)
      with (IsInFontFaceSet s f).
    apply membership_AddFontFaceSet. }
  split.
  { rewrite Hmember2. now destruct (decide (aFontFace = aFontFace)). }
  split.
  { intros f Hne. rewrite Hmember2. now destruct (decide _). }
  destruct (Hflush st2) as [Hrec3 Hmem3]. split; [|exact Hrec3].
  unfold Add. destruct (Hmem3 aFontFace) as [-> _]. rewrite Hmember2.
  now destruct (decide (aFontFace = aFontFace)).
Qed.

End RecordListProperties.

(** *** The same on the set of three faces *)

Lemma example_virtuals_keep_set_fields :
  keeps_set_fields (FlushUserFontSet (FontFaceSetImplVirtuals := example_virtuals))
  /\ keeps_set_fields
       (MarkUserFontSetDirty (FontFaceSetImplVirtuals := example_virtuals)).
Proof. split; intros st; repeat split. Qed.

Lemma example_records_are_members :
  records_are_members
    (example_set
       [(1%nat, example_face false true FontFaceLoadStatus.Loaded None None None);
        (2%nat, example_face true false FontFaceLoadStatus.Loaded None None None);
        (3%nat, example_face false false FontFaceLoadStatus.Loading None None None)]
       [1%nat] FontFaceSetLoadStatus.Loaded).
Proof.
  split.
  - apply (bool_decide_unpack _). vm_compute. exact I.
  - intros f ->%list_elem_of_singleton. split; reflexivity.
Qed.

Lemma records_stay_distinct_members_witness :
  let st := example_set
              [(1%nat, example_face false true FontFaceLoadStatus.Loaded None None None);
               (2%nat, example_face true false FontFaceLoadStatus.Loaded None None None);
               (3%nat, example_face false false FontFaceLoadStatus.Loading None None None)]
              [1%nat] FontFaceSetLoadStatus.Loaded in
  records_are_members (run_operation (VT := example_virtuals) (OpAdd 3) st)
  /\ has_no_record (FlushUserFontSet (FontFaceSetImplVirtuals := example_virtuals) st) 3.
Proof.
  intros st.
  destruct (records_stay_distinct_members (VT := example_virtuals) (OpAdd 3) st
              (proj1 example_virtuals_keep_set_fields)
              (proj2 example_virtuals_keep_set_fields)
              example_records_are_members) as [Hinv Hassert].
  split; [exact Hinv|]. apply Hassert. reflexivity.
Defined.

(** A flush that resolves face 1: it gives the face the entry 10. *)
Lemma example_resolving_virtuals_keep_membership :
  keeps_membership
    (FlushUserFontSet (FontFaceSetImplVirtuals := example_resolving_virtuals))
  /\ keeps_membership
       (MarkUserFontSetDirty
          (FontFaceSetImplVirtuals := example_resolving_virtuals)).
Proof.
  split; intros st; [|apply same_membership_refl].
  split; [reflexivity|]. intros f. unfold IsInFontFaceSet.
  change (face (FlushUserFontSet
                  (FontFaceSetImplVirtuals := example_resolving_virtuals) st) f)
    with (face (update_face 1%nat (set_GetUserFontEntry (Some 10%nat)) st) f).
  destruct (decide (1%nat = f)) as [<-|Hne].
  - rewrite face_update_face_eq. split; reflexivity.
  - rewrite face_update_face_ne by exact Hne. split; reflexivity.
Qed.

Lemma Delete_removes_one_record_witness :
  let st := example_set
              [(1%nat, example_face false true FontFaceLoadStatus.Loaded None None None);
               (2%nat, example_face true false FontFaceLoadStatus.Loaded None None None);
               (3%nat, example_face false false FontFaceLoadStatus.Loading None None None)]
              [1%nat] FontFaceSetLoadStatus.Loaded in
  GetUserFontEntry
    (face (FlushUserFontSet
             (FontFaceSetImplVirtuals := example_resolving_virtuals) st) 1)
  <> GetUserFontEntry (face st 1)
  /\ exists st2,
       Delete (VT := example_resolving_virtuals) st 1 = (true, st2)
       /\ mNonRuleFaces st2 = []
       /\ IsInFontFaceSet st2 1 = false.
Proof.
  intros st. split; [discriminate|].
  destruct (Delete_removes_one_record (VT := example_resolving_virtuals) st 1%nat
              (proj1 example_resolving_virtuals_keep_membership)
              (proj2 example_resolving_virtuals_keep_membership))
    as (st2 & Hdel & Hrec & Hmember & _).
  - split.
    + apply (bool_decide_unpack _). vm_compute. exact I.
    + intros f ->%list_elem_of_singleton. split; reflexivity.
  - apply (bool_decide_unpack _). vm_compute. exact I.
  - exists st2. split; [exact Hdel|]. split; [exact Hrec|exact Hmember].
Defined.

Lemma Add_again_is_refused_witness :
  let st := example_set
              [(1%nat, example_face false true FontFaceLoadStatus.Loaded None None None);
               (2%nat, example_face true false FontFaceLoadStatus.Loaded None None None);
               (3%nat, example_face false false FontFaceLoadStatus.Loading None None None)]
              [1%nat] FontFaceSetLoadStatus.Loaded in
  exists st2,
    Add (VT := example_resolving_virtuals) st 3 = (true, NoError, st2)
    /\ IsInFontFaceSet st2 3 = true
    /\ Add (VT := example_resolving_virtuals) st2 3
       = (false, NoError,
          FlushUserFontSet
            (FontFaceSetImplVirtuals := example_resolving_virtuals) st2).
Proof.
  intros st.
  destruct (Add_again_is_refused (VT := example_resolving_virtuals) st 3%nat
              (proj1 example_resolving_virtuals_keep_membership)
              (proj2 example_resolving_virtuals_keep_membership)
              eq_refl eq_refl)
    as (st2 & Hadd & _ & Hmember & _ & Hagain & _).
  exists st2. split; [exact Hadd|]. split; [exact Hmember|exact Hagain].
Defined.

(** ** The loading status over time *)

Section LoadingCycleProperties.
Context {FP : FontPropertyTypes} {OW : FontFaceSetOwner}
        {VT : FontFaceSetImplVirtuals}.

Implicit Types (st : FontFaceSetImpl) (aFontFace f : nat).

(** The state [HasLoadingFontFaces] leaves: a clean cache that holds the
    answer, everything else as before. *)
Lemma HasLoadingFontFaces_fields st :
  let r := HasLoadingFontFaces st in
  mHasLoadingFontFacesIsDirty r.2 = false
  /\ mHasLoadingFontFaces r.2 = r.1
  /\ r.1 = (if mHasLoadingFontFacesIsDirty st
            then scan_loading st (mNonRuleFaces st)
            else mHasLoadingFontFaces st)
  /\ faces r.2 = faces st /\ mNonRuleFaces r.2 = mNonRuleFaces st
  /\ mStatus r.2 = mStatus st /\ mDelayedLoadCheck r.2 = mDelayedLoadCheck st
  /\ mOwner r.2 = mOwner st /\ IsOnOwningThread r.2 = IsOnOwningThread st
  /\ CurrentServoStyleSet r.2 = CurrentServoStyleSet st
  /\ owning_thread_tasks r.2 = owning_thread_tasks st
  /\ post_traversal_tasks r.2 = post_traversal_tasks st
  /\ (mHasLoadingFontFacesIsDirty st = false -> r.2 = st).
Proof.
  unfold HasLoadingFontFaces, UpdateHasLoadingFontFaces.
  destruct (mHasLoadingFontFacesIsDirty st) eqn:Hd; cbn [fst snd].
  - set (st0 := set_mHasLoadingFontFaces false
                  (set_mHasLoadingFontFacesIsDirty false st)).
    assert (Hs : scan_loading st0 (mNonRuleFaces st0)
                 = scan_loading st (mNonRuleFaces st))
      by now apply scan_loading_heap.
    rewrite Hs. destruct (scan_loading st (mNonRuleFaces st));
      repeat split; discriminate.
  - repeat split. exact Hd.
Qed.

Lemma any_face_loading_heap st st' :
  faces st = faces st' -> mNonRuleFaces st = mNonRuleFaces st' ->
  any_face_loading st <-> any_face_loading st'.
Proof.
  intros Hf Hr. unfold any_face_loading, face. rewrite Hf, Hr. reflexivity.
Qed.

Lemma HasLoadingFontFaces_answer st :
  cache_ok st -> (HasLoadingFontFaces st).1 = true <-> any_face_loading st.
Proof.
  intros Hok. destruct (HasLoadingFontFaces_fields st) as (_ & _ & Hans & _).
  rewrite any_face_loading_scan, Hans.
  destruct (mHasLoadingFontFacesIsDirty st) eqn:Hd; [reflexivity|].
  now rewrite (Hok Hd).
Qed.

(** X4.  Asked on a set whose cache is right, [HasLoadingFontFaces] (and so
    [MightHavePendingFontLoads]) answers true exactly when a recorded face is
    loading; a dirty cache is recomputed whatever it held.  The call leaves a
    clean cache that is right, so that asking again changes nothing. *)
Theorem HasLoadingFontFaces_answers_for_the_records st :
  let r := HasLoadingFontFaces st in
  (cache_ok st -> (r.1 = true <-> any_face_loading st))
  /\ (mHasLoadingFontFacesIsDirty st = true -> (r.1 = true <-> any_face_loading st))
  /\ MightHavePendingFontLoads st = r
  /\ mHasLoadingFontFacesIsDirty r.2 = false
  /\ (cache_ok st -> cache_ok r.2)
  /\ HasLoadingFontFaces r.2 = r.
Proof.
  intros r. destruct (HasLoadingFontFaces_fields st)
    as (Hclean & Hhas & Hans & Hf & Hr & _ & _ & _ & _ & _ & _ & _ & Hsame).
  fold r in Hclean, Hhas, Hans, Hf, Hr, Hsame.
  split; [|split; [|split; [reflexivity|split; [exact Hclean|split]]]].
  - apply HasLoadingFontFaces_answer.
  - intros Hd. now rewrite any_face_loading_scan, Hans, Hd.
  - intros Hok. now apply (HasLoadingFontFaces_spec st Hok).
  - destruct (HasLoadingFontFaces_fields r.2)
      as (_ & _ & Hans' & _ & _ & _ & _ & _ & _ & _ & _ & _ & Hsame').
    rewrite Hclean in Hans'. specialize (Hsame' Hclean).
    destruct (HasLoadingFontFaces r.2) as [b s']. cbn [fst snd] in *.
    subst s'. rewrite Hans', Hhas. now destruct r.
Qed.

(** [CheckLoadingStarted] on a set that has a face loading. *)
Lemma CheckLoadingStarted_loading st :
  cache_ok st -> any_face_loading st ->
  let st' := CheckLoadingStarted st in
  mStatus st' = FontFaceSetLoadStatus.Loading
  /\ (mStatus st = FontFaceSetLoadStatus.Loaded ->
      if IsOnOwningThread st
      then mOwner st' = DispatchLoadingEventAndReplaceReadyPromise <$> mOwner st
           /\ owning_thread_tasks st' = owning_thread_tasks st
      else mOwner st' = mOwner st
           /\ owning_thread_tasks st'
              = owning_thread_tasks st ++ [RunOnLoadingStarted])
  /\ (mStatus st = FontFaceSetLoadStatus.Loading ->
      mOwner st' = mOwner st /\ owning_thread_tasks st' = owning_thread_tasks st)
  /\ mDelayedLoadCheck st' = mDelayedLoadCheck st
  /\ post_traversal_tasks st' = post_traversal_tasks st
  /\ IsOnOwningThread st' = IsOnOwningThread st
  /\ CurrentServoStyleSet st' = CurrentServoStyleSet st.
Proof.
  intros Hok Hany. unfold CheckLoadingStarted.
  pose proof (HasLoadingFontFaces_answer st) as Htrue.
  destruct (HasLoadingFontFaces_fields st)
    as (_ & _ & _ & _ & _ & Hs & Hd & Ho & Ht & Hc & Hq & Hp & _).
  apply (Htrue Hok) in Hany.
  destruct (HasLoadingFontFaces st) as [loading st2]. cbn [fst snd] in *.
  subst loading. cbn [negb].
  destruct (decide (mStatus st2 = FontFaceSetLoadStatus.Loading)) as [Hl|Hl].
  - rewrite <- Hs. repeat split; try assumption; try congruence.
  - unfold OnLoadingStarted, DispatchToOwningThread.
    cbn [IsOnOwningThread mOwner set_mStatus]. rewrite Ht, Ho.
    destruct (IsOnOwningThread st); [destruct (mOwner st)|];
      cbn; repeat split; try assumption; try congruence; intros Hx; congruence.
Qed.

(** [CheckLoadingFinished] when it is allowed to finish. *)
Lemma CheckLoadingFinished_idle st :
  cache_ok st -> ~ any_face_loading st ->
  mDelayedLoadCheck st = false -> ReadyPromiseIsPending st = true ->
  let st' := CheckLoadingFinished st in
  mStatus st' = FontFaceSetLoadStatus.Loaded
  /\ (if IsOnOwningThread st
      then mOwner st' = MaybeResolve <$> mOwner st
           /\ owning_thread_tasks st' = owning_thread_tasks st
      else mOwner st' = mOwner st
           /\ owning_thread_tasks st'
              = owning_thread_tasks st ++ [RunOnLoadingFinished])
  /\ post_traversal_tasks st' = post_traversal_tasks st.
Proof.
  intros Hok Hnone Hdelay Hready.
  unfold CheckLoadingFinished, MightHavePendingFontLoads.
  rewrite Hdelay, Hready. cbn [negb].
  pose proof (HasLoadingFontFaces_answer st) as Htrue.
  destruct (HasLoadingFontFaces_fields st)
    as (_ & _ & _ & _ & _ & Hs & Hd & Ho & Ht & Hc & Hq & Hp & _).
  specialize (Htrue Hok).
  destruct (HasLoadingFontFaces st) as [loading st2]. cbn [fst snd] in *.
  destruct loading; [destruct Hnone; now apply Htrue|].
  unfold OnLoadingFinished, DispatchToOwningThread.
  cbn [IsOnOwningThread mOwner set_mStatus]. rewrite Ht, Ho.
  destruct (IsOnOwningThread st); [destruct (mOwner st)|];
    cbn; repeat split; try assumption; congruence.
Qed.

(** X5.  The notifications follow the thread.  When [CheckLoadingStarted]
    finds a face loading, the set is Loading afterwards; if it was Loaded,
    the owner's loading event is dispatched at once on the owning thread, and
    otherwise one [OnLoadingStarted] task is handed to the owning thread and
    the owner is left alone; if it was Loading already, nothing is notified.
    When [CheckLoadingFinished] may finish (no face loading, no delayed check
    pending, ready promise pending), the set is Loaded afterwards and the
    owner is resolved at once, or one [OnLoadingFinished] task is handed
    over, in the same way. *)
Theorem notifications_follow_the_thread st :
  cache_ok st ->
  (any_face_loading st ->
   let st' := CheckLoadingStarted st in
   mStatus st' = FontFaceSetLoadStatus.Loading
   /\ (mStatus st = FontFaceSetLoadStatus.Loaded ->
       if IsOnOwningThread st
       then mOwner st' = DispatchLoadingEventAndReplaceReadyPromise <$> mOwner st
            /\ owning_thread_tasks st' = owning_thread_tasks st
       else mOwner st' = mOwner st
            /\ owning_thread_tasks st'
               = owning_thread_tasks st ++ [RunOnLoadingStarted])
   /\ (mStatus st = FontFaceSetLoadStatus.Loading ->
       mOwner st' = mOwner st /\ owning_thread_tasks st' = owning_thread_tasks st))
  /\ (~ any_face_loading st ->
      mDelayedLoadCheck st = false -> ReadyPromiseIsPending st = true ->
      let st' := CheckLoadingFinished st in
      mStatus st' = FontFaceSetLoadStatus.Loaded
      /\ (if IsOnOwningThread st
          then mOwner st' = MaybeResolve <$> mOwner st
               /\ owning_thread_tasks st' = owning_thread_tasks st
          else mOwner st' = mOwner st
               /\ owning_thread_tasks st'
                  = owning_thread_tasks st ++ [RunOnLoadingFinished])).
Proof.
  intros Hok. split.
  - intros Hany. destruct (CheckLoadingStarted_loading st Hok Hany)
      as (H1 & H2 & H3 & _). auto.
  - intros Hnone Hdelay Hready.
    destruct (CheckLoadingFinished_idle st Hok Hnone Hdelay Hready)
      as (H1 & H2 & _). auto.
Qed.

Lemma CheckLoadingStarted_clean st :
  mHasLoadingFontFacesIsDirty (CheckLoadingStarted st) = false
  /\ (mHasLoadingFontFaces (CheckLoadingStarted st) = true ->
      mStatus (CheckLoadingStarted st) = FontFaceSetLoadStatus.Loading).
Proof.
  unfold CheckLoadingStarted.
  destruct (HasLoadingFontFaces_fields st) as (Hclean & Hhas & _).
  destruct (HasLoadingFontFaces st) as [loading st2]. cbn [fst snd] in *.
  destruct loading; cbn [negb]; [|split; [exact Hclean|congruence]].
  destruct (decide (mStatus st2 = FontFaceSetLoadStatus.Loading)) as [Hl|Hl];
    [split; [exact Hclean|auto]|].
  unfold OnLoadingStarted, DispatchToOwningThread.
  cbn [IsOnOwningThread mOwner set_mStatus].
  destruct (IsOnOwningThread st2); [destruct (mOwner st2)|]; cbn; auto.
Qed.

(** X6.  [CheckLoadingStarted] is idempotent: run again on the state it
    returned, it returns that state, so that the loading event is not
    dispatched a second time. *)
Theorem CheckLoadingStarted_notifies_once st :
  CheckLoadingStarted (CheckLoadingStarted st) = CheckLoadingStarted st.
Proof.
  destruct (CheckLoadingStarted_clean st) as [Hclean Hloading].
  set (st' := CheckLoadingStarted st) in *.
  unfold CheckLoadingStarted at 1.
  destruct (HasLoadingFontFaces_fields st')
    as (_ & _ & Hans & _ & _ & _ & _ & _ & _ & _ & _ & _ & Hsame).
  rewrite Hclean in Hans. specialize (Hsame Hclean).
  destruct (HasLoadingFontFaces st') as [loading st2]. cbn [fst snd] in *.
  subst st2 loading.
  destruct (mHasLoadingFontFaces st') eqn:Hhas; cbn [negb]; [|reflexivity].
  destruct (decide (mStatus st' = FontFaceSetLoadStatus.Loading)) as [Hl|Hl];
    [reflexivity|]. now destruct Hl; apply Hloading.
Qed.

Lemma loaded_means_idle_fields st st' :
  faces st = faces st' -> mNonRuleFaces st = mNonRuleFaces st' ->
  mStatus st = mStatus st' ->
  mHasLoadingFontFaces st = mHasLoadingFontFaces st' ->
  mHasLoadingFontFacesIsDirty st = mHasLoadingFontFacesIsDirty st' ->
  loaded_means_idle st -> loaded_means_idle st'.
Proof.
  intros Hf Hr Hs Hh Hd [Hok Hidle]. split.
  - now apply (cache_ok_fields st).
  - rewrite <- Hs, <- (any_face_loading_heap st st') by assumption. exact Hidle.
Qed.

Lemma CheckLoadingStarted_establishes st :
  cache_ok st -> loaded_means_idle (CheckLoadingStarted st).
Proof.
  intros Hok. split; [now apply CheckLoadingStarted_spec|].
  intros Hloaded Hany.
  destruct (CheckLoadingStarted_frame st) as (Hf & Hr & _).
  apply (any_face_loading_heap _ st Hf Hr) in Hany.
  destruct (CheckLoadingStarted_loading st Hok Hany) as [Hl _]. congruence.
Qed.

Lemma CheckLoadingFinished_keeps st :
  cache_ok st ->
  (mStatus st = FontFaceSetLoadStatus.Loaded -> ~ any_face_loading st) ->
  loaded_means_idle (CheckLoadingFinished st).
Proof.
  intros Hok Hidle.
  destruct (CheckLoadingFinished_spec st Hok)
    as (Hok' & _ & [[Hsame _]|(_ & _ & _ & _ & Hnone)]).
  - split; [exact Hok'|]. rewrite Hsame. intros Hloaded.
    destruct (CheckLoadingFinished_frame st) as (Hf & Hr & _).
    rewrite (any_face_loading_heap _ st Hf Hr). now apply Hidle.
  - split; [exact Hok'|]. intros _. exact Hnone.
Qed.

Lemma Status_RemoveFontFaceSet st aFontFace f :
  Status (face (RemoveFontFaceSet aFontFace st) f) = Status (face st f).
Proof.
  unfold RemoveFontFaceSet. destruct (decide (aFontFace = f)) as [->|Hne].
  - now rewrite face_update_face_eq.
  - now rewrite face_update_face_ne.
Qed.

(** X7.  If the set reports Loaded only while none of its faces is loading,
    and its cache is right, the same holds after every operation, for
    virtual methods that leave the fields of the set alone; the state that
    the constructor builds has the property when it has no face loading,
    which is so since it has no records. *)
Theorem Loaded_only_while_no_face_loads (op : Operation) st :
  keeps_set_fields FlushUserFontSet ->
  keeps_set_fields MarkUserFontSetDirty ->
  loaded_means_idle st ->
  loaded_means_idle (run_operation op st)
  /\ forall heap aOwner on_owning_thread,
       loaded_means_idle (FontFaceSetImpl_new heap aOwner on_owning_thread).
Proof.
  intros Hflush Hmark Hinv. split.
  2:{ intros heap aOwner thread. split; [apply initial_cache_ok|].
      intros _ (rec & Hrec & _). inversion Hrec. }
  assert (Hinv1 : loaded_means_idle (FlushUserFontSet st)).
  { destruct (Hflush st) as (Hf & Hr & Hs & _ & Hh & Hd).
    now apply (loaded_means_idle_fields st). }
  destruct op as [f|f| |f status| | |task]; cbn [run_operation].
  - (* Add *)
    unfold Add. destruct (IsInFontFaceSet _ f); [exact Hinv1|].
    destruct (HasRule _); [exact Hinv1|]. cbn [snd].
    apply CheckLoadingStarted_establishes. now apply cache_ok_dirty.
  - (* Delete *)
    unfold Delete. destruct (HasRule _); [exact Hinv1|].
    destruct (remove_first_record f _) as [records'|] eqn:Hrem; [|exact Hinv1].
    cbn [snd]. apply CheckLoadingFinished_keeps; [now apply cache_ok_dirty|].
    set (removed := RemoveFontFaceSet f
                      (set_mNonRuleFaces records' (FlushUserFontSet st))).
    destruct (Hmark (set_mNonRuleFacesDirty true removed)) as (Hf & Hr & Hs & _).
    cbn [mStatus set_mHasLoadingFontFacesIsDirty]. rewrite Hs.
    intros Hloaded (rec & Hrec & Hst). destruct Hinv1 as [_ Hidle].
    apply Hidle; [exact Hloaded|].
    cbn [mNonRuleFaces set_mHasLoadingFontFacesIsDirty] in Hrec.
    rewrite Hr in Hrec.
    change (mNonRuleFaces (set_mNonRuleFacesDirty true removed))
      with records' in Hrec.
    unfold face in Hst. cbn [faces set_mHasLoadingFontFacesIsDirty] in Hst.
    rewrite Hf in Hst.
    change (faces (set_mNonRuleFacesDirty true removed) !!! mFontFace rec)
      with (face removed (mFontFace rec)) in Hst.
    unfold removed in Hst. rewrite Status_RemoveFontFaceSet in Hst.
    exists rec. split; [|exact Hst].
    destruct (remove_first_record_Some _ _ _ Hrem)
      as (before & r & after & -> & _ & _ & ->).
    apply elem_of_app in Hrec as [?|?]; apply elem_of_app; [now left|].
    right. now right.
  - (* Clear *)
    unfold Clear.
    destruct (mNonRuleFaces (FlushUserFontSet st)) as [|rec records] eqn:Hrec;
      [exact Hinv1|].
    apply CheckLoadingFinished_keeps; [now apply cache_ok_dirty|].
    intros _ (r & Hr & _). revert Hr.
    cbn [mNonRuleFaces set_mHasLoadingFontFacesIsDirty].
    destruct (Hmark (set_mNonRuleFacesDirty true
                       (set_mNonRuleFaces []
                          (remove_all_from_set (rec :: records)
                             (FlushUserFontSet st))))) as (_ & -> & _).
    apply not_elem_of_nil.
  - (* a face reports a change of status *)
    unfold OnFontFaceStatusChanged.
    set (st0 := set_mHasLoadingFontFacesIsDirty true
                  (update_face f (set_Status status) st)).
    destruct (decide _) as [Hl|Hl];
      [apply CheckLoadingStarted_establishes; now apply cache_ok_dirty|].
    assert (Hst0 : loaded_means_idle st0).
    { split; [now apply cache_ok_dirty|].
      intros Hloaded (rec & Hrec & Hst). destruct Hinv as [_ Hidle].
      apply Hidle; [exact Hloaded|]. exists rec. split; [exact Hrec|].
      destruct (decide (f = mFontFace rec)) as [Heq|Hne].
      - rewrite <- Heq in Hst. contradiction.
      - change (face st0 (mFontFace rec))
          with (face (update_face f (set_Status status) st) (mFontFace rec)) in Hst.
        now rewrite face_update_face_ne in Hst. }
    unfold DispatchCheckLoadingFinishedAfterDelay, AppendTask,
      DispatchToOwningThread.
    destruct (mDelayedLoadCheck st0); cbn [negb]; [exact Hst0|].
    destruct (CurrentServoStyleSet _);
      now apply (loaded_means_idle_fields st0).
  - apply CheckLoadingStarted_establishes, Hinv.
  - apply CheckLoadingFinished_keeps; apply Hinv.
  - destruct task; cbn [run_task].
    + unfold OnLoadingStarted. destruct (mOwner st);
        now apply (loaded_means_idle_fields st).
    + unfold OnLoadingFinished. destruct (mOwner st);
        now apply (loaded_means_idle_fields st).
    + unfold CheckLoadingFinishedAfterDelay.
      apply CheckLoadingFinished_keeps.
      * now apply (cache_ok_fields st); try apply Hinv.
      * apply Hinv.
Qed.

(** X8.  A face that reports a status other than Loading never changes the
    aggregate status or the owner at once: the cached loading flag is marked
    dirty and the delayed check is pending afterwards.  The check is
    scheduled once: if none was pending, one task is handed over (to the
    style set during a Servo traversal, to the owning thread otherwise); if
    one was pending, no task is added.  A second such report right after the
    first returns the state as it is. *)
Theorem terminal_status_schedules_one_check st aFontFace :
  Status (face st aFontFace) <> FontFaceLoadStatus.Loading ->
  let st' := OnFontFaceStatusChanged st aFontFace in
  mStatus st' = mStatus st /\ mOwner st' = mOwner st
  /\ mDelayedLoadCheck st' = true
  /\ mHasLoadingFontFacesIsDirty st' = true
  /\ (if mDelayedLoadCheck st
      then owning_thread_tasks st' = owning_thread_tasks st
           /\ post_traversal_tasks st' = post_traversal_tasks st
      else if CurrentServoStyleSet st
      then owning_thread_tasks st' = owning_thread_tasks st
           /\ post_traversal_tasks st'
              = post_traversal_tasks st ++ [RunCheckLoadingFinishedAfterDelay]
      else owning_thread_tasks st'
           = owning_thread_tasks st ++ [RunCheckLoadingFinishedAfterDelay]
           /\ post_traversal_tasks st' = post_traversal_tasks st)
  /\ pending_tasks RunCheckLoadingFinishedAfterDelay st'
     = (pending_tasks RunCheckLoadingFinishedAfterDelay st
        + if mDelayedLoadCheck st then 0 else 1)%nat
  /\ (forall f, Status (face st f) <> FontFaceLoadStatus.Loading ->
        OnFontFaceStatusChanged st' f = st').
Proof.
  intros Hterminal. unfold OnFontFaceStatusChanged at 1.
  change (face (set_mHasLoadingFontFacesIsDirty true st) aFontFace)
    with (face st aFontFace).
  destruct (decide (Status (face st aFontFace) = FontFaceLoadStatus.Loading))
    as [Hl|_]; [contradiction|].
  unfold DispatchCheckLoadingFinishedAfterDelay, AppendTask, DispatchToOwningThread,
    pending_tasks.
  cbn [mDelayedLoadCheck set_mHasLoadingFontFacesIsDirty CurrentServoStyleSet
       set_mDelayedLoadCheck].
  assert (Hagain : forall st0 f,
            faces st0 = faces st ->
            mDelayedLoadCheck st0 = true ->
            set_mHasLoadingFontFacesIsDirty true st0 = st0 ->
            Status (face st f) <> FontFaceLoadStatus.Loading ->
            OnFontFaceStatusChanged st0 f = st0).
  { intros st0 f Hf Hd Heta Hs. unfold OnFontFaceStatusChanged.
    change (face (set_mHasLoadingFontFacesIsDirty true st0) f) with (face st0 f).
    unfold face in *. rewrite Hf.
    destruct (decide (Status (faces st !!! f) = FontFaceLoadStatus.Loading));
      [contradiction|].
    cbn [mDelayedLoadCheck set_mHasLoadingFontFacesIsDirty]. rewrite Hd.
    exact Heta. }
  destruct (mDelayedLoadCheck st) eqn:Hdelay; cbn [negb].
  - repeat split; try assumption; [simpl; lia|].
    intros f Hf. now apply Hagain.
  - destruct (CurrentServoStyleSet st); cbn;
      (repeat split;
       [rewrite !filter_app, !length_app; simpl; lia
       |intros f Hf; now apply Hagain]).
Qed.

(** X9.  One load from start to end, on the owning thread of a set that is
    Loaded, has no delayed check pending and no other face loading.  When the
    recorded face starts to load, the set becomes Loading and the owner's
    loading event is dispatched.  When the face then reports a final status,
    the set stays Loading and one delayed check is handed to the owning
    thread.  When that check runs, the delay flag is cleared, and the set
    becomes Loaded and the owner is resolved if its ready promise is pending;
    otherwise the set stays as it is. *)
Theorem load_cycle st aFontFace (owner : FontFaceSet)
    (status : FontFaceLoadStatus.t) :
  mStatus st = FontFaceSetLoadStatus.Loaded ->
  mDelayedLoadCheck st = false ->
  IsOnOwningThread st = true ->
  CurrentServoStyleSet st = false ->
  mOwner st = Some owner ->
  aFontFace ∈ mFontFace <$> mNonRuleFaces st ->
  (forall rec, rec ∈ mNonRuleFaces st -> mFontFace rec <> aFontFace ->
     Status (face st (mFontFace rec)) <> FontFaceLoadStatus.Loading) ->
  status <> FontFaceLoadStatus.Loading ->
  let st1 := run_operation
               (OpFaceStatusChanged aFontFace FontFaceLoadStatus.Loading) st in
  let st2 := run_operation (OpFaceStatusChanged aFontFace status) st1 in
  let st3 := run_task RunCheckLoadingFinishedAfterDelay st2 in
  let owner1 := DispatchLoadingEventAndReplaceReadyPromise owner in
  (mStatus st1 = FontFaceSetLoadStatus.Loading /\ mOwner st1 = Some owner1
   /\ owning_thread_tasks st1 = owning_thread_tasks st)
  /\ (mStatus st2 = FontFaceSetLoadStatus.Loading /\ mOwner st2 = Some owner1
      /\ mDelayedLoadCheck st2 = true
      /\ owning_thread_tasks st2
         = owning_thread_tasks st ++ [RunCheckLoadingFinishedAfterDelay])
  /\ mDelayedLoadCheck st3 = false
  /\ (FontFaceSet_ReadyPromiseIsPending owner1 = true ->
      mStatus st3 = FontFaceSetLoadStatus.Loaded
      /\ mOwner st3 = Some (MaybeResolve owner1))
  /\ (FontFaceSet_ReadyPromiseIsPending owner1 = false ->
      mStatus st3 = FontFaceSetLoadStatus.Loading /\ mOwner st3 = Some owner1).
Proof.
  intros Hloaded Hdelay Hthread Hservo Howner Hin Hothers Hfinal
         st1 st2 st3 owner1.
  (* the face starts to load *)
  set (stA := update_face aFontFace (set_Status FontFaceLoadStatus.Loading) st).
  set (st0 := set_mHasLoadingFontFacesIsDirty true stA).
  assert (Hst1 : st1 = CheckLoadingStarted st0).
  { unfold st1. cbn [run_operation]. fold stA. unfold OnFontFaceStatusChanged.
    fold st0. change (face st0 aFontFace) with (face stA aFontFace).
    unfold stA. rewrite face_update_face_eq.
    destruct (decide _) as [_|Hne]; [reflexivity|]. now destruct Hne. }
  assert (Hany0 : any_face_loading st0).
  { apply list_elem_of_fmap in Hin as (rec & Hrec & Hin).
    exists rec. split; [exact Hin|].
    change (face st0 (mFontFace rec)) with (face stA (mFontFace rec)).
    rewrite <- Hrec. unfold stA. now rewrite face_update_face_eq. }
  destruct (CheckLoadingStarted_loading st0 (cache_ok_dirty st0 eq_refl) Hany0)
    as (Hs1 & Hnotify & _ & Hd1 & Hp1 & Ht1 & Hc1).
  destruct (CheckLoadingStarted_frame st0) as (Hf1 & Hr1 & _).
  specialize (Hnotify Hloaded).
  change (IsOnOwningThread st0) with (IsOnOwningThread st) in Hnotify, Ht1.
  rewrite Hthread in Hnotify, Ht1.
  change (mOwner st0) with (mOwner st) in Hnotify. rewrite Howner in Hnotify.
  destruct Hnotify as [Ho1 Hq1].
  change (owning_thread_tasks st0) with (owning_thread_tasks st) in Hq1.
  change (mDelayedLoadCheck st0) with (mDelayedLoadCheck st) in Hd1.
  change (CurrentServoStyleSet st0) with (CurrentServoStyleSet st) in Hc1.
  rewrite <- Hst1 in Hs1, Ho1, Hq1, Hd1, Hp1, Ht1, Hc1, Hf1, Hr1.
  split; [auto|].
  (* the face reports its final status *)
  set (stB := update_face aFontFace (set_Status status) st1).
  assert (Hst2 : st2 = set_owning_thread_tasks
                         (owning_thread_tasks st1
                          ++ [RunCheckLoadingFinishedAfterDelay])
                         (set_mDelayedLoadCheck true
                            (set_mHasLoadingFontFacesIsDirty true stB))).
  { unfold st2. cbn [run_operation]. fold stB. unfold OnFontFaceStatusChanged.
    change (face (set_mHasLoadingFontFacesIsDirty true stB) aFontFace)
      with (face stB aFontFace).
    assert (HfB : Status (face stB aFontFace) = status)
      by (unfold stB; now rewrite face_update_face_eq).
    rewrite HfB.
    destruct (decide _) as [Heq|_]; [now destruct Hfinal|].
    cbn [mDelayedLoadCheck set_mHasLoadingFontFacesIsDirty].
    change (mDelayedLoadCheck stB) with (mDelayedLoadCheck st1).
    rewrite Hd1, Hdelay. cbn [negb].
    unfold DispatchCheckLoadingFinishedAfterDelay.
    cbn [CurrentServoStyleSet set_mDelayedLoadCheck
         set_mHasLoadingFontFacesIsDirty].
    change (CurrentServoStyleSet stB) with (CurrentServoStyleSet st1).
    rewrite Hc1, Hservo. reflexivity. }
  assert (Hfields2 : mStatus st2 = FontFaceSetLoadStatus.Loading
                     /\ mOwner st2 = Some owner1
                     /\ mDelayedLoadCheck st2 = true
                     /\ owning_thread_tasks st2
                        = owning_thread_tasks st
                          ++ [RunCheckLoadingFinishedAfterDelay]).
  { rewrite Hst2. repeat split; [exact Hs1|exact Ho1|].
    change (owning_thread_tasks st1 ++ [RunCheckLoadingFinishedAfterDelay]
            = owning_thread_tasks st ++ [RunCheckLoadingFinishedAfterDelay]).
    now rewrite Hq1. }
  split; [exact Hfields2|]. destruct Hfields2 as (Hs2 & Ho2 & _ & _).
  (* the delayed check runs *)
  set (stC := set_mDelayedLoadCheck false st2).
  assert (Hst3 : st3 = CheckLoadingFinished stC) by reflexivity.
  assert (Hnone : ~ any_face_loading stC).
  { intros (rec & Hrec & Hst).
    change (mNonRuleFaces stC) with (mNonRuleFaces st2) in Hrec.
    rewrite Hst2 in Hrec. change (rec ∈ mNonRuleFaces st1) in Hrec.
    rewrite Hr1 in Hrec.
    change (mNonRuleFaces st0) with (mNonRuleFaces st) in Hrec.
    change (face stC (mFontFace rec)) with (face st2 (mFontFace rec)) in Hst.
    rewrite Hst2 in Hst.
    change (face (set_owning_thread_tasks ?q
                    (set_mDelayedLoadCheck true
                       (set_mHasLoadingFontFacesIsDirty true stB))) ?f)
      with (face stB f) in Hst.
    destruct (decide (aFontFace = mFontFace rec)) as [Heq|Hne].
    - rewrite <- Heq in Hst. unfold stB in Hst.
      rewrite face_update_face_eq in Hst. now apply Hfinal.
    - unfold stB in Hst. rewrite face_update_face_ne in Hst by exact Hne.
      unfold face in Hst. rewrite Hf1 in Hst.
      change (faces st0 !!! mFontFace rec) with (face stA (mFontFace rec)) in Hst.
      unfold stA in Hst. rewrite face_update_face_ne in Hst by exact Hne.
      apply (Hothers rec Hrec); [congruence|exact Hst]. }
  assert (HdC : mDelayedLoadCheck stC = false) by reflexivity.
  assert (HoC : mOwner stC = Some owner1) by exact Ho2.
  assert (HsC : mStatus stC = FontFaceSetLoadStatus.Loading) by exact Hs2.
  assert (HtC : IsOnOwningThread stC = true).
  { change (IsOnOwningThread stC) with (IsOnOwningThread st2).
    rewrite Hst2. exact Ht1. }
  split.
  { rewrite Hst3. now destruct (CheckLoadingFinished_frame stC) as (_ & _ & ->). }
  split.
  - intros Hready.
    assert (HreadyC : ReadyPromiseIsPending stC = true).
    { unfold ReadyPromiseIsPending. now rewrite HoC. }
    assert (HdirtyC : mHasLoadingFontFacesIsDirty stC = true)
      by (change (mHasLoadingFontFacesIsDirty st2 = true); now rewrite Hst2).
    destruct (CheckLoadingFinished_idle stC (cache_ok_dirty stC HdirtyC)
                Hnone HdC HreadyC) as (Hs3 & Hnotify & _).
    rewrite HtC, HoC in Hnotify. rewrite Hst3. split; [exact Hs3|apply Hnotify].
  - intros Hready. rewrite Hst3. unfold CheckLoadingFinished.
    rewrite HdC. unfold ReadyPromiseIsPending. rewrite HoC, Hready. cbn [negb].
    auto.
Qed.

End LoadingCycleProperties.

(** *** The same on a set with one record *)

(** The set records face 3, which has the given status; the set itself
    reports Loaded and its cache is marked dirty. *)
Lemma example_one_record_loading :
  any_face_loading
    (example_set
       [(3%nat, example_face false true FontFaceLoadStatus.Loading None None None)]
       [3%nat] FontFaceSetLoadStatus.Loaded).
Proof.
  exists {| mFontFace := 3%nat; mOrigin := None |}. split; [constructor|reflexivity].
Qed.

Lemma example_one_record_idle :
  ~ any_face_loading
      (example_set
         [(3%nat, example_face false true FontFaceLoadStatus.Loaded None None None)]
         [3%nat] FontFaceSetLoadStatus.Loaded).
Proof.
  intros (rec & Hrec & Hst). apply list_elem_of_singleton in Hrec. subst rec.
  vm_compute in Hst. discriminate.
Qed.

Lemma HasLoadingFontFaces_answers_for_the_records_witness :
  let st := example_set
              [(3%nat, example_face false true FontFaceLoadStatus.Loading None None None)]
              [3%nat] FontFaceSetLoadStatus.Loaded in
  (HasLoadingFontFaces st).1 = true <-> any_face_loading st.
Proof.
  intros st.
  exact (proj1 (HasLoadingFontFaces_answers_for_the_records st)
           (cache_ok_dirty st eq_refl)).
Defined.

Lemma notifications_follow_the_thread_witness :
  let st := example_set
              [(3%nat, example_face false true FontFaceLoadStatus.Loading None None None)]
              [3%nat] FontFaceSetLoadStatus.Loaded in
  mStatus (CheckLoadingStarted st) = FontFaceSetLoadStatus.Loading
  /\ mOwner (CheckLoadingStarted st)
     = Some (true : @FontFaceSet example_owner)
  /\ owning_thread_tasks (CheckLoadingStarted st) = [].
Proof.
  intros st.
  destruct (proj1 (notifications_follow_the_thread st (cache_ok_dirty st eq_refl))
              example_one_record_loading) as (Hstatus & Hnotify & _).
  split; [exact Hstatus|]. exact (Hnotify eq_refl).
Defined.

Lemma Loaded_only_while_no_face_loads_witness :
  let st := example_set
              [(3%nat, example_face false true FontFaceLoadStatus.Loaded None None None)]
              [3%nat] FontFaceSetLoadStatus.Loaded in
  loaded_means_idle
    (run_operation (VT := example_virtuals)
       (OpFaceStatusChanged 3 FontFaceLoadStatus.Loading) st).
Proof.
  intros st.
  apply (Loaded_only_while_no_face_loads (VT := example_virtuals)
           (OpFaceStatusChanged 3 FontFaceLoadStatus.Loading) st
           (proj1 example_virtuals_keep_set_fields)
           (proj2 example_virtuals_keep_set_fields)).
  split; [now apply cache_ok_dirty|]. intros _. exact example_one_record_idle.
Defined.

Lemma terminal_status_schedules_one_check_witness :
  let st := example_set
              [(3%nat, example_face false true FontFaceLoadStatus.Loaded None None None)]
              [3%nat] FontFaceSetLoadStatus.Loading in
  let st' := OnFontFaceStatusChanged st 3 in
  mStatus st' = FontFaceSetLoadStatus.Loading
  /\ mDelayedLoadCheck st' = true
  /\ pending_tasks RunCheckLoadingFinishedAfterDelay st' = 1%nat
  /\ OnFontFaceStatusChanged st' 3 = st'.
Proof.
  intros st st'.
  assert (Hfinal : Status (face st 3) <> FontFaceLoadStatus.Loading)
    by (vm_compute; discriminate).
  destruct (terminal_status_schedules_one_check st 3%nat Hfinal)
    as (Hstatus & _ & Hdelay & _ & _ & Hpending & Hagain).
  split; [exact Hstatus|]. split; [exact Hdelay|]. split; [exact Hpending|].
  apply Hagain. exact Hfinal.
Defined.

Lemma load_cycle_witness :
  let st := example_set
              [(3%nat, example_face false true FontFaceLoadStatus.Unloaded None None None)]
              [3%nat] FontFaceSetLoadStatus.Loaded in
  let st1 := run_operation (VT := example_virtuals)
               (OpFaceStatusChanged 3 FontFaceLoadStatus.Loading) st in
  let st2 := run_operation (VT := example_virtuals)
               (OpFaceStatusChanged 3 FontFaceLoadStatus.Error) st1 in
  let st3 := run_task RunCheckLoadingFinishedAfterDelay st2 in
  mStatus st1 = FontFaceSetLoadStatus.Loading
  /\ mStatus st2 = FontFaceSetLoadStatus.Loading
  /\ mStatus st3 = FontFaceSetLoadStatus.Loaded
  /\ mOwner st3 = Some (false : @FontFaceSet example_owner).
Proof.
  intros st st1 st2 st3.
  destruct (load_cycle (VT := example_virtuals) st 3%nat
              (true : @FontFaceSet example_owner) FontFaceLoadStatus.Error
              eq_refl eq_refl eq_refl eq_refl eq_refl)
    as ((Hs1 & _) & (Hs2 & _) & _ & Hresolved & _).
  - constructor.
  - intros rec Hrec Hne. apply list_elem_of_singleton in Hrec. subst rec.
    now destruct Hne.
  - discriminate.
  - destruct (Hresolved eq_refl) as [Hs3 Ho3]. auto.
Defined.

(** ** The source list, whatever its shape *)

Section SourceListOutcomes.
Variable variations_enabled : bool.
Variable aOrigin : StyleOrigin.

(** What the format-hint block consumes. *)
Lemma check_format_hint_consumes
    (comps : list StyleFontFaceSourceListComponent) (i : nat)
    (face : gfxFontFaceSrc) :
  exists hint,
    (check_format_hint variations_enabled comps i face).2
    = (i + length (option_list (components_of_hint <$> hint)))%nat
    /\ drop (S i) comps
       = option_list (components_of_hint <$> hint)
         ++ drop (S (check_format_hint variations_enabled comps i face).2) comps.
Proof.
  unfold check_format_hint. rewrite Nat.add_1_r.
  destruct (comps !! S i) as [[u|a|k|s|t]|] eqn:Hnext; cbn [snd];
    try (exists None; split; [simpl; lia|reflexivity]).
  - exists (Some (HintKeyword k)). split; [simpl; lia|].
    simpl. now apply drop_S.
  - exists (Some (HintString s)). split; [simpl; lia|].
    simpl. now apply drop_S.
Qed.

(** What the technology-flags block consumes. *)
Lemma check_tech_flags_consumes
    (comps : list StyleFontFaceSourceListComponent) (i : nat)
    (face : gfxFontFaceSrc) :
  exists tech,
    (check_tech_flags comps i face).2
    = (i + length (option_list (TechFlags <$> tech)))%nat
    /\ drop (S i) comps
       = option_list (TechFlags <$> tech)
         ++ drop (S (check_tech_flags comps i face).2) comps.
Proof.
  unfold check_tech_flags. rewrite Nat.add_1_r.
  destruct (comps !! S i) as [[u|a|k|s|t]|] eqn:Hnext; cbn [snd];
    try (exists None; split; [simpl; lia|reflexivity]).
  exists (Some t). split; [simpl; lia|]. simpl. now apply drop_S.
Qed.

(** If the loop returns, what it read from index [i] on is made of groups. *)
Lemma source_loop_returned_groups (fuel : nat) :
  forall (comps : list StyleFontFaceSourceListComponent) (i : nat)
         (srcArray result : list gfxFontFaceSrc),
    source_loop fuel variations_enabled aOrigin comps i srcArray = Returned result ->
    exists gs, drop i comps = components_of_groups gs.
Proof.
  induction fuel as [|fuel IH]; intros comps i srcArray result Hret.
  - simpl in Hret. destruct (comps !! i) eqn:Hi; [discriminate|].
    exists []. apply drop_ge. now apply lookup_ge_None.
  - cbn [source_loop] in Hret.
    destruct (comps !! i) as [[url|atom|k|s|t]|] eqn:Hi; try discriminate.
    + destruct (check_format_hint_consumes comps i (url_face aOrigin url))
        as (hint & _ & Hhint).
      destruct (check_format_hint variations_enabled comps i
                  (url_face aOrigin url)) as [face1 i1]. cbn [snd] in Hhint.
      destruct (check_tech_flags_consumes comps i1 face1) as (tech & _ & Htech).
      destruct (check_tech_flags comps i1 face1) as [face2 i2].
      cbn [snd] in Htech.
      assert (Hrest : exists gs, drop (S i2) comps = components_of_groups gs)
        by (destruct (mURI face2); eapply IH; exact Hret).
      destruct Hrest as (gs & Hgs).
      exists (UrlGroup url hint tech :: gs).
      rewrite (drop_S _ _ _ Hi), Hhint, Htech, Hgs.
      unfold components_of_groups. rewrite fmap_cons. simpl.
      now rewrite <- app_assoc.
    + destruct (IH _ _ _ _ Hret) as (gs & Hgs).
      exists (LocalGroup atom :: gs). now rewrite (drop_S _ _ _ Hi), Hgs.
    + exists []. apply drop_ge. now apply lookup_ge_None.
Qed.

Lemma BuildSrcArray_returned_groups
    (comps : list StyleFontFaceSourceListComponent)
    (result : list gfxFontFaceSrc) :
  BuildSrcArray variations_enabled aOrigin comps = Returned result ->
  exists gs, comps = components_of_groups gs
             /\ result = omap (source_of_group variations_enabled aOrigin) gs.
Proof.
  intros Hret. pose proof Hret as Hret'. unfold BuildSrcArray in Hret'.
  destruct (source_loop_returned_groups _ _ _ _ _ Hret') as (gs & Hgs).
  rewrite drop_0 in Hgs. exists gs. split; [exact Hgs|].
  rewrite Hgs, BuildSrcArray_groups in Hret. congruence.
Qed.

(** X10.  The loop over the source list returns exactly on the lists that
    are made of groups (a local name, or a URL followed by at most one format
    hint and then at most one set of technology flags); on every other list
    it reaches its unreachable arm. *)
Theorem source_list_returns_iff_grouped
    (comps : list StyleFontFaceSourceListComponent) :
  ((exists srcArray,
      BuildSrcArray variations_enabled aOrigin comps = Returned srcArray)
   <-> exists gs, comps = components_of_groups gs)
  /\ (BuildSrcArray variations_enabled aOrigin comps = AssertUnreachable
      <-> ~ exists gs, comps = components_of_groups gs).
Proof.
  assert (Hiff : (exists srcArray,
                    BuildSrcArray variations_enabled aOrigin comps
                    = Returned srcArray)
                 <-> exists gs, comps = components_of_groups gs).
  { split.
    - intros (srcArray & Hret).
      destruct (BuildSrcArray_returned_groups comps srcArray Hret)
        as (gs & Hgs & _). now exists gs.
    - intros (gs & ->). eexists. apply BuildSrcArray_groups. }
  split; [exact Hiff|].
  pose proof (BuildSrcArray_fuel variations_enabled aOrigin comps) as Hfuel.
  rewrite <- Hiff.
  destruct (BuildSrcArray variations_enabled aOrigin comps) as [r| |].
  - split; [discriminate|]. intros Hno. destruct Hno. now exists r.
  - split; [|reflexivity]. intros _ (r & Hr). discriminate.
  - now destruct Hfuel.
Qed.

Lemma omap_source_key_group (g : SourceGroup) :
  omap source_key (components_of_group g)
  = option_list (key_of_source <$> source_of_group variations_enabled aOrigin g).
Proof.
  destruct g as [atom|url hint tech]; [reflexivity|].
  cbn [components_of_group omap list_omap]. fold (@omap list _).
  assert (Hh : omap source_key (option_list (components_of_hint <$> hint)) = [])
    by (destruct hint as [[k|s]|]; reflexivity).
  assert (Ht : omap source_key (option_list (TechFlags <$> tech)) = [])
    by (destruct tech; reflexivity).
  assert (Hrest : omap source_key
                    (option_list (components_of_hint <$> hint)
                     ++ option_list (TechFlags <$> tech)) = [])
    by now rewrite omap_app, Hh, Ht.
  cbn [source_key source_of_group].
  destruct (GetURI url) as [uri|] eqn:Huri; cbn; [|exact Hrest].
  unfold key_of_source. cbn. rewrite Huri. cbn. f_equal. exact Hrest.
Qed.

Lemma omap_source_key_groups (gs : list SourceGroup) :
  omap source_key (components_of_groups gs)
  = key_of_source <$> omap (source_of_group variations_enabled aOrigin) gs.
Proof.
  induction gs as [|g gs IH]; [reflexivity|].
  unfold components_of_groups in *. rewrite fmap_cons. simpl concat.
  rewrite omap_app, IH, omap_source_key_group. cbn [omap list_omap].
  now destruct (source_of_group variations_enabled aOrigin g).
Qed.


Lemma BuildSrcArray_keys (comps : list StyleFontFaceSourceListComponent)
    (srcArray : list gfxFontFaceSrc) :
  BuildSrcArray variations_enabled aOrigin comps = Returned srcArray ->
  key_of_source <$> srcArray = omap source_key comps.
Proof.
  intros Hret.
  destruct (BuildSrcArray_returned_groups comps srcArray Hret) as (gs & -> & ->).
  now rewrite omap_source_key_groups.
Qed.




End SourceListOutcomes.


(** ** A face that has no entry yet *)

Section NewEntryProperties.
Context {FP : FontPropertyTypes} {OW : FontFaceSetOwner} {SP : StaticPrefs}.

Implicit Types (st : FontFaceSetImpl) (aFontFace e : nat).

Lemma FindOrCreateUserFontEntry_new st (aFamilyName : string)
    (aFontFaceSrcList : list gfxFontFaceSrc) (attrs : gfxUserFontAttributes) :
  let r := FindOrCreateUserFontEntry st aFamilyName aFontFaceSrcList attrs in
  (r.1 ∉ dom (entries st))
  /\ entry r.2 r.1
     = set_mFamilyName aFamilyName (CreateUserFontEntry aFontFaceSrcList attrs)
  /\ faces r.2 = faces st.
Proof.
  unfold FindOrCreateUserFontEntry. cbn [fst snd].
  split; [apply is_fresh|]. split; [|reflexivity].
  unfold entry. cbn. apply lookup_total_insert_eq.
Qed.

(** The branch for a face without entry, once its attributes are resolved
    and its source list is built. *)
Lemma FindOrCreate_new st (aFamilyName : string) aFontFace
    (aOrigin : StyleOrigin) :
  GetUserFontEntry (face st aFontFace) = None ->
  exists attrs,
    resolve_attributes (face st aFontFace) = Returned attrs
    /\ FindOrCreateUserFontEntryFromFontFace st aFamilyName aFontFace aOrigin
       = ('(srcArray, st) ← build_source_list st aFontFace aOrigin;
          match srcArray with
          | [] => Returned (None, st)
          | _ :: _ =>
              let '(e, st) :=
                FindOrCreateUserFontEntry st aFamilyName srcArray attrs in
              Returned (Some e, st)
          end).
Proof.
  intros Hnone.
  destruct (resolve_attributes_returns (face st aFontFace)) as [attrs Ha].
  exists attrs. split; [exact Ha|].
  unfold FindOrCreateUserFontEntryFromFontFace. rewrite Ha. cbn.
  now rewrite Hnone.
Qed.

(** What the branch returns, and what it leaves behind. *)
Lemma FindOrCreate_new_outcome st (aFamilyName : string) aFontFace
    (aOrigin : StyleOrigin) :
  GetUserFontEntry (face st aFontFace) = None ->
  let call :=
    FindOrCreateUserFontEntryFromFontFace st aFamilyName aFontFace aOrigin in
  call <> OutOfFuel
  /\ (forall result st',
        call = Returned (result, st') ->
        (result = None
         <-> HasFontData (face st aFontFace) = false
             /\ omap source_key (GetSources (face st aFontFace)) = [])
        /\ (result = None -> st' = st)
        /\ (forall e,
              result = Some e ->
              (e ∉ dom (entries st))
              /\ mSrcList (entry st' e) <> []
              /\ resolve_attributes (face st aFontFace)
                 = Returned (attributes (entry st' e))
              /\ (HasFontData (face st aFontFace) = false ->
                  faces st' = faces st
                  /\ BuildSrcArray layout_css_font_variations_enabled aOrigin
                       (GetSources (face st aFontFace))
                     = Returned (mSrcList (entry st' e)))))
  /\ (HasFontData (face st aFontFace) = true ->
      exists e st',
        call = Returned (Some e, st')
        /\ mSrcList (entry st' e)
           = [buffer_face (mBufferSource (face st aFontFace))]
        /\ HasFontData (face st' aFontFace) = false).
Proof.
  intros Hnone call.
  destruct (FindOrCreate_new st aFamilyName aFontFace aOrigin Hnone)
    as (attrs & Hattrs & Hcall).
  fold call in Hcall. rewrite Hcall. clear Hcall call.
  unfold build_source_list.
  destruct (HasFontData (face st aFontFace)) eqn:Hdata.
  - (* the face carries font data *)
    unfold TakeBufferSource. cbn -[FindOrCreateUserFontEntry].
    set (st1 := update_face aFontFace (set_mBufferSource None) st).
    set (srcs := [buffer_face (mBufferSource (face st aFontFace))]).
    destruct (FindOrCreateUserFontEntry_new st1 aFamilyName srcs attrs)
      as (Hfresh & Hentry & Hfaces).
    destruct (FindOrCreateUserFontEntry st1 aFamilyName srcs attrs)
      as [e st2] eqn:Hcreate. cbn [fst snd] in *.
    split; [discriminate|]. split.
    + intros result st' [= <- <-]. split; [split; [discriminate|]|].
      { intros [Hd _]. discriminate. }
      split; [discriminate|]. intros e' [= <-].
      split; [exact Hfresh|]. rewrite Hentry. cbn.
      split; [discriminate|]. split; [exact Hattrs|discriminate].
    + intros _. exists e, st2. split; [reflexivity|].
      rewrite Hentry. split; [reflexivity|].
      unfold face. rewrite Hfaces. fold (face st1 aFontFace).
      unfold st1. now rewrite face_update_face_eq.
  - (* the face has a source list *)
    pose proof (BuildSrcArray_fuel layout_css_font_variations_enabled aOrigin
                  (GetSources (face st aFontFace))) as Hfuel.
    pose proof (BuildSrcArray_keys layout_css_font_variations_enabled aOrigin
                  (GetSources (face st aFontFace))) as Hkeys.
    destruct (BuildSrcArray layout_css_font_variations_enabled aOrigin
                (GetSources (face st aFontFace))) as [srcs| |];
      [|cbn; repeat split; discriminate|now destruct Hfuel].
    specialize (Hkeys srcs eq_refl). cbn -[FindOrCreateUserFontEntry].
    destruct srcs as [|src srcs].
    + split; [discriminate|]. split; [|discriminate].
      intros result st' [= <- <-]. rewrite <- Hkeys.
      split; [tauto|]. split; [reflexivity|discriminate].
    + destruct (FindOrCreateUserFontEntry_new st aFamilyName (src :: srcs) attrs)
        as (Hfresh & Hentry & Hfaces).
      destruct (FindOrCreateUserFontEntry st aFamilyName (src :: srcs) attrs)
        as [e st2] eqn:Hcreate. cbn [fst snd] in *.
      split; [discriminate|]. split; [|discriminate].
      intros result st' [= <- <-]. split; [split; [discriminate|]|].
      { intros [_ Hempty]. rewrite <- Hkeys in Hempty. discriminate. }
      split; [discriminate|]. intros e' [= <-].
      split; [exact Hfresh|]. rewrite Hentry. cbn.
      split; [discriminate|]. split; [exact Hattrs|]. intros _.
      split; [exact Hfaces|reflexivity].
Qed.

(** X12.  For a face that has no entry yet, the call gives no entry exactly
    when the face carries no font data and its source list yields no source
    (no local name and no URL with a URI), and then it changes nothing.
    Otherwise the entry is a new object with the attributes resolved from
    the face and a source list that is not empty.  A face that carries font
    data gets the single buffer source and gives its data away; its source
    list is not looked at. *)
Theorem new_entry_needs_a_source st (aFamilyName : string) aFontFace
    (aOrigin : StyleOrigin) :
  GetUserFontEntry (face st aFontFace) = None ->
  let call :=
    FindOrCreateUserFontEntryFromFontFace st aFamilyName aFontFace aOrigin in
  call <> OutOfFuel
  /\ (forall result st',
        call = Returned (result, st') ->
        (result = None
         <-> HasFontData (face st aFontFace) = false
             /\ omap source_key (GetSources (face st aFontFace)) = [])
        /\ (result = None -> st' = st)
        /\ (forall e,
              result = Some e ->
              (e ∉ dom (entries st))
              /\ mSrcList (entry st' e) <> []
              /\ resolve_attributes (face st aFontFace)
                 = Returned (attributes (entry st' e))
              /\ (HasFontData (face st aFontFace) = false ->
                  faces st' = faces st
                  /\ BuildSrcArray layout_css_font_variations_enabled aOrigin
                       (GetSources (face st aFontFace))
                     = Returned (mSrcList (entry st' e)))))
  /\ (HasFontData (face st aFontFace) = true ->
      exists e st',
        call = Returned (Some e, st')
        /\ mSrcList (entry st' e)
           = [buffer_face (mBufferSource (face st aFontFace))]
        /\ HasFontData (face st' aFontFace) = false).
Proof. apply FindOrCreate_new_outcome. Qed.

(** The branch reaches the unreachable arm of the source loop exactly for
    a face without font data whose source list is not made of groups. *)
Lemma FindOrCreate_new_unreachable st (aFamilyName : string) aFontFace
    (aOrigin : StyleOrigin) :
  GetUserFontEntry (face st aFontFace) = None ->
  FindOrCreateUserFontEntryFromFontFace st aFamilyName aFontFace aOrigin
  = AssertUnreachable
  <-> HasFontData (face st aFontFace) = false
      /\ ~ exists gs, GetSources (face st aFontFace) = components_of_groups gs.
Proof.
  intros Hnone.
  destruct (FindOrCreate_new st aFamilyName aFontFace aOrigin Hnone)
    as (attrs & _ & ->).
  unfold build_source_list.
  destruct (HasFontData (face st aFontFace)) eqn:Hdata.
  - unfold TakeBufferSource. cbn -[FindOrCreateUserFontEntry].
    destruct (FindOrCreateUserFontEntry _ _ _ _) as [e st2].
    split; [discriminate|]. intros [Hd _]. discriminate.
  - pose proof (BuildSrcArray_fuel layout_css_font_variations_enabled aOrigin
                  (GetSources (face st aFontFace))) as Hfuel.
    pose proof (BuildSrcArray_returned_groups layout_css_font_variations_enabled
                  aOrigin (GetSources (face st aFontFace))) as Hgroups.
    pose proof (BuildSrcArray_groups layout_css_font_variations_enabled aOrigin)
      as Hbuilt.
    destruct (BuildSrcArray layout_css_font_variations_enabled aOrigin
                (GetSources (face st aFontFace))) as [srcs| |] eqn:Hbuild;
      [| |now destruct Hfuel].
    + destruct (Hgroups srcs eq_refl) as (gs & Hgs & _).
      cbn -[FindOrCreateUserFontEntry]. split.
      * destruct srcs; [discriminate|].
        destruct (FindOrCreateUserFontEntry _ _ _ _). discriminate.
      * intros [_ Hno]. destruct Hno. now exists gs.
    + cbn. split; [|reflexivity]. intros _. split; [reflexivity|].
      intros (gs & Hgs). rewrite Hgs, Hbuilt in Hbuild. discriminate.
Qed.

Context {UI : UserFontSetInsertion}.

(** X13.  [InsertNonRuleFontFace] sets [aFontSetModified] whenever it changes
    anything: if the flag is not true afterwards, it holds the caller's
    value and the state is the one before the call.  That happens for a face
    without family name, and for a face without entry, font data and usable
    source.  A face that has an entry already is handed to
    [AddUserFontEntry] as it is, without resolving it again.  A face with a
    family name and without entry that carries font data or has a usable
    source is resolved to a new entry, which [SetUserFontEntry] gives to the
    face; the entry the face then has is handed to [AddUserFontEntry] and
    the flag is set.  The call always ends, and it reaches the unreachable
    arm of the source loop exactly for a face with a family name, without
    entry and without font data, whose source list is not made of groups:
    in every other case it returns. *)
Theorem InsertNonRuleFontFace_flags_every_change st aFontFace
    (aFontSetModified : bool) :
  let call := InsertNonRuleFontFace st aFontFace aFontSetModified in
  let sources := GetSources (face st aFontFace) in
  (forall modified st',
     call = Returned (modified, st') ->
     modified = true \/ modified = aFontSetModified /\ st' = st)
  /\ call <> OutOfFuel
  /\ (call = AssertUnreachable
      <-> is_Some (GetFamilyName (face st aFontFace))
          /\ GetUserFontEntry (face st aFontFace) = None
          /\ HasFontData (face st aFontFace) = false
          /\ ~ exists gs, sources = components_of_groups gs)
  /\ (GetFamilyName (face st aFontFace) = None ->
      call = Returned (aFontSetModified, st))
  /\ (forall family e,
        GetFamilyName (face st aFontFace) = Some family ->
        GetUserFontEntry (face st aFontFace) = Some e ->
        call = Returned (true, AddUserFontEntry family (Some e) st))
  /\ (forall family,
        GetFamilyName (face st aFontFace) = Some family ->
        GetUserFontEntry (face st aFontFace) = None ->
        HasFontData (face st aFontFace) = true
        \/ (exists gs, sources = components_of_groups gs)
           /\ omap source_key sources <> [] ->
        exists e st',
          FindOrCreateUserFontEntryFromFontFace st family aFontFace Author
          = Returned (Some e, st')
          /\ (e ∉ dom (entries st))
          /\ call
             = Returned
                 (true,
                  let resolved := SetUserFontEntry aFontFace e st' in
                  AddUserFontEntry family
                    (GetUserFontEntry (face resolved aFontFace)) resolved))
  /\ (forall family,
        GetFamilyName (face st aFontFace) = Some family ->
        GetUserFontEntry (face st aFontFace) = None ->
        HasFontData (face st aFontFace) = false ->
        omap source_key sources = [] ->
        (exists gs, sources = components_of_groups gs) ->
        call = Returned (aFontSetModified, st)).
Proof.
  intros call sources. unfold call, sources, InsertNonRuleFontFace.
  clear call sources.
  destruct (GetFamilyName (face st aFontFace)) as [family|] eqn:Hfamily.
  2:{ split; [intros m s [= <- <-]; auto|]. split; [discriminate|].
      split; [split; [discriminate|intros ([x Hx] & _); discriminate]|].
      split; [reflexivity|]. repeat split; intros; discriminate. }
  destruct (GetUserFontEntry (face st aFontFace)) as [e|] eqn:Hentry.
  { split; [intros m s [= <- <-]; auto|]. split; [discriminate|].
    split; [split; [discriminate|intros (_ & Hx & _); discriminate]|].
    split; [discriminate|].
    split; [now intros f e' [= <-] [= <-]|].
    split; intros; discriminate. }
  destruct (FindOrCreate_new_outcome st family aFontFace Author Hentry)
    as (Hfuel & Hret & _).
  pose proof (FindOrCreate_new_unreachable st family aFontFace Author Hentry)
    as Hunreachable.
  destruct (FindOrCreateUserFontEntryFromFontFace st family aFontFace Author)
    as [[result st1]| |] eqn:Hcall; [|cbn|now destruct Hfuel].
  - destruct (Hret result st1 eq_refl) as (Hnone & Hsame & Hsome). cbn.
    destruct result as [e|].
    + destruct (Hsome e eq_refl) as (Hfresh & _).
      split; [intros m s [= <- <-]; auto|]. split; [discriminate|].
      split.
      { split; [discriminate|]. intros (_ & _ & Hd & Hmalformed).
        assert (Hx : Returned (Some e, st1) = AssertUnreachable)
          by (apply Hunreachable; auto).
        discriminate. }
      split; [discriminate|]. split; [intros; discriminate|]. split.
      * intros f [= <-] _ _. exists e, st1. auto.
      * intros f _ _ Hd Hkeys _.
        assert (Hx : Some e = None) by (apply Hnone; auto). discriminate.
    + rewrite (Hsame eq_refl).
      split; [intros m s [= <- <-]; auto|]. split; [discriminate|].
      split.
      { split; [discriminate|]. intros (_ & _ & Hd & Hmalformed).
        assert (Hx : Returned (None, st1) = AssertUnreachable)
          by (apply Hunreachable; auto).
        discriminate. }
      split; [discriminate|]. split; [intros; discriminate|]. split.
      * intros f _ _ Hcond. destruct (proj1 Hnone eq_refl) as [Hd Hkeys].
        destruct Hcond as [Hdata|[_ Husable]]; [congruence|contradiction].
      * reflexivity.
  - destruct (proj1 Hunreachable eq_refl) as [Hd Hmalformed].
    split; [discriminate|]. split; [discriminate|]. split.
    { split; [|reflexivity]. intros _. eauto. }
    split; [discriminate|]. split; [intros; discriminate|]. split.
    + intros f _ _ [Hdata|[Hgrouped _]]; [congruence|contradiction].
    + intros f _ _ _ _ Hgrouped. contradiction.
Qed.

End NewEntryProperties.

(** *** A face that carries font data, and one that has nothing to load *)

Lemma new_entry_needs_a_source_witness :
  let with_data :=
    set_mBufferSource (Some 7%nat)
      (example_face false true FontFaceLoadStatus.Loaded None
         (Some "A"%string) None) in
  let st := example_registry
              [(1%nat, with_data);
               (2%nat, example_face false true FontFaceLoadStatus.Loaded None
                         (Some "A"%string) None)]
              [] [] [1%nat; 2%nat] FontFaceSetLoadStatus.Loaded in
  (exists e st',
     FindOrCreateUserFontEntryFromFontFace (SP := example_prefs) st "A" 1 Author
     = Returned (Some e, st')
     /\ mSrcList (entry st' e) = [buffer_face (Some 7%nat)]
     /\ HasFontData (face st' 1) = false)
  /\ FindOrCreateUserFontEntryFromFontFace (SP := example_prefs) st "A" 2 Author
     = Returned (None, st).
Proof.
  intros with_data st. split.
  - exact (proj2 (proj2 (new_entry_needs_a_source (SP := example_prefs)
                           st "A"%string 1%nat Author eq_refl)) eq_refl).
  - destruct (new_entry_needs_a_source (SP := example_prefs)
                st "A"%string 2%nat Author eq_refl) as (_ & Hresult & _).
    destruct (FindOrCreateUserFontEntryFromFontFace (SP := example_prefs)
                st "A" 2 Author) as [[result st']| |] eqn:Hcall;
      [|discriminate Hcall..].
    destruct (Hresult result st' eq_refl) as (Hnone & Hsame & _).
    assert (Hr : result = None) by (apply Hnone; split; reflexivity).
    now rewrite Hr, (Hsame Hr).
Defined.

(** The face that carries font data is inserted: it gets a new entry, and
    the flag is set. *)
Lemma InsertNonRuleFontFace_flags_every_change_witness :
  let with_data :=
    set_mBufferSource (Some 7%nat)
      (example_face false true FontFaceLoadStatus.Loaded None
         (Some "A"%string) None) in
  let st := example_registry [(1%nat, with_data)] [] [] [1%nat]
              FontFaceSetLoadStatus.Loaded in
  exists e st' st'',
    FindOrCreateUserFontEntryFromFontFace (SP := example_prefs) st "A" 1 Author
    = Returned (Some e, st')
    /\ InsertNonRuleFontFace (SP := example_prefs) (UI := example_insertion)
         st 1 false
       = Returned (true, st'')
    /\ GetUserFontEntry (face st'' 1) = Some e.
Proof.
  intros with_data st.
  destruct (InsertNonRuleFontFace_flags_every_change
              (SP := example_prefs) (UI := example_insertion) st 1%nat false)
    as (_ & _ & _ & _ & _ & Hnew & _).
  destruct (Hnew "A"%string eq_refl eq_refl (or_introl eq_refl))
    as (e & st' & Hresolve & _ & Hcall).
  exists e, st'. eexists. split; [exact Hresolve|]. split; [exact Hcall|].
  cbn zeta.
  change (SetUserFontEntry (UserFontSetInsertion := example_insertion) 1%nat e st')
    with (update_face 1%nat (set_GetUserFontEntry (Some e)) st').
  assert (Hface : GetUserFontEntry
                    (face (update_face 1%nat (set_GetUserFontEntry (Some e)) st')
                       1)
                  = Some e) by now rewrite face_update_face_eq.
  rewrite Hface. unfold AddUserFontEntry, example_insertion.
  destruct (decide _); exact Hface.
Defined.

(** ** Synchronous loading of font data: the successful call *)

Lemma uint32_range (z : Z) : 0 <= uint32 z < 2 ^ 32.
Proof. unfold uint32. apply Z.mod_pos_bound. lia. Qed.

Lemma uint32_small (z : Z) : 0 <= z <= UINT32_MAX -> uint32 z = z.
Proof. unfold uint32, UINT32_MAX. intros Hz. apply Z.mod_small. lia. Qed.

(** The loop never reports success with more bytes than the buffer holds. *)
Lemma read_loop_bound (reads : list (nsresult * Z)) :
  forall aBufferLength totalRead,
    0 <= totalRead <= aBufferLength ->
    NS_FAILED (read_loop reads aBufferLength totalRead).1 = false ->
    0 <= (read_loop reads aBufferLength totalRead).2 <= aBufferLength.
Proof.
  induction reads as [|[rv numRead] reads IH]; intros len total Htotal Hok.
  - exact Htotal.
  - cbn [read_loop] in *.
    destruct (NS_SUCCEEDED rv && negb (numRead =? 0)); [|exact Htotal].
    destruct (Z.gtb_spec (uint32 (total + numRead)) len) as [Hover|Hfits].
    + discriminate Hok.
    + apply IH; [|exact Hok]. pose proof (uint32_range (total + numRead)). lia.
Qed.

(** X14.  When [SyncLoadFontData] does not fail, it returns NS_OK, the
    buffer is the block it allocated, which it has not freed, and the length
    is the number of bytes read, which is at most the length announced by
    the stream (and may be zero); the stream announced between 1 and
    UINT32_MAX bytes, unless its answer was out of the range of a uint64.
    The content type was obtained without failure. *)
Theorem sync_load_success_outputs (env : SyncLoadEnvironment)
    (aBuffer : option nat) (aBufferLength : Z) :
  let r := SyncLoadFontData env aBuffer aBufferLength in
  let announced := (stream_Available env).2 in
  NS_FAILED (sl_rv r) = false ->
  sl_rv r = NS_OK
  /\ (exists ptr, malloc env = Some ptr /\ sl_aBuffer r = Some ptr)
  /\ sl_heap r = [Malloc (uint32 announced)]
  /\ 0 <= sl_aBufferLength r <= uint32 announced
  /\ sl_aBufferLength r = (read_loop (stream_Read env) (uint32 announced) 0).2
  /\ NS_FAILED (read_loop (stream_Read env) (uint32 announced) 0).1 = false
  /\ NS_FAILED (channel_GetContentType env) = false
  /\ announced <> 0 /\ announced <= UINT32_MAX
  /\ (0 <= announced -> uint32 announced = announced).
Proof.
  intros r announced. subst r announced. unfold SyncLoadFontData.
  destruct (NS_FAILED (CreateChannelForSyncLoadFontData env)) eqn:H1;
    [cbn [sl_rv]; intros Hx; congruence|].
  destruct (NS_FAILED (channel_Open env)) eqn:H2; [cbn [sl_rv]; intros Hx; congruence|].
  destruct (stream_Available env) as [rv len]. cbn [fst snd].
  destruct (NS_FAILED rv) eqn:H3; [cbn [sl_rv]; intros Hx; congruence|].
  destruct (Z.eqb_spec len 0) as [->|Hlen]; [cbn; discriminate|].
  destruct (Z.gtb_spec len UINT32_MAX) as [Hbig|Hsmall]; [cbn; discriminate|].
  destruct (malloc env) as [ptr|]; [|cbn; discriminate].
  pose proof (read_loop_bound (stream_Read env) (uint32 len) 0) as Hbound.
  destruct (read_loop (stream_Read env) (uint32 len) 0) as [rv' total].
  cbn [fst snd] in Hbound. unfold NS_SUCCEEDED.
  destruct (NS_FAILED rv') eqn:Hrv'; cbn [negb].
  - rewrite Hrv'. cbn [sl_rv]. intros Hx. congruence.
  - destruct (NS_FAILED (channel_GetContentType env)) eqn:Hmime;
      cbn [sl_rv sl_aBuffer sl_aBufferLength sl_heap].
    + intros Hx. congruence.
    + intros _. pose proof (uint32_range len) as Hrange.
      split; [reflexivity|]. split; [eauto|]. split; [reflexivity|].
      split; [apply Hbound; [lia|reflexivity]|].
      repeat split; try assumption.
      intros Hpos. apply uint32_small. lia.
Qed.

(** A payload of 16 bytes that arrives in two reads. *)
Lemma sync_load_success_outputs_witness :
  let env := {| CreateChannelForSyncLoadFontData := NS_OK;
                channel_Open := NS_OK;
                stream_Available := (NS_OK, 16);
                malloc := Some 1%nat;
                stream_Read := [(NS_OK, 10); (NS_OK, 6); (NS_OK, 0)];
                channel_GetContentType := NS_OK |} in
  let r := SyncLoadFontData env None 0 in
  sl_rv r = NS_OK /\ sl_aBuffer r = Some 1%nat /\ sl_aBufferLength r = 16
  /\ sl_heap r = [Malloc 16].
Proof.
  intros env r.
  destruct (sync_load_success_outputs env None 0 eq_refl)
    as (Hrv & (ptr & Hmalloc & Hbuffer) & Hheap & _ & Hlength & _).
  split; [exact Hrv|]. split; [|split; [exact Hlength|exact Hheap]].
  transitivity (Some ptr); [exact Hbuffer|]. now rewrite <- Hmalloc.
Defined.

(** ** Matching: what the family list and the text contribute *)

Section MatchingEdgeProperties.
Context {FP : FontPropertyTypes} {OW : FontFaceSetOwner}
        {VT : FontFaceSetImplVirtuals} {MS : FontMatchingServices}.

Implicit Types (st : FontFaceSetImpl) (e owner : nat) (aText : list Z).

Lemma matching_owner_families st (aStyle : gfxFontStyle)
    (familyList1 familyList2 : list StyleSingleFontFamily) aText owner :
  (forall name, FamilyName name ∈ familyList1 -> FamilyName name ∈ familyList2) ->
  matching_owner st aStyle familyList1 aText owner ->
  matching_owner st aStyle familyList2 aText owner.
Proof.
  intros Hsub (e & f & (name & family & Hname & Hrest) & Hf).
  exists e, f. split; [|exact Hf]. exists name, family. split; [auto|exact Hrest].
Qed.

Lemma filter_no_member (matchingFaces : gset nat) (owners : list nat) :
  (forall owner, owner ∈ owners -> owner ∉ matchingFaces) ->
  filter (fun owner => owner ∈ matchingFaces) owners = [].
Proof.
  induction owners as [|o os IH]; intros Hnone; [reflexivity|].
  rewrite filter_cons. destruct (decide (o ∈ matchingFaces)) as [Hin|_].
  - destruct (Hnone o); [left|exact Hin].
  - apply IH. intros owner Hin. apply Hnone. now right.
Qed.

(** X15.  The faces found depend on the family list of the shorthand only
    through the set of family names in it: two shorthands with the same
    style whose lists name the same families, in any order, with any
    repetition and with any generic names among them, give the same faces
    in the same order. *)
Theorem matching_ignores_family_order st (aFont1 aFont2 : string) aText
    (aFontFaces : list nat) (familyList1 familyList2 : list StyleSingleFontFamily)
    (aWeight : FontWeight) (aStretch : FontStretch) (aStyle : FontSlantStyle) :
  ParseFontShorthandForMatching st aFont1
  = inr (familyList1, aWeight, aStretch, aStyle) ->
  ParseFontShorthandForMatching st aFont2
  = inr (familyList2, aWeight, aStretch, aStyle) ->
  (forall name, FamilyName name ∈ familyList1 <-> FamilyName name ∈ familyList2) ->
  FindMatchingFontFaces st aFont1 aText aFontFaces
  = FindMatchingFontFaces st aFont2 aText aFontFaces.
Proof.
  intros Hparse1 Hparse2 Hsame.
  destruct (FindMatchingFontFaces_spec st aFont1 aText aFontFaces _ _ _ _ Hparse1)
    as (found1 & Hfound1 & ->).
  destruct (FindMatchingFontFaces_spec st aFont2 aText aFontFaces _ _ _ _ Hparse2)
    as (found2 & Hfound2 & ->).
  assert (Heq : found1 = found2).
  { apply set_eq. intros owner. rewrite Hfound1, Hfound2.
    split; apply matching_owner_families; intros name; apply Hsame. }
  now rewrite Heq.
Qed.

(** X16.  When the shorthand parses, nothing is appended and no error is
    reported if the text is empty (also when an entry has no unicode-range
    and so covers every codepoint), if no family name of the list is the
    name of a registered family (as when the list holds generic names only),
    or if no recorded face has an owner. *)
Theorem matching_without_candidates st (aFont : string) aText
    (aFontFaces : list nat) (familyList : list StyleSingleFontFamily)
    (aWeight : FontWeight) (aStretch : FontStretch) (aStyle : FontSlantStyle) :
  ParseFontShorthandForMatching st aFont
  = inr (familyList, aWeight, aStretch, aStyle) ->
  aText = []
  \/ (forall name, FamilyName name ∈ familyList -> LookupFamily st name = None)
  \/ (forall rec, rec ∈ mNonRuleFaces st -> GetOwner (face st (mFontFace rec)) = None) ->
  FindMatchingFontFaces st aFont aText aFontFaces = Returned (NoError, aFontFaces).
Proof.
  intros Hparse Hnone.
  destruct (FindMatchingFontFaces_spec st aFont aText aFontFaces _ _ _ _ Hparse)
    as (found & Hfound & ->).
  rewrite filter_no_member; [now rewrite app_nil_r|].
  intros owner Hrecorded Hin. apply Hfound in Hin.
  destruct Hin as (e & f & (name & family & Hname & Hfamily & _ & Hcovers) & _).
  destruct Hnone as [->|[Hunknown|Hownerless]].
  - discriminate Hcovers.
  - rewrite (Hunknown name Hname) in Hfamily. discriminate.
  - apply list_elem_of_omap in Hrecorded as (rec & Hrec & Howner).
    rewrite (Hownerless rec Hrec) in Howner. discriminate.
Qed.

End MatchingEdgeProperties.

(** *** The same on the set of the example *)

Lemma matching_ignores_family_order_witness :
  FindMatchingFontFaces (VT := example_virtuals) (MS := example_matching_lists)
    example_family_A "400 10px A, serif, B" text_Hello []
  = FindMatchingFontFaces (VT := example_virtuals) (MS := example_matching_lists)
      example_family_A "400 10px B, A, A" text_Hello [].
Proof.
  apply (matching_ignores_family_order
           (VT := example_virtuals) (MS := example_matching_lists)
           example_family_A "400 10px A, serif, B"%string
           "400 10px B, A, A"%string text_Hello []
           [FamilyName "A"; Generic "serif"; FamilyName "B"]
           [FamilyName "B"; FamilyName "A"; FamilyName "A"]
           (400 : @FontWeight example_font_properties)
           (100 : @FontStretch example_font_properties)
           (0 : @FontSlantStyle example_font_properties) eq_refl eq_refl).
  intros name. rewrite !elem_of_cons, !elem_of_nil. intuition congruence.
Defined.

Lemma matching_without_candidates_witness :
  FindMatchingFontFaces (VT := example_virtuals) (MS := example_matching)
    example_family_A "400 10px A" [] [5%nat]
  = Returned (NoError, [5%nat]).
Proof.
  apply (matching_without_candidates
           (VT := example_virtuals) (MS := example_matching)
           example_family_A "400 10px A"%string [] [5%nat] [FamilyName "A"]
           (400 : @FontWeight example_font_properties)
           (100 : @FontStretch example_font_properties)
           (0 : @FontSlantStyle example_font_properties) eq_refl).
  now left.
Defined.

(** ** A set without owner *)

Section DestroyProperties.
Context {FP : FontPropertyTypes} {OW : FontFaceSetOwner}
        {VT : FontFaceSetImplVirtuals} {BS : FontFaceSetImplBase}.

Implicit Types (st : FontFaceSetImpl) (aFontFace f : nat).

(** The owner and the status are those of a state that the hypotheses
    speak of. *)
Ltac unchanged :=
  cbn [fst snd];
  split; [first [assumption|congruence]|intros; first [assumption|congruence]].

Lemma CheckLoadingStarted_ownerless st :
  mOwner st = None ->
  mOwner (CheckLoadingStarted st) = None
  /\ (mStatus st = FontFaceSetLoadStatus.Loading ->
      mStatus (CheckLoadingStarted st) = FontFaceSetLoadStatus.Loading).
Proof.
  intros Hnone. unfold CheckLoadingStarted.
  destruct (HasLoadingFontFaces_fields st)
    as (_ & _ & _ & _ & _ & Hs & _ & Ho & _).
  destruct (HasLoadingFontFaces st) as [loading st2]. cbn [fst snd] in *.
  rewrite Hnone in Ho.
  destruct loading; cbn [negb]; [|split; [assumption|intros Hl; rewrite Hs; exact Hl]].
  destruct (decide (mStatus st2 = FontFaceSetLoadStatus.Loading)) as [Hl|Hl];
    [unchanged|].
  unfold OnLoadingStarted, DispatchToOwningThread.
  cbn [IsOnOwningThread mOwner set_mStatus]. rewrite Ho.
  destruct (IsOnOwningThread st2); cbn; auto.
Qed.

Lemma CheckLoadingFinished_ownerless st :
  mOwner st = None -> CheckLoadingFinished st = st.
Proof.
  intros Hnone. unfold CheckLoadingFinished, ReadyPromiseIsPending.
  rewrite Hnone. now destruct (mDelayedLoadCheck st).
Qed.

(** No operation gives the set an owner, and without owner none takes the
    set from Loading to Loaded. *)
Lemma ownerless_operation (op : Operation) st :
  keeps_set_fields FlushUserFontSet -> keeps_owner FlushUserFontSet ->
  keeps_set_fields MarkUserFontSetDirty -> keeps_owner MarkUserFontSetDirty ->
  mOwner st = None ->
  mOwner (run_operation op st) = None
  /\ (mStatus st = FontFaceSetLoadStatus.Loading ->
      mStatus (run_operation op st) = FontFaceSetLoadStatus.Loading).
Proof.
  intros Hflush Hflush_owner Hmark Hmark_owner Hnone.
  assert (Hnone1 : mOwner (FlushUserFontSet st) = None)
    by now rewrite Hflush_owner.
  assert (Hstatus1 : mStatus (FlushUserFontSet st) = mStatus st)
    by apply Hflush.
  assert (Hmark_status : forall s, mStatus (MarkUserFontSetDirty s) = mStatus s)
    by (intros s; apply Hmark).
  destruct op as [f|f| |f status| | |task]; cbn [run_operation].
  - (* Add *)
    unfold Add. destruct (IsInFontFaceSet _ f); [unchanged|].
    destruct (HasRule _); [unchanged|]. cbn [snd].
    match goal with
    | |- context [CheckLoadingStarted ?s] =>
        destruct (CheckLoadingStarted_ownerless s) as [Ho Hs]
    end.
    { cbn. now rewrite Hmark_owner. }
    split; [exact Ho|]. intros Hl. apply Hs. cbn.
    rewrite Hmark_status. cbn. congruence.
  - (* Delete *)
    unfold Delete. destruct (HasRule _); [unchanged|].
    destruct (remove_first_record f _) as [records|]; [|unchanged].
    cbn [snd]. rewrite CheckLoadingFinished_ownerless;
      cbn; rewrite ?Hmark_owner, ?Hmark_status; cbn; [|exact Hnone1].
    split; [exact Hnone1|congruence].
  - (* Clear *)
    unfold Clear. destruct (mNonRuleFaces (FlushUserFontSet st)) as [|rec rest];
      [unchanged|].
    assert (Hremoved : forall records s,
              mOwner (remove_all_from_set records s) = mOwner s
              /\ mStatus (remove_all_from_set records s) = mStatus s).
    { induction records as [|r records IH]; intros s; [split; reflexivity|].
      cbn [remove_all_from_set].
      destruct (IH (RemoveFontFaceSet (mFontFace r) s)) as [-> ->].
      split; reflexivity. }
    rewrite CheckLoadingFinished_ownerless;
      cbn; rewrite ?Hmark_owner, ?Hmark_status; cbn;
      rewrite ?(proj1 (Hremoved _ _)), ?(proj2 (Hremoved _ _));
      [|exact Hnone1].
    split; [exact Hnone1|]. intros Hl. rewrite <- Hl. exact Hstatus1.
  - (* a face changes its status *)
    unfold OnFontFaceStatusChanged.
    destruct (decide _) as [_|_].
    + destruct (CheckLoadingStarted_ownerless
                  (set_mHasLoadingFontFacesIsDirty true
                     (update_face f (set_Status status) st)) Hnone) as [Ho Hs].
      split; [exact Ho|exact Hs].
    + destruct (negb _); [|split; [exact Hnone|auto]].
      unfold DispatchCheckLoadingFinishedAfterDelay.
      destruct (CurrentServoStyleSet _); split; solve [exact Hnone|auto].
  - now apply CheckLoadingStarted_ownerless.
  - rewrite CheckLoadingFinished_ownerless by exact Hnone. auto.
  - destruct task; cbn [run_task].
    + unfold OnLoadingStarted. rewrite Hnone. auto.
    + unfold OnLoadingFinished. rewrite Hnone. auto.
    + unfold CheckLoadingFinishedAfterDelay.
      rewrite CheckLoadingFinished_ownerless by exact Hnone. auto.
Qed.

(** X17.  [Destroy] leaves a set without records and without owner, but
    does not detach the faces: a face that was a member still counts as
    one, so that [Add] refuses it without an error and [Delete] finds no
    record of it.  The aggregate status is left as it is, and whatever is
    done to the set afterwards, it gets no owner again and, destroyed while
    Loading, never reports Loaded.  This holds for loaders, a base class and
    virtual methods that leave the fields of the set alone. *)
Theorem Destroy_leaves_an_inert_set st :
  keeps_set_fields CancelAndClearLoaders ->
  keeps_set_fields gfxUserFontSet_Destroy ->
  keeps_set_fields FlushUserFontSet -> keeps_owner FlushUserFontSet ->
  keeps_set_fields MarkUserFontSetDirty -> keeps_owner MarkUserFontSetDirty ->
  let st' := Destroy st in
  mOwner st' = None /\ mNonRuleFaces st' = []
  /\ faces st' = faces st /\ mStatus st' = mStatus st
  /\ ReadyPromiseIsPending st' = false
  /\ (forall f, IsInFontFaceSet st f = true ->
        Add st' f = (false, NoError, FlushUserFontSet st')
        /\ Delete st' f = (false, FlushUserFontSet st'))
  /\ (forall ops : list Operation,
        let st'' := foldl (fun s op => run_operation op s) st' ops in
        mOwner st'' = None
        /\ (mStatus st = FontFaceSetLoadStatus.Loading ->
            mStatus st'' = FontFaceSetLoadStatus.Loading)).
Proof.
  intros Hcancel Hbase Hflush Hflush_owner Hmark Hmark_owner st'.
  destruct (Hcancel st) as (Hf1 & _ & Hs1 & _).
  destruct (Hbase (set_mNonRuleFaces [] (CancelAndClearLoaders st)))
    as (Hf2 & Hr2 & Hs2 & _).
  assert (Howner : mOwner st' = None) by reflexivity.
  assert (Hrecords : mNonRuleFaces st' = []) by exact Hr2.
  assert (Hfaces : faces st' = faces st).
  { unfold st', Destroy. cbn. rewrite Hf2. cbn. exact Hf1. }
  assert (Hstatus : mStatus st' = mStatus st).
  { unfold st', Destroy. cbn. rewrite Hs2. cbn. exact Hs1. }
  split; [exact Howner|]. split; [exact Hrecords|]. split; [exact Hfaces|].
  split; [exact Hstatus|].
  split; [unfold ReadyPromiseIsPending; now rewrite Howner|]. split.
  - intros f Hmember. destruct (Hflush st') as (Hf3 & Hr3 & _).
    assert (Hmember' : IsInFontFaceSet (FlushUserFontSet st') f = true).
    { unfold IsInFontFaceSet, face in *. now rewrite Hf3, Hfaces. }
    split.
    + unfold Add. now rewrite Hmember'.
    + unfold Delete. destruct (HasRule _); [reflexivity|].
      now rewrite Hr3, Hrecords.
  - intros ops. rewrite <- Hstatus. clear Hstatus. revert Howner.
    generalize st'. clear -Hflush Hflush_owner Hmark Hmark_owner.
    induction ops as [|op ops IH]; intros s Hnone; cbn [foldl]; [auto|].
    destruct (ownerless_operation op s Hflush Hflush_owner Hmark Hmark_owner
                Hnone) as [Ho Hs].
    destruct (IH _ Ho) as [Ho' Hs']. auto.
Qed.

End DestroyProperties.

(** *** A set destroyed while its one face is loading *)

Lemma example_virtuals_keep_owner :
  keeps_owner (FlushUserFontSet (FontFaceSetImplVirtuals := example_virtuals))
  /\ keeps_owner
       (MarkUserFontSetDirty (FontFaceSetImplVirtuals := example_virtuals)).
Proof. split; intros st; reflexivity. Qed.

Lemma example_base_keeps_set_fields :
  keeps_set_fields (CancelAndClearLoaders (FontFaceSetImplBase := example_base))
  /\ keeps_set_fields
       (gfxUserFontSet_Destroy (FontFaceSetImplBase := example_base)).
Proof. split; intros st; repeat split. Qed.

Lemma Destroy_leaves_an_inert_set_witness :
  let st := example_set
              [(3%nat, example_face false true FontFaceLoadStatus.Loading None None None)]
              [3%nat] FontFaceSetLoadStatus.Loading in
  let st' := Destroy (BS := example_base) st in
  Add (VT := example_virtuals) st' 3
  = (false, NoError,
     FlushUserFontSet (FontFaceSetImplVirtuals := example_virtuals) st')
  /\ mStatus (run_operation (VT := example_virtuals)
                (OpFaceStatusChanged 3 FontFaceLoadStatus.Loaded) st')
     = FontFaceSetLoadStatus.Loading.
Proof.
  intros st st'.
  destruct (Destroy_leaves_an_inert_set (VT := example_virtuals)
              (BS := example_base) st
              (proj1 example_base_keeps_set_fields)
              (proj2 example_base_keeps_set_fields)
              (proj1 example_virtuals_keep_set_fields)
              (proj1 example_virtuals_keep_owner)
              (proj2 example_virtuals_keep_set_fields)
              (proj2 example_virtuals_keep_owner))
    as (_ & _ & _ & _ & _ & Hmember & Hlater).
  split; [exact (proj1 (Hmember 3%nat eq_refl))|].
  exact (proj2 (Hlater [OpFaceStatusChanged 3 FontFaceLoadStatus.Loaded]) eq_refl).
Defined.

(** ** Messages to the console *)

Section LoggingProperties.
Context {EL : ErrorList}.


End LoggingProperties.
